(** * kmux: pod-session reconcilers (log following and port forwarding)

    A shallow embedding of [Logger.Log], [Logger.handlePod],
    [Logger.outputLog] (package [log]) and of the [port-forward] command
    ([portForwardCmd.RunE], [handleForwardPod], [GetFreePort], package
    [cmd]); then of the earlier [port-forward] command with one local
    port per pod ([FixedPort]), of [getKubernetesClient] in its two
    versions ([Root]), and of the functions of package [env] that
    compute the environment of a container ([Env]).

    The consumer loop of a reconciler and the goroutines it hands to
    [concurrent.Simple] are modelled as an interleaving transition system:
    a state holds the [sync.Map], the goroutines with their program
    counters and the effects performed so far; a label says which thread
    runs next and what the cluster or the network answered.

    Granularity.  One turn of the consumer loop is one step, and a
    goroutine runs from one blocking call to the next in one step.  The
    calls on the [sync.Map] are atomic in the code.  In the port-forward
    command the loop is the only thread that stores, it stores under a key
    only when its [Load] found none, and a goroutine deletes its own key
    only: a [Delete] that falls between the [Load] and the [close] or
    [Store] of a turn gives the state reached when it comes right after
    the turn, so the coarser steps reach the same states.  In the log
    reconciler the goroutines store as well: what is stated of a turn
    there is stated of a turn that no [Store] interrupts.

    Clients.  [clients.Execute] runs the function it is given once for
    each client, concurrently.  A state is that of one of these closures;
    what the closures of the other clients do to what [RunE] shares
    between them, the pool and [localPort], is a label of its own
    ([Elsewhere]).

    Readers.  [bufio.Scanner] is modelled by [Log.Scan]: a reader is the
    list of its lines, and the scanner yields them up to the first that
    does not fit its buffer. *)

From stdpp Require Import gmap strings list pretty.

Local Open Scope string_scope.

(** ** The cluster API objects the code inspects *)

Module K8s.

(** [watch.EventType] and its five constants. *)
Inductive EventType := Added | Modified | Deleted | Bookmark | Error.

(** [v1.PodPhase] and its five constants. *)
Inductive PodPhase :=
  PodPending | PodRunning | PodSucceeded | PodFailed | PodUnknown.

Record Container := { c_Name : string }.

(** The fields of [v1.Pod] that the reconcilers read:
    [pod.UID], [pod.Name], [pod.Namespace], [pod.Status.Phase],
    [pod.Spec.InitContainers], [pod.Spec.Containers]. *)
Record Pod := {
  UID : string;
  Name : string;
  Namespace : string;
  Phase : PodPhase;
  InitContainers : list Container;
  Containers : list Container
}.

(** [event.Object] is a [runtime.Object]; the code only asks whether it
    is a [*v1.Pod]. *)
Inductive Object := PodObject (pod : Pod) | OtherObject.

Record Event := { Type_ : EventType; Object_ : Object }.

#[global] Instance EventType_eq_dec : EqDecision EventType.
Proof. solve_decision. Defined.
#[global] Instance PodPhase_eq_dec : EqDecision PodPhase.
Proof. solve_decision. Defined.

(** [resource.WatchPods] either fails or yields a watcher whose
    [ResultChan] delivers these events, in order, and is then closed. *)
Inductive WatchResult :=
| WatchFails (err : string)
| Watching (events : list Event).

End K8s.
Import K8s.

(** ** Threads

    The loop that ranges over [podWatcher.ResultChan()], and the goroutines
    handed to [concurrent.Simple.Go], numbered in the order of the calls. *)

Inductive Actor := Consumer | Goroutine (i : nat).

#[global] Instance Actor_eq_dec : EqDecision Actor.
Proof. solve_decision. Defined.

(** ** Helpers of package [log] and [output] that the logger calls

    [regexp.Regexp.MatchString], [ColorOfJSON], [colorIsGreater], [Format]
    and [FormatGrep] are not part of the files embedded here: they are
    taken as parameters.  [Color] stands for [*color.Color], nil
    included. *)

Class LogHelpers := {
  Regexp : Type;
  Color : Type;
  MatchString : Regexp → string → bool;
  ColorOfJSON : string → list string → Color;
  colorIsGreater : Color → Color → bool;
  Format : string → Color → string;
  FormatGrep : string → Regexp → Color → string
}.

Module Log.
Section Logger.
Context `{LogHelpers}.

Record Logger := {
  selector : list (string * string);
  containerRegexp : option Regexp;
  logRegexp : option Regexp;
  colorFilter : Color;
  resourceType : string;
  resourceName : string;
  jsonColorKeys : list string;
  since : Z;
  rawOutput : bool;
  dryRun : bool;
  invertRegexp : bool
}.

(** What [outputLog] does, call by call: the helper calls it makes on a
    line and the calls on its [outputter]. *)
Inductive LogAction :=
| CallColorOfJSON (text : string)
| CallColorIsGreater (c : Color)
| CallMatchString (text : string)
| Info (msg : string)
| Std (msg : string).

(** The body of the [for streamScanner.Scan()] loop, for one line;
    [continue] ends the list. *)
Definition outputLog_line (l : Logger) (text : string) : list LogAction :=
  let colorOutputter := ColorOfJSON text (jsonColorKeys l) in
  CallColorOfJSON text :: CallColorIsGreater colorOutputter ::
  if colorIsGreater colorOutputter (colorFilter l) then []
  else
    match logRegexp l with
    | None => [Std (Format text colorOutputter)]
    | Some re =>
        let match_ := MatchString re text in
        CallMatchString text ::
        if (match_ && invertRegexp l) || (negb (invertRegexp l) && negb match_)
        then []
        else [Std (FormatGrep text re colorOutputter)]
    end.

Fixpoint outputLog_scan (l : Logger) (lines : list string) : list LogAction :=
  match lines with
  | [] => []
  | text :: rest => outputLog_line l text ++ outputLog_scan l rest
  end.

(** *** The line scanner

    [bufio.NewScanner(reader)] with [bufio.ScanLines] and the buffer a
    scanner has by default.  A reader is given by its lines: the bytes
    between one newline and the next.  [Scan] yields them one by one,
    each without the carriage return that may end it, and stops for good
    at the first line that does not fit, with its newline, in the buffer
    of [MaxScanTokenSize] bytes.  [outputLog] never asks the scanner for
    its error. *)
Definition MaxScanTokenSize : N := 65536.

Definition fits (line : string) : bool :=
  (N.of_nat (String.length line) <? MaxScanTokenSize)%N.

Fixpoint dropCR (line : string) : string :=
  match line with
  | EmptyString => EmptyString
  | String c rest =>
      match rest with
      | EmptyString => if Ascii.eqb c (Ascii.ascii_of_nat 13) then EmptyString else line
      | String _ _ => String c (dropCR rest)
      end
  end.

Fixpoint Scan (reader : list string) : list string :=
  match reader with
  | [] => []
  | line :: rest => if fits line then dropCR line :: Scan rest else []
  end.

(** [outputLog]: the loop runs on what the scanner yields from the
    reader.  The deferred [Info] runs when the function returns. *)
Definition outputLog (l : Logger) (reader : list string) : list LogAction :=
  if negb (rawOutput l)
  then Info "Log..." :: outputLog_scan l (Scan reader) ++ [Info "Log ended."]
  else outputLog_scan l (Scan reader).

(** *** The pipeline as the specification words it

    classify the line; drop it when it is below the threshold; then,
    with a pattern, emit iff (match and not invert) or (no match and
    invert); without a pattern, emit. *)
Definition spec_below_threshold (l : Logger) (text : string) : bool :=
  colorIsGreater (ColorOfJSON text (jsonColorKeys l)) (colorFilter l).

Definition spec_pattern_pass (l : Logger) (text : string) : bool :=
  match logRegexp l with
  | None => true
  | Some re =>
      let m := MatchString re text in
      (m && negb (invertRegexp l)) || (negb m && invertRegexp l)
  end.

Definition spec_emits (l : Logger) (text : string) : bool :=
  negb (spec_below_threshold l text) && spec_pattern_pass l text.

Definition spec_rendered (l : Logger) (text : string) : string :=
  let c := ColorOfJSON text (jsonColorKeys l) in
  match logRegexp l with
  | None => Format text c
  | Some re => FormatGrep text re c
  end.

Definition spec_classify (text : string) : list LogAction :=
  [CallColorOfJSON text].

Definition spec_threshold (l : Logger) (text : string) : list LogAction :=
  [CallColorIsGreater (ColorOfJSON text (jsonColorKeys l))].

Definition spec_pattern (l : Logger) (text : string) : list LogAction :=
  match logRegexp l with
  | None => []
  | Some _ => [CallMatchString text]
  end.

Definition spec_emit (l : Logger) (text : string) : list LogAction :=
  if spec_pattern_pass l text then [Std (spec_rendered l text)] else [].

Definition spec_pipeline (l : Logger) (text : string) : list LogAction :=
  spec_classify text ++ spec_threshold l text ++
  if spec_below_threshold l text then []
  else spec_pattern l text ++ spec_emit l text.

(** The lines handed to [outputter.Std]. *)
Definition emitted (acts : list LogAction) : list string :=
  omap (λ a, match a with Std s => Some s | _ => None end) acts.

(** *** The reconciler [Logger.Log] and its goroutines *)

(** Calls that leave a thread: on [kube], on the cluster API, inside
    [outputLog] with the outputter [kube.Child(rawOutput, prefix)], on
    [activeStreams], and of a [context.CancelFunc].  A cancel function
    is named by the index of the goroutine that created it. *)
Inductive Effect :=
| KubeInfo (msg : string)
| KubeErr (msg : string)
| GetLogs (namespace name container : string) (follow : bool) (sinceSeconds : Z)
| OutputLog (prefix : string) (a : LogAction)
| Store (uid : string) (streamCancel : nat)
| Delete (uid : string)
| CallCancel (streamCancel : nat)
| WatcherStop.

(** Where a goroutine given to [streaming.Go] stands: not yet run, blocked
    in [streamPod] after its [Store], or returned. *)
Inductive Pc := Spawned | Streaming | Finished.

#[global] Instance Pc_eq_dec : EqDecision Pc.
Proof. solve_decision. Defined.

Record Task := { t_pod : Pod; t_container : string; t_pc : Pc }.

Inductive Status := Looping | Waiting | Returned (err : option string).

Record State := {
  events : list Event;
  activeStreams : gmap string nat;
  cancelled : gset nat;
  streaming : list Task;
  trace : list (Actor * Effect);
  status : Status
}.

(** What the cluster answers to a [GetLogs] request: an error, or a
    reader with these lines, those received before the stream ended or
    broke ([closeErr] is the result of [stream.Close]). *)
Inductive Answer :=
| RequestFails (err : string)
| Reads (lines : list string) (closeErr : option string).

Inductive Label :=
| Recv
| Run (i : nat) (answer : Answer)
| WaitReturns.

Definition with_events (evs : list Event) (st : State) : State :=
  {| events := evs; activeStreams := activeStreams st;
     cancelled := cancelled st; streaming := streaming st;
     trace := trace st; status := status st |}.

Definition with_status (s : Status) (st : State) : State :=
  {| events := events st; activeStreams := activeStreams st;
     cancelled := cancelled st; streaming := streaming st;
     trace := trace st; status := s |}.

Definition emit (who : Actor) (effs : list Effect) (st : State) : State :=
  {| events := events st; activeStreams := activeStreams st;
     cancelled := cancelled st; streaming := streaming st;
     trace := trace st ++ ((λ e, (who, e)) <$> effs); status := status st |}.

(** [activeStreams.Store(uid, streamCancel)] *)
Definition store (who : Actor) (uid : string) (c : nat) (st : State) : State :=
  emit who [Store uid c]
    {| events := events st; activeStreams := <[uid := c]> (activeStreams st);
       cancelled := cancelled st; streaming := streaming st;
       trace := trace st; status := status st |}.

(** [activeStreams.Delete(uid)] *)
Definition delete_ (who : Actor) (uid : string) (st : State) : State :=
  emit who [Delete uid]
    {| events := events st; activeStreams := delete uid (activeStreams st);
       cancelled := cancelled st; streaming := streaming st;
       trace := trace st; status := status st |}.

(** Calling a [context.CancelFunc]; calling it again does nothing more. *)
Definition call_cancel (who : Actor) (c : nat) (st : State) : State :=
  emit who [CallCancel c]
    {| events := events st; activeStreams := activeStreams st;
       cancelled := {[c]} ∪ cancelled st; streaming := streaming st;
       trace := trace st; status := status st |}.

(** Modelled from the spec: [concurrent.Simple], of which only the calls
    [NewSimple], [Go] and [Wait] are in these files.  "only the session
    bodies run concurrently with each other and with the consumer loop":
    [streaming.Go(f)] adds one goroutine. *)
Definition Go (t : Task) (st : State) : State :=
  {| events := events st; activeStreams := activeStreams st;
     cancelled := cancelled st; streaming := streaming st ++ [t];
     trace := trace st; status := status st |}.

Definition set_pc (i : nat) (pc : Pc) (st : State) : State :=
  {| events := events st; activeStreams := activeStreams st;
     cancelled := cancelled st;
     streaming := alter (λ t, {| t_pod := t_pod t; t_container := t_container t;
                                 t_pc := pc |}) i (streaming st);
     trace := trace st; status := status st |}.

Definition isContainerSelected (l : Logger) (container : Container) : bool :=
  match containerRegexp l with
  | None => true
  | Some re => MatchString re (c_Name container)
  end.

(** [output.Green.Sprintf("[%s/%s]", name, container)], colour codes left out. *)
Definition podPrefix (name container : string) : string :=
  "[" ++ name ++ "/" ++ container ++ "]".

(** The [for _, container := range ...] loop of [handlePod]. *)
Fixpoint handlePod_range (l : Logger) (pod : Pod) (containers : list Container)
    (st : State) : State :=
  match containers with
  | [] => st
  | container :: rest =>
      handlePod_range l pod rest
        (if negb (isContainerSelected l container) then st
         else if dryRun l then
           emit Consumer
             [KubeInfo (podPrefix (Name pod) (c_Name container) ++ " Found!")] st
         else
           Go {| t_pod := pod; t_container := c_Name container;
                 t_pc := Spawned |} st)
  end.

Definition handlePod (l : Logger) (pod : Pod) (st : State) : State :=
  handlePod_range l pod (InitContainers pod ++ Containers pod) st.

Definition outputted (prefix : string) (acts : list LogAction) : list Effect :=
  OutputLog prefix <$> acts.

Definition logPod (l : Logger) (namespace name container : string)
    (answer : Answer) : list Effect :=
  GetLogs namespace name container false (since l) ::
  match answer with
  | RequestFails err => [KubeErr err]
  | Reads lines _ => outputted (podPrefix name container) (outputLog l lines)
  end.

Definition streamPod (l : Logger) (namespace name container : string)
    (answer : Answer) : list Effect :=
  GetLogs namespace name container true (since l) ::
  match answer with
  | RequestFails err => [KubeErr err]
  | Reads lines closeErr =>
      outputted (podPrefix name container) (outputLog l lines) ++
      match closeErr with
      | Some e => [KubeErr ("close stream: " ++ e)]
      | None => []
      end
  end.

(** The function handed to [streaming.Go], run up to its next blocking
    point: goroutine [i] is [t].  It blocks once, in [streamPod]; what
    [streamPod] did is put in the trace when it returns, and the deferred
    [streamCancel()] follows.  [answer] is not looked at by the step that
    ends with [Store]. *)
Definition goroutine (l : Logger) (i : nat) (t : Task) (answer : Answer)
    (st : State) : State :=
  let pod := t_pod t in
  match t_pc t with
  | Spawned =>
      if negb (bool_decide (Phase pod = PodRunning)) then
        set_pc i Finished
          (emit (Goroutine i)
             (logPod l (Namespace pod) (Name pod) (t_container t) answer) st)
      else
        set_pc i Streaming (store (Goroutine i) (UID pod) i st)
  | Streaming =>
      set_pc i Finished
        (call_cancel (Goroutine i) i
           (emit (Goroutine i)
              (streamPod l (Namespace pod) (Name pod) (t_container t) answer) st))
  | Finished => st
  end.

(** The body of [for event := range podWatcher.ResultChan()]. *)
Definition Log_event (l : Logger) (event : Event) (st : State) : State :=
  match Object_ event with
  | OtherObject => st
  | PodObject pod =>
      let streamCancel := activeStreams st !! UID pod in
      if bool_decide (Type_ event = Deleted) || bool_decide (Type_ event = Error)
         || bool_decide (Phase pod = PodSucceeded)
         || bool_decide (Phase pod = PodFailed)
      then
        match streamCancel with
        | Some c => delete_ Consumer (UID pod) (call_cancel Consumer c st)
        | None =>
            if bool_decide (Phase pod = PodSucceeded)
               || bool_decide (Phase pod = PodFailed)
            then handlePod l pod st
            else st
        end
      else if bool_decide (is_Some streamCancel)
              || bool_decide (Phase pod = PodPending)
      then st
      else handlePod l pod st
  end.

(** Modelled from the spec: [concurrent.Simple.Wait], "blocks until all
    have signaled completion before returning": it returns once every
    goroutine given to [Go] has returned. *)
Definition all_finished (st : State) : bool :=
  forallb (λ t, bool_decide (t_pc t = Finished)) (streaming st).

(** One scheduling step.  [Recv] is one turn of the consumer loop, or its
    exit once the channel is closed; [WaitReturns] is the return of
    [streaming.Wait()], which blocks until every goroutine given to
    [streaming.Go] has returned.  A label that cannot run leaves the state
    as it is. *)
Definition step (l : Logger) (lbl : Label) (st : State) : State :=
  match lbl with
  | Recv =>
      match status st with
      | Looping =>
          match events st with
          | [] => with_status Waiting st
          | event :: rest => Log_event l event (with_events rest st)
          end
      | _ => st
      end
  | Run i answer =>
      match streaming st !! i with
      | Some t => goroutine l i t answer st
      | None => st
      end
  | WaitReturns =>
      match status st with
      | Waiting =>
          if all_finished st
          then with_status (Returned None) (emit Consumer [WatcherStop] st)
          else st
      | _ => st
      end
  end.

(** [Logger.Log] up to its first scheduling point. *)
Definition Log (w : WatchResult) : State :=
  match w with
  | WatchFails err =>
      {| events := []; activeStreams := ∅; cancelled := ∅; streaming := [];
         trace := []; status := Returned (Some ("watch pods: " ++ err)) |}
  | Watching evs =>
      {| events := evs; activeStreams := ∅; cancelled := ∅; streaming := [];
         trace := []; status := Looping |}
  end.

Definition run (l : Logger) (lbls : list Label) (st : State) : State :=
  foldl (λ s lbl, step l lbl s) st lbls.

Inductive reachable (l : Logger) (w : WatchResult) : State → Prop :=
| reachable_start : reachable l w (Log w)
| reachable_step st lbl :
    reachable l w st → reachable l w (step l lbl st).

(** Goroutines of pod [uid] that have not returned. *)
Definition live (uid : string) (st : State) : list Task :=
  filter (λ t, UID (t_pod t) = uid ∧ t_pc t ≠ Finished) (streaming st).

Definition effects_of (who : Actor) (tr : list (Actor * Effect)) : list Effect :=
  snd <$> filter (λ x, x.1 = who) tr.

(** The goroutines [handlePod] starts for a pod: one for each selected
    container, init containers first; none in a dry run. *)
Definition sessions_for (l : Logger) (pod : Pod) : list Task :=
  if dryRun l then []
  else
    (λ container, {| t_pod := pod; t_container := c_Name container;
                     t_pc := Spawned |})
    <$> filter (λ container, isContainerSelected l container = true)
          (InitContainers pod ++ Containers pod)%list.

Definition finished (st : State) : Prop :=
  ∀ i t, streaming st !! i = Some t → t_pc t = Finished.

Definition Settled (w : WatchResult) (st : State) : Prop :=
  match w with
  | WatchFails _ => st = Log w
  | Watching _ => ∀ r, status st = Returned r → r = None ∧ finished st
  end.

(** Where a goroutine stands after it has run once more. *)
Definition next_pc (t : Task) : Pc :=
  match t_pc t with
  | Spawned =>
      if bool_decide (Phase (t_pod t) = PodRunning) then Streaming else Finished
  | Streaming | Finished => Finished
  end.

Definition at_pc (pc : Pc) (t : Task) : Task :=
  {| t_pod := t_pod t; t_container := t_container t; t_pc := pc |}.

(** A stream that ends at once. *)
Definition nothing : Answer := Reads [] None.

(** *** The options of a [Logger]: each [With...] returns a copy with one
    field changed. *)
Definition WithDryRun (l : Logger) (dryRun_ : bool) : Logger :=
  {| selector := selector l; containerRegexp := containerRegexp l;
     logRegexp := logRegexp l; colorFilter := colorFilter l;
     resourceType := resourceType l; resourceName := resourceName l;
     jsonColorKeys := jsonColorKeys l; since := since l;
     rawOutput := rawOutput l; dryRun := dryRun_;
     invertRegexp := invertRegexp l |}.

Definition WithContainerRegexp (l : Logger) (containerRegexp_ : option Regexp) : Logger :=
  {| selector := selector l; containerRegexp := containerRegexp_;
     logRegexp := logRegexp l; colorFilter := colorFilter l;
     resourceType := resourceType l; resourceName := resourceName l;
     jsonColorKeys := jsonColorKeys l; since := since l;
     rawOutput := rawOutput l; dryRun := dryRun l;
     invertRegexp := invertRegexp l |}.

Definition WithLogRegexp (l : Logger) (logRegexp_ : option Regexp) : Logger :=
  {| selector := selector l; containerRegexp := containerRegexp l;
     logRegexp := logRegexp_; colorFilter := colorFilter l;
     resourceType := resourceType l; resourceName := resourceName l;
     jsonColorKeys := jsonColorKeys l; since := since l;
     rawOutput := rawOutput l; dryRun := dryRun l;
     invertRegexp := invertRegexp l |}.

Definition WithInvertRegexp (l : Logger) (invertRegexp_ : bool) : Logger :=
  {| selector := selector l; containerRegexp := containerRegexp l;
     logRegexp := logRegexp l; colorFilter := colorFilter l;
     resourceType := resourceType l; resourceName := resourceName l;
     jsonColorKeys := jsonColorKeys l; since := since l;
     rawOutput := rawOutput l; dryRun := dryRun l;
     invertRegexp := invertRegexp_ |}.

Definition WithColorFilter (l : Logger) (colorFilter_ : Color) : Logger :=
  {| selector := selector l; containerRegexp := containerRegexp l;
     logRegexp := logRegexp l; colorFilter := colorFilter_;
     resourceType := resourceType l; resourceName := resourceName l;
     jsonColorKeys := jsonColorKeys l; since := since l;
     rawOutput := rawOutput l; dryRun := dryRun l;
     invertRegexp := invertRegexp l |}.

Definition WithJsonColorKeys (l : Logger) (jsonColorKeys_ : list string) : Logger :=
  {| selector := selector l; containerRegexp := containerRegexp l;
     logRegexp := logRegexp l; colorFilter := colorFilter l;
     resourceType := resourceType l; resourceName := resourceName l;
     jsonColorKeys := jsonColorKeys_; since := since l;
     rawOutput := rawOutput l; dryRun := dryRun l;
     invertRegexp := invertRegexp l |}.

Definition WithRawOutput (l : Logger) (rawOutput_ : bool) : Logger :=
  {| selector := selector l; containerRegexp := containerRegexp l;
     logRegexp := logRegexp l; colorFilter := colorFilter l;
     resourceType := resourceType l; resourceName := resourceName l;
     jsonColorKeys := jsonColorKeys l; since := since l;
     rawOutput := rawOutput_; dryRun := dryRun l;
     invertRegexp := invertRegexp l |}.

(** The [Found!] lines of one pod: one for each selected container. *)
Definition found_lines (l : Logger) (pod : Pod) : list Effect :=
  (λ container, KubeInfo (podPrefix (Name pod) (c_Name container) ++ " Found!"))
  <$> filter (λ container, isContainerSelected l container = true)
        (InitContainers pod ++ Containers pod)%list.

(** The events for which the loop body, with nothing in the map, reaches
    [handlePod]: a pod in phase [Succeeded] or [Failed], whatever the
    event; a pod in another phase than [Pending] when the event is neither
    [Deleted] nor [Error]. *)
Definition reaches_handlePod (event : Event) : option Pod :=
  match Object_ event with
  | OtherObject => None
  | PodObject pod =>
      if bool_decide (Phase pod = PodSucceeded) || bool_decide (Phase pod = PodFailed)
      then Some pod
      else if bool_decide (Type_ event = Deleted) || bool_decide (Type_ event = Error)
              || bool_decide (Phase pod = PodPending)
      then None
      else Some pod
  end.

Definition dry_found (l : Logger) (event : Event) : list Effect :=
  match reaches_handlePod event with
  | Some pod => found_lines l pod
  | None => []
  end.

(** What the entries of [activeStreams] and the called cancel functions
    are, and that a returned session has cancelled its context. *)
Record Inv (st : State) : Prop := {
  inv_tracked : ∀ u c,
    activeStreams st !! u = Some c →
    ∃ t, streaming st !! c = Some t ∧ UID (t_pod t) = u
         ∧ Phase (t_pod t) = PodRunning ∧ t_pc t ≠ Spawned;
  inv_cancelled : ∀ c,
    c ∈ cancelled st →
    ∃ t, streaming st !! c = Some t
         ∧ Phase (t_pod t) = PodRunning ∧ t_pc t ≠ Spawned;
  inv_streaming : ∀ i t,
    streaming st !! i = Some t → t_pc t = Streaming →
    Phase (t_pod t) = PodRunning;
  inv_returned : ∀ i t,
    streaming st !! i = Some t → t_pc t = Finished →
    Phase (t_pod t) = PodRunning → i ∈ cancelled st
}.

(** A step in which goroutine [n] does not run. *)
Definition avoids (n : nat) (lbl : Label) : bool :=
  match lbl with
  | Run i _ => negb (Nat.eqb i n)
  | Recv | WaitReturns => true
  end.

(** Goroutine [n] is [t] and follows its stream; its cancel function has
    not been called and is not in the map; [Log] has not returned. *)
Definition Orphan (n : nat) (t : Task) (st : State) : Prop :=
  streaming st !! n = Some t ∧ t_pc t = Streaming
  ∧ (n ∉ cancelled st)
  ∧ (∀ u, activeStreams st !! u ≠ Some n)
  ∧ (∀ r, status st ≠ Returned r).

End Logger.
End Log.

(** ** The [port-forward] command *)

Module Forward.

(** Calls that leave a thread: on [kube] and [output], on
    [activeForwarding], on the pool, on the cluster API, and [close] of a
    stop channel.  A stop channel is named by the index of the goroutine
    it was made for. *)
Inductive Effect :=
| KubeInfo (msg : string)
| KubeWarn (msg : string)
| KubeErr (msg : string)
| OutputErr (msg : string)
| Store (uid : string) (stopChan : nat)
| Delete (uid : string)
| Close (stopChan : nat)
| PoolAdd (backend : string)
| PoolRemove (backend : string)
| PortForward (path : string) (ports : string)
| WatcherStop.

(** Where a goroutine given to [forwarding.Go] stands: not yet run,
    blocked in [listenPortForward] with its local port, or returned. *)
Inductive Pc := Spawned | Forwarding (port : N) | Finished.

#[global] Instance Pc_eq_dec : EqDecision Pc.
Proof. solve_decision. Defined.

Record Task := { t_pod : Pod; t_pc : Pc }.

(** [Panicked]: the consumer closed a closed channel; the process is
    gone. *)
Inductive Status :=
  Looping | Waiting | Returned (err : option string) | Panicked (msg : string).

Record State := {
  events : list Event;
  activeForwarding : gmap string nat;
  closed : gset nat;
  forwarding : list Task;
  pool : list string;
  trace : list (Actor * Effect);
  status : Status
}.

(** What the operating system answers inside [GetFreePort]. *)
Inductive NetAnswer :=
| ResolveFails (err : string)
| ListenFails (err : string)
| Listens (port : N) (closeErr : option string).

(** How [listenPortForward] ends. *)
Inductive TunnelAnswer :=
| TransportFails (err : string)
| DialFails (err : string)
| ForwardPortsReturns (err : option string).

Inductive Answer :=
| FreePort (a : NetAnswer)
| Tunnel (a : TunnelAnswer).

(** [Elsewhere]: [clients.Execute] runs the closure once for each client,
    and the pool, made once in [RunE], is shared by all of them; a
    goroutine of the closure run for another client calls [pool.Add]
    ([add]) or [pool.Remove] with its own backend. *)
Inductive Label :=
| Recv
| Run (i : nat) (answer : Answer)
| WaitReturns
| Elsewhere (add : bool) (backend : string).

Definition with_events (evs : list Event) (st : State) : State :=
  {| events := evs; activeForwarding := activeForwarding st;
     closed := closed st; forwarding := forwarding st; pool := pool st;
     trace := trace st; status := status st |}.

Definition with_pool (backends : list string) (st : State) : State :=
  {| events := events st; activeForwarding := activeForwarding st;
     closed := closed st; forwarding := forwarding st; pool := backends;
     trace := trace st; status := status st |}.

Definition with_status (s : Status) (st : State) : State :=
  {| events := events st; activeForwarding := activeForwarding st;
     closed := closed st; forwarding := forwarding st; pool := pool st;
     trace := trace st; status := s |}.

Definition emit (who : Actor) (effs : list Effect) (st : State) : State :=
  {| events := events st; activeForwarding := activeForwarding st;
     closed := closed st; forwarding := forwarding st; pool := pool st;
     trace := trace st ++ ((λ e, (who, e)) <$> effs); status := status st |}.

(** [activeForwarding.Store(uid, stopChan)] *)
Definition store (who : Actor) (uid : string) (c : nat) (st : State) : State :=
  emit who [Store uid c]
    {| events := events st; activeForwarding := <[uid := c]> (activeForwarding st);
       closed := closed st; forwarding := forwarding st; pool := pool st;
       trace := trace st; status := status st |}.

(** [activeForwarding.Delete(uid)] *)
Definition delete_ (who : Actor) (uid : string) (st : State) : State :=
  emit who [Delete uid]
    {| events := events st; activeForwarding := delete uid (activeForwarding st);
       closed := closed st; forwarding := forwarding st; pool := pool st;
       trace := trace st; status := status st |}.

(** A panic in the consumer loop: the closure unwinds, its deferred
    [podWatcher.Stop()] runs, and the program ends. *)
Definition panic (msg : string) (st : State) : State :=
  with_status (Panicked msg) (emit Consumer [WatcherStop] st).

(** [close(stopChan)]: closing a closed channel panics. *)
Definition close (who : Actor) (c : nat) (st : State) : State :=
  match status st with
  | Panicked _ => st
  | _ =>
      if bool_decide (c ∈ closed st)
      then panic "close of closed channel" st
      else
        emit who [Close c]
          {| events := events st; activeForwarding := activeForwarding st;
             closed := {[c]} ∪ closed st; forwarding := forwarding st;
             pool := pool st; trace := trace st; status := status st |}
  end.

(** Modelled from the spec: [tcpool.Pool], of which only the calls are
    in these files.  "backed by a concurrently-mutable set of backend
    addresses" with [Add(address)] and [Remove(address)]. *)
Definition pool_Add (who : Actor) (backend : string) (st : State) : State :=
  emit who [PoolAdd backend]
    {| events := events st; activeForwarding := activeForwarding st;
       closed := closed st; forwarding := forwarding st;
       pool := pool st ++ [backend]; trace := trace st; status := status st |}.

Definition pool_Remove (who : Actor) (backend : string) (st : State) : State :=
  emit who [PoolRemove backend]
    {| events := events st; activeForwarding := activeForwarding st;
       closed := closed st; forwarding := forwarding st;
       pool := filter (λ b, b ≠ backend) (pool st);
       trace := trace st; status := status st |}.

(** Modelled from the spec: [concurrent.Simple], of which only the calls
    [NewSimple], [Go] and [Wait] are in these files.  "only the session
    bodies run concurrently with each other and with the consumer loop":
    [forwarding.Go(f)] adds one goroutine. *)
Definition Go (t : Task) (st : State) : State :=
  {| events := events st; activeForwarding := activeForwarding st;
     closed := closed st; forwarding := forwarding st ++ [t]; pool := pool st;
     trace := trace st; status := status st |}.

Definition set_pc (i : nat) (pc : Pc) (st : State) : State :=
  {| events := events st; activeForwarding := activeForwarding st;
     closed := closed st;
     forwarding := alter (λ t, {| t_pod := t_pod t; t_pc := pc |}) i (forwarding st);
     pool := pool st; trace := trace st; status := status st |}.

(** [GetFreePort]: the effects and the [(uint64, error)] it returns.
    When closing the listener fails the code prints [err], which is nil
    there, not [closeErr]. *)
Definition GetFreePort (a : NetAnswer) : list Effect * (string + N) :=
  match a with
  | ResolveFails err => ([], inl err)
  | ListenFails err => ([], inl ("listen tcp: " ++ err))
  | Listens port None => ([], inr port)
  | Listens port (Some _) =>
      ([OutputErr "close free port listener: %!s(<nil>)"], inr port)
  end.

(** [listenPortForward]: the request it makes and the error it returns. *)
Definition listenPortForward (pod : Pod) (stopChan : nat) (localPort podPort : N)
    (a : TunnelAnswer) : list Effect * option string :=
  let path := "/api/v1/namespaces/" ++ Namespace pod ++ "/pods/" ++ Name pod
              ++ "/portforward" in
  match a with
  | TransportFails err => ([], Some ("transport: " ++ err))
  | DialFails err => ([], Some ("dial: " ++ err))
  | ForwardPortsReturns err =>
      ([PortForward path (pretty localPort ++ ":" ++ pretty podPort)], err)
  end.

Definition backendOf (port : N) : string := "127.0.0.1:" ++ pretty port.

(** The function handed to [forwarding.Go] by [handleForwardPod], run
    up to its next blocking point.  It blocks once, in
    [listenPortForward]; what that call did is put in the trace when it
    returns.  The deferred calls run last in, first out: [pool.Remove],
    [kube.Warn], [activeForwarding.Delete].  The pool and the map are
    independent, so the three are taken in one step. *)
Definition goroutine (remotePort : N) (i : nat) (t : Task) (answer : Answer)
    (st : State) : State :=
  let pod := t_pod t in
  let me := Goroutine i in
  match t_pc t, answer with
  | Spawned, FreePort a =>
      match GetFreePort a with
      | (effs, inl err) =>
          set_pc i Finished
            (delete_ me (UID pod)
               (emit me (effs ++ [KubeErr ("get free port: " ++ err)]) st))
      | (effs, inr port) =>
          set_pc i (Forwarding port)
            (pool_Add me (backendOf port)
               (emit me (effs ++ [KubeWarn ("Forwarding to " ++ Name pod ++ "...")])
                  st))
      end
  | Forwarding port, Tunnel a =>
      let '(effs, err) := listenPortForward pod i port remotePort a in
      set_pc i Finished
        (delete_ me (UID pod)
           (emit me [KubeWarn ("Forwarding to " ++ Name pod ++ " ended.")]
              (pool_Remove me (backendOf port)
                 (emit me
                    (effs ++
                     match err with
                     | Some e =>
                         [KubeErr ("Port-forward for " ++ Name pod
                                   ++ " failed: " ++ e)]
                     | None => []
                     end) st))))
  | _, _ => st
  end.

(** [handleForwardPod]: a new stop channel, stored before the goroutine
    is started. *)
Definition handleForwardPod (pod : Pod) (st : State) : State :=
  let stopChan := length (forwarding st) in
  Go {| t_pod := pod; t_pc := Spawned |} (store Consumer (UID pod) stopChan st).

(** The body of [for event := range podWatcher.ResultChan()]. *)
Definition RunE_event (event : Event) (st : State) : State :=
  match Object_ event with
  | OtherObject => st
  | PodObject pod =>
      let forwardStop := activeForwarding st !! UID pod in
      if bool_decide (Type_ event = Deleted)
         || bool_decide (Phase pod = PodSucceeded)
         || bool_decide (Phase pod = PodFailed)
      then
        match forwardStop with
        | Some c => close Consumer c st
        | None => st
        end
      else if bool_decide (is_Some forwardStop)
              || negb (bool_decide (Phase pod = PodRunning))
      then st
      else handleForwardPod pod st
  end.

(** [activeForwarding.Range(...)]: every stored channel is closed. *)
Definition Range_close (st : State) : State :=
  foldr (λ kv s, close Consumer kv.2 s) st (map_to_list (activeForwarding st)).

(** Modelled from the spec: [concurrent.Simple.Wait], "blocks until all
    have signaled completion before returning": it returns once every
    goroutine given to [Go] has returned. *)
Definition all_finished (st : State) : bool :=
  forallb (λ t, bool_decide (t_pc t = Finished)) (forwarding st).

Definition panicked (st : State) : bool :=
  match status st with Panicked _ => true | _ => false end.

(** One scheduling step.  [Recv] is one turn of the consumer loop, or,
    once the channel is closed, its exit through [Range]; [WaitReturns]
    is the return of [forwarding.Wait()], which blocks until every
    goroutine given to [forwarding.Go] has returned; [Elsewhere] is a
    call on the pool by the closure of another client.  Nothing runs
    after a panic; a label that cannot run leaves the state as it is, and
    the state of a closure that has returned is the one it returned
    in. *)
Definition step (remotePort : N) (lbl : Label) (st : State) : State :=
  if panicked st then st else
  match lbl with
  | Recv =>
      match status st with
      | Looping =>
          match events st with
          | [] =>
              let st' := Range_close st in
              if panicked st' then st' else with_status Waiting st'
          | event :: rest => RunE_event event (with_events rest st)
          end
      | _ => st
      end
  | Run i answer =>
      match forwarding st !! i with
      | Some t => goroutine remotePort i t answer st
      | None => st
      end
  | WaitReturns =>
      match status st with
      | Waiting =>
          if all_finished st
          then with_status (Returned None) (emit Consumer [WatcherStop] st)
          else st
      | _ => st
      end
  | Elsewhere add backend =>
      match status st with
      | Returned _ => st
      | _ =>
          with_pool
            (if add then pool st ++ [backend]
             else filter (λ b, b ≠ backend) (pool st)) st
      end
  end.

(** The function [RunE] gives to [clients.Execute], up to its first
    scheduling point, for one of the clients; the pool is the one [RunE]
    has just made. *)
Definition RunE (w : WatchResult) : State :=
  match w with
  | WatchFails err =>
      {| events := []; activeForwarding := ∅; closed := ∅; forwarding := [];
         pool := []; trace := []; status := Returned (Some err) |}
  | Watching evs =>
      {| events := evs; activeForwarding := ∅; closed := ∅; forwarding := [];
         pool := []; trace := []; status := Looping |}
  end.

Definition run (remotePort : N) (lbls : list Label) (st : State) : State :=
  foldl (λ s lbl, step remotePort lbl s) st lbls.

Inductive reachable (remotePort : N) (w : WatchResult) : State → Prop :=
| reachable_start : reachable remotePort w (RunE w)
| reachable_step st lbl :
    reachable remotePort w st → reachable remotePort w (step remotePort lbl st).

(** The steps of this closure: a run of these only is a run of [RunE]
    for one client. *)
Definition own (lbl : Label) : bool :=
  match lbl with Elsewhere _ _ => false | _ => true end.

Definition effects_of (who : Actor) (tr : list (Actor * Effect)) : list Effect :=
  snd <$> filter (λ x, x.1 = who) tr.

(** The calls a goroutine made on the pool, and on [activeForwarding]. *)
Definition is_pool_call (e : Effect) : bool :=
  match e with PoolAdd _ | PoolRemove _ => true | _ => false end.

Definition is_map_call (e : Effect) : bool :=
  match e with Store _ _ | Delete _ => true | _ => false end.

Definition pool_calls (effs : list Effect) : list Effect :=
  filter (λ e, is_pool_call e = true) effs.

Definition map_calls (effs : list Effect) : list Effect :=
  filter (λ e, is_map_call e = true) effs.

(** *** The variant of [handleForwardPod] with one local port per pod

    The other [port-forward] file has no pool: the consumer loop is
    the same but for [localPort += 1] before the call, and the
    goroutine forwards from that port.  Its body, start to return: *)
Definition fixed_port_goroutine (pod : Pod) (stopChan : nat)
    (localPort remotePort : N) (a : TunnelAnswer) : list Effect :=
  let '(effs, err) := listenPortForward pod stopChan localPort remotePort a in
  let arrow := "127.0.0.1:" ++ pretty localPort ++ " => " ++ Name pod ++ ":"
               ++ pretty remotePort in
  ([KubeInfo ("Starting port-forward " ++ arrow)]
   ++ effs
   ++ match err with
      | Some e => [KubeErr ("Port-forward for " ++ Name pod ++ " failed: " ++ e)]
      | None => []
      end
   ++ [KubeWarn ("Port-forward " ++ arrow ++ " ended."); Delete (UID pod)])%list.

(** Every entry of [activeForwarding] is the stop channel of a goroutine
    of that pod that has not returned, and every such goroutine has its
    channel in the map. *)
Record Inv (st : State) : Prop := {
  inv_tracked : ∀ u c,
    activeForwarding st !! u = Some c →
    ∃ t, forwarding st !! c = Some t ∧ UID (t_pod t) = u ∧ t_pc t ≠ Finished;
  inv_live : ∀ i t,
    forwarding st !! i = Some t → t_pc t ≠ Finished →
    activeForwarding st !! UID (t_pod t) = Some i
}.

(** What goroutine [i] of pod [uid] has done on the pool and on the map
    when it stands at [pc]: nothing before it runs; one [Add] while it
    forwards; once returned, either no pool call at all or the [Add] and
    the [Remove] of the same backend, and one [Delete] of its pod's
    entry, which is the last thing it did. *)
Definition session_calls (uid : string) (pc : Pc) (effs : list Effect) : Prop :=
  match pc with
  | Spawned => effs = []
  | Forwarding port =>
      pool_calls effs = [PoolAdd (backendOf port)] ∧ map_calls effs = []
  | Finished =>
      (pool_calls effs = []
       ∨ ∃ port, pool_calls effs
                 = [PoolAdd (backendOf port); PoolRemove (backendOf port)])
      ∧ map_calls effs = [Delete uid]
      ∧ last effs = Some (Delete uid)
  end.

Definition finished (st : State) : Prop :=
  ∀ i t, forwarding st !! i = Some t → t_pc t = Finished.

(** Every goroutine in the trace has made the calls of [session_calls];
    a goroutine not yet started has made none. *)
Definition Calls (st : State) : Prop :=
  (∀ i t, forwarding st !! i = Some t →
          session_calls (UID (t_pod t)) (t_pc t)
            (effects_of (Goroutine i) (trace st)))
  ∧ (∀ i, (length (forwarding st) ≤ i)%nat →
          effects_of (Goroutine i) (trace st) = []).

(** What holds once the function has returned: after a failed watch
    nothing ever ran; otherwise the result is nil and every goroutine has
    returned. *)
Definition Settled (w : WatchResult) (st : State) : Prop :=
  match w with
  | WatchFails _ => st = RunE w
  | Watching _ => ∀ r, status st = Returned r → r = None ∧ finished st
  end.

(** A closed channel is the channel of a goroutine that was started. *)
Definition Started (st : State) : Prop :=
  ∀ c, c ∈ closed st → (c < length (forwarding st))%nat.


(** Every address in the pool is the backend of a goroutine that is
    forwarding, or one of [others], the addresses that the closures of
    the other clients have added. *)
Definition Pool_owned (others : string → Prop) (st : State) : Prop :=
  ∀ b, b ∈ pool st →
       others b
       ∨ ∃ i t port, forwarding st !! i = Some t ∧ t_pc t = Forwarding port
                     ∧ b = backendOf port.

End Forward.

(** ** Concrete pods, events and helpers used to run the models *)

Module Fixture.

(** Stand-ins for the helpers: a pattern matches the lines that contain
    it, the colour of a line is its length, and a colour is above the
    filter when the number is larger. *)
Definition contains (needle hay : string) : bool :=
  match String.index 0 needle hay with Some _ => true | None => false end.

#[global] Instance helpers : LogHelpers := {|
  Regexp := string;
  Color := nat;
  MatchString re text := contains re text;
  ColorOfJSON text _ := String.length text;
  colorIsGreater c filter := bool_decide (filter < c);
  Format text _ := text;
  FormatGrep text _ _ := text
|}.

Definition logger : Log.Logger := {|
  Log.selector := [];
  Log.containerRegexp := None;
  Log.logRegexp := None;
  Log.colorFilter := 80;
  Log.resourceType := "deployment";
  Log.resourceName := "web";
  Log.jsonColorKeys := [];
  Log.since := 3600;
  Log.rawOutput := true;
  Log.dryRun := false;
  Log.invertRegexp := false
|}.

Definition pod (phase : PodPhase) : Pod := {|
  UID := "u1";
  Name := "web-0";
  Namespace := "default";
  Phase := phase;
  InitContainers := [];
  Containers := [{| c_Name := "app" |}]
|}.

Definition on (type : EventType) (phase : PodPhase) : Event :=
  {| Type_ := type; Object_ := PodObject (pod phase) |}.

Definition status_event : Event :=
  {| Type_ := Error; Object_ := OtherObject |}.

(** A line of 70000 bytes. *)
Definition long_line : string := N.iter 70000 (String.append "z") "".

(** A pod with two containers. *)
Definition pod2 (phase : PodPhase) : Pod := {|
  UID := "u2";
  Name := "job-7";
  Namespace := "default";
  Phase := phase;
  InitContainers := [{| c_Name := "init" |}];
  Containers := [{| c_Name := "main" |}]
|}.

Definition on2 (type : EventType) (phase : PodPhase) : Event :=
  {| Type_ := type; Object_ := PodObject (pod2 phase) |}.

End Fixture.

(** ** The port-forward command with one local port per pod

    The older [port-forward] command (src/unnamed/part_000) takes a
    local port on its command line.  Its consumer loop is that of
    [Forward], with [localPort += 1] before each [handleForwardPod];
    the goroutine forwards from the port it was given, and there is no
    pool.  [localPort] is a variable of [RunE]: the closures that
    [clients.Execute] runs for the clients share it, and none of them
    synchronises its accesses.  Effects, answers and status are those of
    [Forward]. *)

Module FixedPort.

(** [localPort] is a [uint64]. *)
Definition uint64 (n : N) : N := (n mod 2 ^ 64)%N.

(** Where a goroutine is: not yet run, blocked in [listenPortForward],
    or returned. *)
Inductive Pc := Spawned | Forwarding | Finished.

(** What the function given to [forwarding.Go] has captured. *)
Record Task := { t_pod : Pod; t_localPort : N; t_pc : Pc }.

Record State := {
  events : list Event;
  localPort : N;
  activeForwarding : gmap string nat;
  closed : gset nat;
  forwarding : list Task;
  trace : list (Actor * Forward.Effect);
  status : Forward.Status
}.

(** [Elsewhere p]: the closure run for another client stores [p] in
    [localPort], by its own [localPort += 1].  [Recv (Some p)]: such a
    store falls, in this turn of the loop, between [localPort += 1] and
    the reading of [localPort] for the call of [handleForwardPod]. *)
Inductive Label :=
| Recv (between : option N)
| Run (i : nat) (answer : Forward.TunnelAnswer)
| WaitReturns
| Elsewhere (p : N).

Definition with_events (evs : list Event) (st : State) : State :=
  {| events := evs; localPort := localPort st;
     activeForwarding := activeForwarding st; closed := closed st;
     forwarding := forwarding st; trace := trace st; status := status st |}.

Definition with_status (s : Forward.Status) (st : State) : State :=
  {| events := events st; localPort := localPort st;
     activeForwarding := activeForwarding st; closed := closed st;
     forwarding := forwarding st; trace := trace st; status := s |}.

Definition with_localPort (p : N) (st : State) : State :=
  {| events := events st; localPort := p;
     activeForwarding := activeForwarding st; closed := closed st;
     forwarding := forwarding st; trace := trace st; status := status st |}.

Definition emit (who : Actor) (effs : list Forward.Effect) (st : State) : State :=
  {| events := events st; localPort := localPort st;
     activeForwarding := activeForwarding st; closed := closed st;
     forwarding := forwarding st;
     trace := trace st ++ ((λ e, (who, e)) <$> effs); status := status st |}.

(** [activeForwarding.Store(uid, stopChan)] *)
Definition store (who : Actor) (uid : string) (c : nat) (st : State) : State :=
  emit who [Forward.Store uid c]
    {| events := events st; localPort := localPort st;
       activeForwarding := <[uid := c]> (activeForwarding st);
       closed := closed st; forwarding := forwarding st; trace := trace st;
       status := status st |}.

(** [activeForwarding.Delete(uid)] *)
Definition delete_ (who : Actor) (uid : string) (st : State) : State :=
  emit who [Forward.Delete uid]
    {| events := events st; localPort := localPort st;
       activeForwarding := delete uid (activeForwarding st);
       closed := closed st; forwarding := forwarding st; trace := trace st;
       status := status st |}.

(** A panic in the consumer loop: the closure unwinds, its deferred
    [podWatcher.Stop()] runs, and the program ends. *)
Definition panic (msg : string) (st : State) : State :=
  with_status (Forward.Panicked msg) (emit Consumer [Forward.WatcherStop] st).

(** [close(stopChan)]: closing a closed channel panics. *)
Definition close (who : Actor) (c : nat) (st : State) : State :=
  match status st with
  | Forward.Panicked _ => st
  | _ =>
      if bool_decide (c ∈ closed st)
      then panic "close of closed channel" st
      else
        emit who [Forward.Close c]
          {| events := events st; localPort := localPort st;
             activeForwarding := activeForwarding st;
             closed := {[c]} ∪ closed st; forwarding := forwarding st;
             trace := trace st; status := status st |}
  end.

(** Modelled from the spec: [concurrent.Simple.Go], as in [Forward]. *)
Definition Go (t : Task) (st : State) : State :=
  {| events := events st; localPort := localPort st;
     activeForwarding := activeForwarding st; closed := closed st;
     forwarding := forwarding st ++ [t]; trace := trace st;
     status := status st |}.

Definition set_pc (i : nat) (pc : Pc) (st : State) : State :=
  {| events := events st; localPort := localPort st;
     activeForwarding := activeForwarding st; closed := closed st;
     forwarding :=
       alter (λ t, {| t_pod := t_pod t; t_localPort := t_localPort t;
                      t_pc := pc |}) i (forwarding st);
     trace := trace st; status := status st |}.

Definition arrow (pod : Pod) (localPort remotePort : N) : string :=
  "127.0.0.1:" ++ pretty localPort ++ " => " ++ Name pod ++ ":"
  ++ pretty remotePort.

(** The function handed to [forwarding.Go], run up to its next blocking
    point: it prints that it starts, blocks in [listenPortForward], and
    on return reports the error, then runs its deferred [kube.Warn] and
    [activeForwarding.Delete]. *)
Definition goroutine (remotePort : N) (i : nat) (t : Task)
    (answer : Forward.TunnelAnswer) (st : State) : State :=
  let pod := t_pod t in
  let me := Goroutine i in
  match t_pc t with
  | Spawned =>
      set_pc i Forwarding
        (emit me
           [Forward.KubeInfo
              ("Starting port-forward " ++ arrow pod (t_localPort t) remotePort)]
           st)
  | Forwarding =>
      let '(effs, err) :=
        Forward.listenPortForward pod i (t_localPort t) remotePort answer in
      set_pc i Finished
        (delete_ me (UID pod)
           (emit me
              (effs
               ++ match err with
                  | Some e =>
                      [Forward.KubeErr ("Port-forward for " ++ Name pod
                                        ++ " failed: " ++ e)]
                  | None => []
                  end
               ++ [Forward.KubeWarn
                     ("Port-forward " ++ arrow pod (t_localPort t) remotePort
                      ++ " ended.")])
              st))
  | Finished => st
  end.

(** [handleForwardPod]: a new stop channel, stored before the goroutine
    is started with the local port it is to forward. *)
Definition handleForwardPod (pod : Pod) (localPort : N) (st : State) : State :=
  let stopChan := length (forwarding st) in
  Go {| t_pod := pod; t_localPort := localPort; t_pc := Spawned |}
    (store Consumer (UID pod) stopChan st).

(** The body of [for event := range podWatcher.ResultChan()]. *)
Definition RunE_event (between : option N) (event : Event) (st : State)
    : State :=
  match Object_ event with
  | OtherObject => st
  | PodObject pod =>
      let forwardStop := activeForwarding st !! UID pod in
      if bool_decide (Type_ event = Deleted)
         || bool_decide (Phase pod = PodSucceeded)
         || bool_decide (Phase pod = PodFailed)
      then
        match forwardStop with
        | Some c => close Consumer c st
        | None => st
        end
      else if bool_decide (is_Some forwardStop)
              || negb (bool_decide (Phase pod = PodRunning))
      then st
      else
        let st := with_localPort (uint64 (localPort st + 1)) st in
        let st := match between with
                  | Some p => with_localPort p st
                  | None => st
                  end in
        handleForwardPod pod (localPort st) st
  end.

(** [activeForwarding.Range(...)]: every stored channel is closed. *)
Definition Range_close (st : State) : State :=
  foldr (λ kv s, close Consumer kv.2 s) st (map_to_list (activeForwarding st)).

Definition returned (t : Task) : bool :=
  match t_pc t with Finished => true | _ => false end.

(** Modelled from the spec: [concurrent.Simple.Wait], as in [Forward]. *)
Definition all_finished (st : State) : bool := forallb returned (forwarding st).

Definition panicked (st : State) : bool :=
  match status st with Forward.Panicked _ => true | _ => false end.

(** One scheduling step, as [Forward.step]. *)
Definition step (remotePort : N) (lbl : Label) (st : State) : State :=
  if panicked st then st else
  match lbl with
  | Recv between =>
      match status st with
      | Forward.Looping =>
          match events st with
          | [] =>
              let st' := Range_close st in
              if panicked st' then st' else with_status Forward.Waiting st'
          | event :: rest => RunE_event between event (with_events rest st)
          end
      | _ => st
      end
  | Run i answer =>
      match forwarding st !! i with
      | Some t => goroutine remotePort i t answer st
      | None => st
      end
  | WaitReturns =>
      match status st with
      | Forward.Waiting =>
          if all_finished st
          then with_status (Forward.Returned None)
                 (emit Consumer [Forward.WatcherStop] st)
          else st
      | _ => st
      end
  | Elsewhere p =>
      match status st with
      | Forward.Returned _ => st
      | _ => with_localPort p st
      end
  end.

(** The function [RunE] gives to [clients.Execute], up to its first
    scheduling point, for the first client it is run for: [localPort]
    is then the number [RunE] has parsed from its third argument. *)
Definition RunE (localPort : N) (w : WatchResult) : State :=
  match w with
  | WatchFails err =>
      {| events := []; localPort := localPort; activeForwarding := ∅;
         closed := ∅; forwarding := []; trace := [];
         status := Forward.Returned (Some err) |}
  | Watching evs =>
      {| events := evs; localPort := localPort; activeForwarding := ∅;
         closed := ∅; forwarding := []; trace := [];
         status := Forward.Looping |}
  end.

Definition run (remotePort : N) (lbls : list Label) (st : State) : State :=
  foldl (λ s lbl, step remotePort lbl s) st lbls.

Inductive reachable (remotePort localPort : N) (w : WatchResult) : State → Prop :=
| reachable_start : reachable remotePort localPort w (RunE localPort w)
| reachable_step st lbl :
    reachable remotePort localPort w st →
    reachable remotePort localPort w (step remotePort lbl st).

(** The steps in which no other closure has a part, and the states
    reached when [RunE] runs the closure for one client only. *)
Definition own (lbl : Label) : bool :=
  match lbl with
  | Recv None | Run _ _ | WaitReturns => true
  | Recv (Some _) | Elsewhere _ => false
  end.

Inductive reachable_alone (remotePort localPort : N) (w : WatchResult)
    : State → Prop :=
| alone_start : reachable_alone remotePort localPort w (RunE localPort w)
| alone_step st lbl :
    own lbl = true → reachable_alone remotePort localPort w st →
    reachable_alone remotePort localPort w (step remotePort lbl st).

(** What goroutine [i] has done so far, by where it is. *)
Definition Session (remotePort : N) (i : nat) (t : Task)
    (effs : list Forward.Effect) : Prop :=
  match t_pc t with
  | Spawned => effs = []
  | Forwarding =>
      effs = [Forward.KubeInfo
                ("Starting port-forward "
                 ++ arrow (t_pod t) (t_localPort t) remotePort)]
  | Finished =>
      ∃ a, effs = Forward.fixed_port_goroutine (t_pod t) i (t_localPort t)
                    remotePort a
  end.

(** What each goroutine did with the port it was given. *)
Record Sessions (remotePort : N) (st : State) : Prop := {
  sessions_started : ∀ i t, forwarding st !! i = Some t →
    Session remotePort i t (Forward.effects_of (Goroutine i) (trace st));
  sessions_unstarted : ∀ i, (length (forwarding st) ≤ i)%nat →
    Forward.effects_of (Goroutine i) (trace st) = []
}.

(** The local ports given out when no other closure writes [localPort]:
    the next one, and those of the goroutines started. *)
Record Ports (localPort0 : N) (st : State) : Prop := {
  ports_next :
    localPort st = uint64 (localPort0 + N.of_nat (length (forwarding st)));
  ports_task : ∀ i t, forwarding st !! i = Some t →
    t_localPort t = uint64 (localPort0 + N.of_nat i + 1)
}.

End FixedPort.

(** ** The clients of the root command

    [getKubernetesClient] builds one client per context.  What
    [clientcmd] and [kubernetes.NewForConfig] answer for a context is a
    parameter: the configuration file and the namespace override are
    fixed during one call.  [client.New] is not in these files; the
    value it returns is kept as the call. *)

Module Root.

(** [clientConfig.ClientConfig()] and [clientConfig.Namespace()] for a
    context, and [kubernetes.NewForConfig]. *)
Class Clientcmd := {
  Config : Type;
  Clientset : Type;
  ClientConfig : string → string + Config;
  Namespace_ : string → string + string;
  NewForConfig : Config → string + Clientset
}.

Section Clients.
Context `{Clientcmd}.

Inductive Kube := New (context namespace : string) (clientset : Clientset).

(** The flag [--all-namespaces]. *)
Variable allNamespace : bool.

Definition getKubeClient (context : string) : string + Kube :=
  match ClientConfig context with
  | inl err => inl ("read kubernetes config file: " ++ err)
  | inr k8sConfig =>
      match Namespace_ context with
      | inl err => inl ("read configured namespace: " ++ err)
      | inr namespace =>
          let namespace := if allNamespace then "" else namespace in
          match NewForConfig k8sConfig with
          | inl err => inl ("create kubernetes client: " ++ err)
          | inr clientset => inr (New context namespace clientset)
          end
      end
  end.

(** The loop of [getKubernetesClient], from [clientsArray] on. *)
Fixpoint getKubernetesClient_range (contexts : list string)
    (clientsArray : list Kube) : list Kube * option string :=
  match contexts with
  | [] => (clientsArray, None)
  | context :: contexts =>
      match getKubeClient context with
      | inl err => (clientsArray, Some err)
      | inr kubeClient =>
          getKubernetesClient_range contexts (clientsArray ++ [kubeClient])
      end
  end.

Definition getKubernetesClient (contexts : list string)
    : list Kube * option string :=
  let contexts := if bool_decide (length contexts = 0)
                  then (contexts ++ [""])%list else contexts in
  getKubernetesClient_range contexts [].

(** *** The earlier [getKubernetesClient] (src/cmd/root.go)

    It has the body of [getKubeClient] in its loop, no default context
    and no [--all-namespaces]; on an error it returns [nil]. *)
Fixpoint kube_getKubernetesClient_range (contexts : list string)
    (output : list Kube) : list Kube * option string :=
  match contexts with
  | [] => (output, None)
  | context :: contexts =>
      match ClientConfig context with
      | inl err => ([], Some ("read kubernetes config file: " ++ err))
      | inr k8sConfig =>
          match Namespace_ context with
          | inl err => ([], Some ("read configured namespace: " ++ err))
          | inr namespace =>
              match NewForConfig k8sConfig with
              | inl err => ([], Some ("create kubernetes client: " ++ err))
              | inr clientset =>
                  kube_getKubernetesClient_range contexts
                    (output ++ [New context namespace clientset])
              end
          end
      end
  end.

Definition kube_getKubernetesClient (contexts : list string)
    : list Kube * option string :=
  kube_getKubernetesClient_range contexts [].

End Clients.
End Root.

(** ** The environment of a container (package env)

    [EnvGetter.Get] prints, for each selected container, the variables
    it gets from config maps, from secrets and inline.  The records
    have the fields of the Kubernetes types that the package reads.  A
    Go map that is nil reads as the empty map; a function that would
    dereference a nil pointer returns [None]. *)

Module Env.

(** What the package gets from outside: the text of a
    [resource.Quantity] and its zero value, the first capture of the
    first match of the regular expressions [envLabels] and
    [envAnnotations] ([None] when there is no match), and what the
    cluster answers for a config map or a secret: an error, or its
    data. *)
Class EnvHelpers := {
  Quantity : Type;
  Quantity_zero : Quantity;
  Quantity_String : Quantity → string;
  envLabels : string → option string;
  envAnnotations : string → option string;
  GetConfigMap : string → string + gmap string string;
  GetSecret : string → string + gmap string string
}.

Section Getter.
Context `{EnvHelpers}.

(** [v1.ConfigMapKeySelector] and [v1.SecretKeySelector] *)
Record KeySelector := {
  ks_Name : string; ks_Key : string; ks_Optional : option bool
}.

(** [v1.ResourceFieldSelector] *)
Record ResourceFieldSelector := { ContainerName : string; Resource : string }.

(** [v1.EnvVarSource]; [FieldRef] holds the [FieldPath]. *)
Record EnvVarSource := {
  ConfigMapKeyRef : option KeySelector;
  SecretKeyRef : option KeySelector;
  FieldRef : option string;
  ResourceFieldRef : option ResourceFieldSelector
}.

Record EnvVar := {
  ev_Name : string; Value : string; ValueFrom : option EnvVarSource
}.

(** [v1.ConfigMapEnvSource] and [v1.SecretEnvSource] *)
Record EnvSource := { es_Name : string; es_Optional : option bool }.

Record EnvFromSource := {
  Prefix : string;
  ConfigMapRef : option EnvSource;
  SecretRef : option EnvSource
}.

Record Container := {
  Name : string;
  Env : list EnvVar;
  EnvFrom : list EnvFromSource;
  Limits : gmap string Quantity;
  Requests : gmap string Quantity
}.

(** [v1.Pod]; the phase is a string in Go. *)
Record Pod := {
  p_Name : string;
  p_Namespace : string;
  NodeName : string;
  ServiceAccountName : string;
  HostIP : string;
  PodIP : string;
  PodIPs : list string;
  Phase : string;
  Containers : list Container
}.

Definition PodPending := "Pending".
Definition PodRunning := "Running".
Definition PodSucceeded := "Succeeded".
Definition PodFailed := "Failed".
Definition PodUnknown := "Unknown".

(** [v1.Pod{}] and [v1.Container{}] *)
Definition zero_Pod : Pod :=
  {| p_Name := ""; p_Namespace := ""; NodeName := ""; ServiceAccountName := "";
     HostIP := ""; PodIP := ""; PodIPs := []; Phase := ""; Containers := [] |}.

Definition zero_Container : Container :=
  {| Name := ""; Env := []; EnvFrom := []; Limits := ∅; Requests := ∅ |}.

(** [ResourceList.Cpu()], [Memory()] and [StorageEphemeral()]: the
    quantity under the resource's name, or the zero quantity. *)
Definition Cpu (rl : gmap string Quantity) : Quantity :=
  default Quantity_zero (rl !! "cpu").
Definition Memory (rl : gmap string Quantity) : Quantity :=
  default Quantity_zero (rl !! "memory").
Definition StorageEphemeral (rl : gmap string Quantity) : Quantity :=
  default Quantity_zero (rl !! "ephemeral-storage").

(** One [for _, pod := range pods] of [getMostLivePod]. *)
Definition first_in (phase : string) (pods : list Pod) : option Pod :=
  find (λ pod, String.eqb (Phase pod) phase) pods.

Definition getMostLivePod (pods : list Pod) : Pod :=
  match first_in PodRunning pods with
  | Some pod => pod
  | None =>
  match first_in PodSucceeded pods with
  | Some pod => pod
  | None =>
  match first_in PodFailed pods with
  | Some pod => pod
  | None =>
  match first_in PodPending pods with
  | Some pod => pod
  | None =>
  match first_in PodUnknown pods with
  | Some pod => pod
  | None => zero_Pod
  end end end end end.

(** The maps [configMaps] and [secrets] of [getEnvDependencies], and
    the errors it reports. *)
Record Dependencies := {
  configMaps : gmap string (gmap string string);
  secrets : gmap string (gmap string string);
  errors : list string
}.

(** The first loop of [getEnvDependencies]: the names that the
    variables refer to, each with a nil map. *)
Definition register_Env (deps : Dependencies) (env : EnvVar) : Dependencies :=
  match ValueFrom env with
  | Some valueFrom =>
      match ConfigMapKeyRef valueFrom with
      | Some ref =>
          {| configMaps := <[ks_Name ref := ∅]> (configMaps deps);
             secrets := secrets deps; errors := errors deps |}
      | None =>
          match SecretKeyRef valueFrom with
          | Some ref =>
              {| configMaps := configMaps deps;
                 secrets := <[ks_Name ref := ∅]> (secrets deps);
                 errors := errors deps |}
          | None => deps
          end
      end
  | None => deps
  end.

(** The second loop: the names that [envFrom] refers to. *)
Definition register_EnvFrom (deps : Dependencies) (envFrom : EnvFromSource)
    : Dependencies :=
  match ConfigMapRef envFrom with
  | Some ref =>
      {| configMaps := <[es_Name ref := ∅]> (configMaps deps);
         secrets := secrets deps; errors := errors deps |}
  | None =>
      match SecretRef envFrom with
      | Some ref =>
          {| configMaps := configMaps deps;
             secrets := <[es_Name ref := ∅]> (secrets deps);
             errors := errors deps |}
      | None => deps
      end
  end.

(** The loops [for name := range configMaps] and
    [for name := range secrets]: an object that cannot be read is
    reported and its map stays nil.  Go does not fix the order of the
    names, so neither the order of the reports. *)
Definition fetch (kind : string) (get : string → string + gmap string string)
    (names : gmap string (gmap string string))
    : gmap string (gmap string string) * list string :=
  map_fold
    (λ name _ '(storage, errs),
       match get name with
       | inl err =>
           (storage,
            (errs ++ [("getting " ++ kind ++ " `" ++ name ++ "`: " ++ err)%string])%list)
       | inr data => (<[name := data]> storage, errs)
       end)
    (names, []) names.

Definition getEnvDependencies (container : Container) : Dependencies :=
  let deps := {| configMaps := ∅; secrets := ∅; errors := [] |} in
  let deps := foldl register_Env deps (Env container) in
  let deps := foldl register_EnvFrom deps (EnvFrom container) in
  let '(configMaps, errs1) := fetch "configmap" GetConfigMap (configMaps deps) in
  let '(secrets, errs2) := fetch "secret" GetSecret (secrets deps) in
  {| configMaps := configMaps; secrets := secrets;
     errors := (errs1 ++ errs2)%list |}.

Definition is_false (optional : option bool) : bool :=
  match optional with Some false => true | _ => false end.

Definition getEnvFromSource (storage : gmap string (gmap string string))
    (kind prefix name : string) (optional : option bool)
    : string * gmap string string :=
  let keyName := kind ++ " " ++ name in
  let values := storage !! name in
  if negb (bool_decide (is_Some values)) && is_false optional
  then (keyName, {["error" := "<" ++ kind ++ " not optional and not found>"]})
  else
    (keyName,
     map_fold (λ key value content, <[prefix ++ key := value]> content) ∅
       (default ∅ values)).

Definition getValueFromRef (storage : gmap string (gmap string string))
    (kind name key : string) (optional : option bool) : string :=
  let values := storage !! name in
  if negb (bool_decide (is_Some values)) && is_false optional
  then "<" ++ kind ++ " `" ++ name ++ "` not optional and not found>"
  else default "" (default ∅ values !! key).

Definition getEnvFieldRef (pod : Pod) (fieldPath : string) : string :=
  match envLabels fieldPath with
  | Some key => key
  | None =>
  match envAnnotations fieldPath with
  | Some key => key
  | None =>
      if String.eqb fieldPath "metadata.name" then p_Name pod
      else if String.eqb fieldPath "metadata.namespace" then p_Namespace pod
      else if String.eqb fieldPath "spec.nodeName" then NodeName pod
      else if String.eqb fieldPath "spec.serviceAccountName"
      then ServiceAccountName pod
      else if String.eqb fieldPath "status.hostIP" then HostIP pod
      else if String.eqb fieldPath "status.podIP" then PodIP pod
      else if String.eqb fieldPath "status.podIPs"
      then String.concat "," (PodIPs pod)
      else "<`" ++ fieldPath ++ "` field ref not implemented>"
  end end.

(** [for _, container = range pod.Containers { if ... { break } }]: the
    variable keeps the last container when none has the name. *)
Fixpoint range_Containers (containerName : string) (containers : list Container)
    (container : Container) : Container :=
  match containers with
  | [] => container
  | c :: containers =>
      if String.eqb containerName (Name c) then c
      else range_Containers containerName containers c
  end.

Definition getEnvResourceRef (containers : list Container)
    (resource : ResourceFieldSelector) : string :=
  let container :=
    range_Containers (ContainerName resource) containers zero_Container in
  let r := Resource resource in
  if String.eqb r "limits.cpu"
  then Quantity_String (Cpu (Limits container))
  else if String.eqb r "limits.memory"
  then Quantity_String (Memory (Limits container))
  else if String.eqb r "limits.ephemeral-storage"
  then Quantity_String (StorageEphemeral (Limits container))
  else if String.eqb r "requests.cpu"
  then Quantity_String (Cpu (Requests container))
  else if String.eqb r "requests.memory"
  then Quantity_String (Memory (Requests container))
  else if String.eqb r "requests.ephemeral-storage"
  then Quantity_String (StorageEphemeral (Requests container))
  else "".

(** [getValueFrom] reads [envVar.ValueFrom] without a nil check. *)
Definition getValueFrom (pod : Pod) (envVar : EnvVar)
    (configMaps secrets : gmap string (gmap string string)) : option string :=
  match ValueFrom envVar with
  | None => None
  | Some valueFrom =>
      match ConfigMapKeyRef valueFrom with
      | Some ref =>
          Some (getValueFromRef configMaps "configmap" (ks_Name ref)
                  (ks_Key ref) (ks_Optional ref))
      | None =>
      match SecretKeyRef valueFrom with
      | Some ref =>
          Some (getValueFromRef secrets "secret" (ks_Name ref) (ks_Key ref)
                  (ks_Optional ref))
      | None =>
      match FieldRef valueFrom with
      | Some fieldPath => Some (getEnvFieldRef pod fieldPath)
      | None =>
      match ResourceFieldRef valueFrom with
      | Some resource => Some (getEnvResourceRef (Containers pod) resource)
      | None => Some ""
      end end end end
  end.

Definition getInlineEnv (pod : Pod) (envVar : EnvVar)
    (configMaps secrets : gmap string (gmap string string)) : option string :=
  if bool_decide (0 < String.length (Value envVar))%nat
  then Some (Value envVar)
  else getValueFrom pod envVar configMaps secrets.

(** The loop over [container.EnvFrom] in [getEnv]. *)
Definition getEnv_EnvFrom (deps : Dependencies)
    (output : gmap string (gmap string string)) (envFrom : EnvFromSource)
    : gmap string (gmap string string) :=
  let '(key, content) :=
    match ConfigMapRef envFrom with
    | Some ref =>
        getEnvFromSource (configMaps deps) "configmap" (Prefix envFrom)
          (es_Name ref) (es_Optional ref)
    | None =>
        match SecretRef envFrom with
        | Some ref =>
            getEnvFromSource (secrets deps) "secret" (Prefix envFrom)
              (es_Name ref) (es_Optional ref)
        | None => ("", ∅)
        end
    end in
  <[key := content]> output.

(** The loop over [container.Env]: [None] once a variable has made
    [getInlineEnv] dereference nil. *)
Definition getEnv_Env (pod : Pod) (deps : Dependencies)
    (inline : option (gmap string string)) (env : EnvVar)
    : option (gmap string string) :=
  match inline with
  | None => None
  | Some inline =>
      match getInlineEnv pod env (configMaps deps) (secrets deps) with
      | None => None
      | Some value => Some (<[ev_Name env := value]> inline)
      end
  end.

(** [getEnv]: the errors reported by [getEnvDependencies], and the map
    it returns, or [None] when it panics. *)
Definition getEnv (container : Container) (pod : Pod)
    : list string * option (gmap string (gmap string string)) :=
  let deps := getEnvDependencies container in
  let output := foldl (getEnv_EnvFrom deps) ∅ (EnvFrom container) in
  (errors deps,
   if bool_decide (0 < length (Env container))%nat
   then
     match foldl (getEnv_Env pod deps) (Some ∅) (Env container) with
     | None => None
     | Some inline => Some (<["inline" := inline]> output)
     end
   else Some output).

(** The order in which [getMostLivePod] looks for a phase. *)
Definition liveness (phase : string) : option nat :=
  if String.eqb phase PodRunning then Some 0
  else if String.eqb phase PodSucceeded then Some 1
  else if String.eqb phase PodFailed then Some 2
  else if String.eqb phase PodPending then Some 3
  else if String.eqb phase PodUnknown then Some 4
  else None.

(** Every name registered so far has a nil map. *)
Definition Registered (storage : gmap string (gmap string string)) : Prop :=
  ∀ name values, storage !! name = Some values → values = ∅.

End Getter.
End Env.

Module EnvFixture.

(** Stand-ins for the cluster: one config map can be read, and nothing
    else; a quantity is its text. *)
#[global] Instance helpers : Env.EnvHelpers := {|
  Env.Quantity := string;
  Env.Quantity_zero := "0";
  Env.Quantity_String q := q;
  Env.envLabels _ := None;
  Env.envAnnotations _ := None;
  Env.GetConfigMap name :=
    if String.eqb name "settings" then inr {["PORT" := "8080"]}
    else inl "not found";
  Env.GetSecret _ := inl "forbidden"
|}.

Definition settings : Env.EnvFromSource := {|
  Env.Prefix := "APP_";
  Env.ConfigMapRef := Some {| Env.es_Name := "settings"; Env.es_Optional := None |};
  Env.SecretRef := None
|}.

(** A config map that is not there, marked as not optional. *)
Definition missing : Env.EnvFromSource := {|
  Env.Prefix := "";
  Env.ConfigMapRef :=
    Some {| Env.es_Name := "missing"; Env.es_Optional := Some false |};
  Env.SecretRef := None
|}.

(** [- name: DEBUG] with [value: ""]. *)
Definition debug : Env.EnvVar :=
  {| Env.ev_Name := "DEBUG"; Env.Value := ""; Env.ValueFrom := None |}.

Definition container (env : list Env.EnvVar) : Env.Container := {|
  Env.Name := "app";
  Env.Env := env;
  Env.EnvFrom := [settings; missing];
  Env.Limits := ∅;
  Env.Requests := ∅
|}.

End EnvFixture.

(** ** The log pipeline *)

Section LogPipeline.
Context `{LogHelpers}.
Import Log.

Lemma outputLog_line_spec (l : Logger) (text : string) :
  outputLog_line l text = spec_pipeline l text.
Proof.
  unfold outputLog_line, spec_pipeline, spec_classify, spec_threshold,
    spec_below_threshold, spec_pattern, spec_emit, spec_pattern_pass,
    spec_rendered.
  simpl. destruct (colorIsGreater _ _); [done|].
  destruct (logRegexp l) as [re|]; [|done].
  simpl. destruct (MatchString re text), (invertRegexp l); done.
Qed.

Lemma outputLog_scan_spec (l : Logger) (lines : list string) :
  outputLog_scan l lines = flat_map (spec_pipeline l) lines.
Proof.
  induction lines as [|text rest IH]; [done|].
  cbn [outputLog_scan flat_map]. by rewrite outputLog_line_spec, IH.
Qed.

Lemma emitted_app (xs ys : list LogAction) :
  emitted (xs ++ ys) = (emitted xs ++ emitted ys)%list.
Proof. unfold emitted. apply omap_app. Qed.

Lemma emitted_pipeline (l : Logger) (text : string) :
  emitted (spec_pipeline l text)
  = if spec_emits l text then [spec_rendered l text] else [].
Proof.
  unfold spec_pipeline, spec_emits, spec_classify, spec_threshold,
    spec_pattern, spec_emit.
  destruct (spec_below_threshold l text); [done|].
  unfold spec_pattern_pass, spec_rendered.
  destruct (logRegexp l) as [re|]; simpl; [|done].
  by destruct (_ || _).
Qed.

Lemma emitted_scan (l : Logger) (lines : list string) :
  emitted (flat_map (spec_pipeline l) lines)
  = spec_rendered l <$> filter (λ text, spec_emits l text = true) lines.
Proof.
  induction lines as [|text rest IH]; [done|].
  cbn [flat_map]. rewrite emitted_app, emitted_pipeline, IH.
  rewrite filter_cons. destruct (spec_emits l text) eqn:E.
  - by rewrite decide_True.
  - by rewrite decide_False.
Qed.

Lemma Scan_fits (reader : list string) :
  Forall (λ line, fits line = true) reader → Scan reader = dropCR <$> reader.
Proof.
  induction 1 as [|line rest Hline _ IH]; [done|].
  cbn [Scan]. by rewrite Hline, IH.
Qed.

Lemma Scan_long (before after : list string) (long : string) :
  Forall (λ line, fits line = true) before → fits long = false →
  Scan (before ++ long :: after) = Scan before.
Proof.
  intros Hbefore Hlong. induction Hbefore as [|line rest Hline _ IH].
  - cbn. by rewrite Hlong.
  - cbn [app Scan]. by rewrite Hline, IH.
Qed.

(** C6.  Every line that the scanner of [outputLog] yields goes through
    the pipeline in the order classify, threshold, pattern, emit: the
    calls made on a line are those of [spec_pipeline]; the whole run is
    the lines' pipelines one after the other (between the two [Info]
    lines unless the output is raw); and the lines handed to [Std] are
    exactly those that are not below the threshold and pass the pattern
    filter (match and not invert, or no match and invert; every line when
    no pattern is set).  The scanner yields every line of the reader when
    each fits its buffer.  At the first line of [MaxScanTokenSize] bytes
    or more the loop ends as it does at the end of the log: that line and
    every line after it are neither classified nor written, and
    [outputLog] does what it does on the lines before. *)
Theorem outputLog_pipeline (l : Logger) (reader before after : list string)
    (long : string) :
  (Forall (λ text, outputLog_line l text = spec_pipeline l text) (Scan reader)
   ∧ outputLog l reader
     = ((if rawOutput l then [] else [Info "Log..."])
        ++ flat_map (spec_pipeline l) (Scan reader)
        ++ (if rawOutput l then [] else [Info "Log ended."]))%list
   ∧ emitted (outputLog l reader)
     = spec_rendered l
       <$> filter (λ text, spec_emits l text = true) (Scan reader))
  ∧ (Forall (λ line, fits line = true) reader → Scan reader = dropCR <$> reader)
  ∧ (Forall (λ line, fits line = true) before → fits long = false →
     Scan (before ++ long :: after) = dropCR <$> before
     ∧ outputLog l (before ++ long :: after) = outputLog l before
     ∧ emitted (outputLog l (before ++ long :: after))
       = spec_rendered l
         <$> filter (λ text, spec_emits l text = true) (dropCR <$> before)).
Proof.
  assert (∀ reader,
    emitted (outputLog l reader)
    = spec_rendered l <$> filter (λ text, spec_emits l text = true) (Scan reader))
    as Hemitted.
  { intros r. unfold outputLog. rewrite outputLog_scan_spec.
    destruct (rawOutput l); simpl.
    - apply emitted_scan.
    - change (Info "Log..." :: ?x) with ([Info "Log..."] ++ x).
      rewrite !emitted_app, emitted_scan. simpl. by rewrite app_nil_r. }
  split; [split; [|split]|split].
  - apply Forall_forall. intros. apply outputLog_line_spec.
  - unfold outputLog. rewrite outputLog_scan_spec.
    destruct (rawOutput l); simpl; [by rewrite app_nil_r|done].
  - apply Hemitted.
  - apply Scan_fits.
  - intros Hbefore Hlong.
    pose proof (Scan_long before after long Hbefore Hlong) as Hscan.
    split; [by rewrite Hscan, Scan_fits|].
    split; [unfold outputLog; by rewrite Hscan|].
    by rewrite Hemitted, Hscan, Scan_fits.
Qed.

End LogPipeline.

Lemma outputLog_pipeline_witness :
  let reader := ["first"; Fixture.long_line; "last"] in
  Log.fits Fixture.long_line = false
  ∧ Log.outputLog Fixture.logger reader = Log.outputLog Fixture.logger ["first"]
  ∧ Log.emitted (Log.outputLog Fixture.logger reader) = ["first"].
Proof.
  intros reader.
  destruct (outputLog_pipeline Fixture.logger reader ["first"] ["last"]
              Fixture.long_line) as (_ & _ & Hlong).
  destruct Hlong as (_ & Hsame & Hemitted).
  - repeat constructor.
  - vm_compute. reflexivity.
  - split; [vm_compute; reflexivity|]. split; [exact Hsame|].
    subst reader. cbn [app] in Hemitted. rewrite Hemitted. reflexivity.
Defined.

(** ** The log reconciler, event by event *)

Section LogEvents.
Context `{LogHelpers}.
Import Log.

Lemma handlePod_range_frame (l : Logger) (pod : Pod) (cs : list Container)
    (st : State) :
  let st' := handlePod_range l pod cs st in
  events st' = events st ∧ activeStreams st' = activeStreams st
  ∧ cancelled st' = cancelled st ∧ status st' = status st.
Proof.
  revert st. induction cs as [|c cs IH]; intros st; [done|].
  cbn [handlePod_range].
  destruct (IH (if negb (isContainerSelected l c) then st
                else if dryRun l
                     then emit Consumer
                            [KubeInfo (podPrefix (Name pod) (c_Name c) ++ " Found!")]
                            st
                     else Go {| t_pod := pod; t_container := c_Name c;
                                t_pc := Spawned |} st))
    as (He & Ha & Hc & Hs).
  cbn zeta. rewrite He, Ha, Hc, Hs.
  by destruct (isContainerSelected l c), (dryRun l).
Qed.

Lemma handlePod_range_streaming (l : Logger) (pod : Pod) (cs : list Container)
    (st : State) :
  streaming (handlePod_range l pod cs st)
  = (streaming st
     ++ if dryRun l then []
        else (λ c, {| t_pod := pod; t_container := c_Name c; t_pc := Spawned |})
             <$> filter (λ c, isContainerSelected l c = true) cs)%list.
Proof.
  revert st. induction cs as [|c cs IH]; intros st.
  - cbn. destruct (dryRun l); by rewrite app_nil_r.
  - cbn [handlePod_range]. rewrite IH, filter_cons.
    destruct (isContainerSelected l c) eqn:Hsel; cbn [negb].
    + rewrite decide_True by done.
      destruct (dryRun l); cbn; [done|].
      by rewrite <- app_assoc.
    + by rewrite decide_False by done.
Qed.

Lemma handlePod_frame (l : Logger) (pod : Pod) (st : State) :
  events (handlePod l pod st) = events st
  ∧ activeStreams (handlePod l pod st) = activeStreams st
  ∧ cancelled (handlePod l pod st) = cancelled st
  ∧ status (handlePod l pod st) = status st.
Proof. apply handlePod_range_frame. Qed.

Lemma handlePod_streaming (l : Logger) (pod : Pod) (st : State) :
  streaming (handlePod l pod st) = (streaming st ++ sessions_for l pod)%list.
Proof. unfold handlePod, sessions_for. apply handlePod_range_streaming. Qed.

(** The loop body never touches the rest of the channel nor leaves the
    loop. *)
Lemma Log_event_frame (l : Logger) (event : Event) (st : State) :
  events (Log_event l event st) = events st
  ∧ status (Log_event l event st) = status st.
Proof.
  unfold Log_event. destruct (Object_ event) as [pod|]; [|done].
  pose proof (handlePod_frame l pod st) as (He & _ & _ & Hs).
  repeat case_match; done.
Qed.

(** A goroutine never touches the channel nor the status of the loop,
    whatever the cluster answers. *)
Lemma Log_goroutine_frame (l : Logger) (i : nat) (t : Task) (a : Answer) (st : State) :
  events (goroutine l i t a st) = events st
  ∧ status (goroutine l i t a st) = status st
  ∧ length (streaming (goroutine l i t a st)) = length (streaming st).
Proof.
  unfold goroutine. repeat case_match; cbn; rewrite ?length_alter; done.
Qed.

Lemma Log_Run_frame (l : Logger) (i : nat) (a : Answer) (st : State) :
  events (step l (Run i a) st) = events st
  ∧ status (step l (Run i a) st) = status st
  ∧ length (streaming (step l (Run i a) st)) = length (streaming st).
Proof.
  cbn. destruct (streaming st !! i); [apply Log_goroutine_frame|done].
Qed.

End LogEvents.

(** ** The port-forward reconciler: who owns an entry of the map *)

Section ForwardOwnership.
Import Forward.
Variable remotePort : N.

Lemma Inv_frame (st st' : State) :
  activeForwarding st' = activeForwarding st →
  forwarding st' = forwarding st →
  Inv st → Inv st'.
Proof.
  intros Hm Hf [H1 H2]. split; rewrite Hm, Hf; [apply H1|apply H2].
Qed.

Lemma close_frame (who : Actor) (c : nat) (st : State) :
  activeForwarding (close who c st) = activeForwarding st
  ∧ forwarding (close who c st) = forwarding st
  ∧ events (close who c st) = events st
  ∧ pool (close who c st) = pool st.
Proof. unfold close. repeat case_match; done. Qed.

Lemma foldr_close_frame (kvs : list (string * nat)) (st : State) :
  let st' := foldr (λ kv s, close Consumer kv.2 s) st kvs in
  activeForwarding st' = activeForwarding st
  ∧ forwarding st' = forwarding st
  ∧ events st' = events st
  ∧ pool st' = pool st.
Proof.
  induction kvs as [|kv kvs IH]; [done|].
  cbn. destruct IH as (Hm & Hf & He & Hp).
  destruct (close_frame Consumer kv.2
              (foldr (λ kv s, close Consumer kv.2 s) st kvs))
    as (Hm' & Hf' & He' & Hp').
  by rewrite Hm', Hf', He', Hp'.
Qed.

Lemma Range_close_frame (st : State) :
  activeForwarding (Range_close st) = activeForwarding st
  ∧ forwarding (Range_close st) = forwarding st
  ∧ events (Range_close st) = events st
  ∧ pool (Range_close st) = pool st.
Proof. apply foldr_close_frame. Qed.

Lemma handleForwardPod_Inv (pod : Pod) (st : State) :
  activeForwarding st !! UID pod = None →
  Inv st → Inv (handleForwardPod pod st).
Proof.
  intros Hnone [H1 H2]. split; cbn.
  - intros u c Hu. destruct (decide (u = UID pod)) as [->|Hne].
    + rewrite lookup_insert_eq in Hu. injection Hu as <-.
      exists {| t_pod := pod; t_pc := Spawned |}.
      split; [|done]. by rewrite lookup_app_r, Nat.sub_diag.
    + rewrite lookup_insert_ne in Hu by done.
      destruct (H1 u c Hu) as (t & Ht & Hut & Hpc).
      exists t. split; [|done]. by apply lookup_app_l_Some.
  - intros i t Hi Hpc.
    apply lookup_app_Some in Hi as [Hi|[Hlen Hi]].
    + pose proof (H2 i t Hi Hpc) as Hown.
      destruct (decide (UID (t_pod t) = UID pod)) as [He|Hne].
      * rewrite He in Hown. congruence.
      * by rewrite lookup_insert_ne.
    + apply list_lookup_singleton_Some in Hi as [Hz <-]. cbn.
      rewrite lookup_insert_eq. f_equal. lia.
Qed.

Lemma RunE_event_Inv (event : Event) (st : State) :
  Inv st → Inv (RunE_event event st).
Proof.
  intros HI. unfold RunE_event.
  destruct (Object_ event) as [pod|]; [|done].
  destruct (activeForwarding st !! UID pod) as [c|] eqn:Hc.
  - case_match.
    + destruct (close_frame Consumer c st) as (Hm & Hf & _).
      by apply (Inv_frame st).
    + by rewrite bool_decide_eq_true_2 by eauto.
  - case_match; [done|].
    case_match; [done|]. by apply handleForwardPod_Inv.
Qed.

(** A goroutine that returns takes its own entry, and only that one,
    out of the map. *)
Lemma finish_Inv (i : nat) (t : Task) (st st0 : State) :
  forwarding st0 !! i = Some t → t_pc t ≠ Finished →
  activeForwarding st = activeForwarding st0 →
  forwarding st = forwarding st0 →
  Inv st0 → Inv (set_pc i Finished (delete_ (Goroutine i) (UID (t_pod t)) st)).
Proof.
  intros Hi Hpc Hm Hf [H1 H2]. split; cbn; rewrite Hm, Hf.
  - intros u c Hu.
    apply lookup_delete_Some in Hu as [Hne Hu].
    destruct (H1 u c Hu) as (t' & Ht' & Hut & Hpc').
    exists t'. split; [|done].
    rewrite list_lookup_alter_ne; [done|].
    intros <-. congruence.
  - intros j t' Hj Hpc'.
    destruct (decide (i = j)) as [<-|Hne].
    + rewrite list_lookup_alter_eq, Hi in Hj. cbn in Hj.
      injection Hj as <-. done.
    + rewrite list_lookup_alter_ne in Hj by done.
      pose proof (H2 j t' Hj Hpc') as Hown.
      rewrite lookup_delete_ne; [done|].
      intros He. rewrite <- He in Hown.
      rewrite (H2 i t Hi Hpc) in Hown. congruence.
Qed.

Lemma goroutine_Inv (i : nat) (t : Task) (a : Answer) (st : State) :
  forwarding st !! i = Some t →
  Inv st → Inv (goroutine remotePort i t a st).
Proof.
  intros Hi HI. unfold goroutine.
  destruct (t_pc t) as [|port|] eqn:Hpc, a as [na|ta]; try done.
  - destruct (GetFreePort na) as [effs [err|port]].
    + apply (finish_Inv i t _ st); try done. congruence.
    + destruct HI as [H1 H2]. split; cbn.
      * intros u c Hu. destruct (H1 u c Hu) as (t' & Ht' & Hut & Hpc').
        destruct (decide (c = i)) as [->|Hne].
        -- exists {| t_pod := t_pod t'; t_pc := Forwarding port |}.
           by rewrite list_lookup_alter_eq, Ht'.
        -- exists t'. by rewrite list_lookup_alter_ne.
      * intros j t' Hj Hpc'.
        destruct (decide (i = j)) as [<-|Hne].
        -- rewrite list_lookup_alter_eq, Hi in Hj. cbn in Hj.
           injection Hj as <-. cbn. apply (H2 i t Hi). congruence.
        -- rewrite list_lookup_alter_ne in Hj by done. by apply H2.
  - destruct (listenPortForward _ _ _ _ _) as [effs err].
    apply (finish_Inv i t _ st); try done. congruence.
Qed.

Lemma step_Inv (lbl : Label) (st : State) :
  Inv st → Inv (step remotePort lbl st).
Proof.
  intros HI. unfold step.
  destruct (panicked st); [done|].
  destruct lbl as [|i a| |add backend].
  - destruct (status st); try done.
    destruct (events st) as [|event rest].
    + destruct (Range_close_frame st) as (Hm & Hf & _).
      destruct (panicked (Range_close st)); by apply (Inv_frame st).
    + apply RunE_event_Inv. by apply (Inv_frame st).
  - destruct (forwarding st !! i) as [t|] eqn:Hi; [|done].
    by apply goroutine_Inv.
  - destruct (status st); try done.
    destruct (all_finished st); [|done]. by apply (Inv_frame st).
  - destruct (status st); try done; by apply (Inv_frame st).
Qed.

Lemma reachable_Inv (w : WatchResult) (st : State) :
  reachable remotePort w st → Inv st.
Proof.
  induction 1 as [|st lbl _ IH]; [|by apply step_Inv].
  destruct w; split; cbn; intros; simplify_map_eq; done.
Qed.

(** Two goroutines of one pod are never both running. *)
Lemma single_owner (w : WatchResult) (st : State) (i j : nat) (ti tj : Task) :
  reachable remotePort w st →
  forwarding st !! i = Some ti → forwarding st !! j = Some tj →
  UID (t_pod ti) = UID (t_pod tj) →
  t_pc ti ≠ Finished → t_pc tj ≠ Finished →
  i = j.
Proof.
  intros Hr Hi Hj Hu Hpi Hpj.
  destruct (reachable_Inv w st Hr) as [_ H2].
  pose proof (H2 i ti Hi Hpi) as Ha. pose proof (H2 j tj Hj Hpj) as Hb.
  rewrite Hu in Ha. congruence.
Qed.

End ForwardOwnership.

(** ** The port-forward reconciler: what a session does before it returns *)

Section ForwardSessions.
Import Forward.
Variable remotePort : N.

Local Arguments effects_of : simpl never.
Local Arguments pool_calls : simpl never.
Local Arguments map_calls : simpl never.

Ltac trace_of :=
  cbn [trace forwarding emit store delete_ pool_Add pool_Remove Go set_pc
       with_events with_status with_pool panic handleForwardPod].

Lemma effects_of_app (who : Actor) (tr1 tr2 : list (Actor * Effect)) :
  effects_of who (tr1 ++ tr2) = (effects_of who tr1 ++ effects_of who tr2)%list.
Proof. unfold effects_of. by rewrite filter_app, fmap_app. Qed.

Lemma effects_of_self (who : Actor) (effs : list Effect) :
  effects_of who ((λ e, (who, e)) <$> effs) = effs.
Proof.
  unfold effects_of. induction effs as [|e effs IH]; [done|].
  rewrite fmap_cons, filter_cons, decide_True by done.
  rewrite fmap_cons. cbn [snd]. by f_equal.
Qed.

Lemma effects_of_other (who who' : Actor) (effs : list Effect) :
  who' ≠ who → effects_of who ((λ e, (who', e)) <$> effs) = [].
Proof.
  intros Hne. unfold effects_of. induction effs as [|e effs IH]; [done|].
  by rewrite fmap_cons, filter_cons, decide_False by done.
Qed.

Lemma pool_calls_app (xs ys : list Effect) :
  pool_calls (xs ++ ys) = (pool_calls xs ++ pool_calls ys)%list.
Proof. apply filter_app. Qed.

Lemma map_calls_app (xs ys : list Effect) :
  map_calls (xs ++ ys) = (map_calls xs ++ map_calls ys)%list.
Proof. apply filter_app. Qed.

Lemma GetFreePort_calls (a : NetAnswer) :
  pool_calls (GetFreePort a).1 = [] ∧ map_calls (GetFreePort a).1 = [].
Proof. by destruct a as [| |port [e|]]. Qed.

Lemma listenPortForward_calls (pod : Pod) (c : nat) (p q : N) (a : TunnelAnswer) :
  pool_calls (listenPortForward pod c p q a).1 = []
  ∧ map_calls (listenPortForward pod c p q a).1 = [].
Proof. by destruct a. Qed.

Lemma Calls_frame (st st' : State) :
  forwarding st' = forwarding st →
  (∀ i, effects_of (Goroutine i) (trace st')
        = effects_of (Goroutine i) (trace st)) →
  Calls st → Calls st'.
Proof.
  intros Hf Ht [H1 H2]. split; rewrite Hf.
  - intros i t Hi. rewrite Ht. by apply H1.
  - intros i Hi. rewrite Ht. by apply H2.
Qed.

Lemma close_trace (c : nat) (st : State) (i : nat) :
  effects_of (Goroutine i) (trace (close Consumer c st))
  = effects_of (Goroutine i) (trace st).
Proof.
  unfold close. repeat case_match; try done; trace_of;
    by rewrite effects_of_app, (effects_of_other _ Consumer), app_nil_r.
Qed.

Lemma foldr_close_trace (kvs : list (string * nat)) (st : State) (i : nat) :
  effects_of (Goroutine i)
    (trace (foldr (λ kv s, close Consumer kv.2 s) st kvs))
  = effects_of (Goroutine i) (trace st).
Proof.
  induction kvs as [|kv kvs IH]; [done|]. cbn. by rewrite close_trace.
Qed.

Lemma handleForwardPod_Calls (pod : Pod) (st : State) :
  Calls st → Calls (handleForwardPod pod st).
Proof.
  intros [H1 H2].
  assert (∀ i, effects_of (Goroutine i) (trace (handleForwardPod pod st))
               = effects_of (Goroutine i) (trace st)) as Ht.
  { intros i. trace_of.
    by rewrite effects_of_app, (effects_of_other _ Consumer), app_nil_r. }
  split.
  - intros i t Hi. rewrite Ht. cbn in Hi.
    apply lookup_app_Some in Hi as [Hi|[Hlen Hi]]; [by apply H1|].
    apply list_lookup_singleton_Some in Hi as [Hz <-]. cbn.
    apply H2. lia.
  - intros i Hi. rewrite Ht. apply H2. cbn in Hi.
    rewrite length_app in Hi. lia.
Qed.

Lemma RunE_event_Calls (event : Event) (st : State) :
  Calls st → Calls (RunE_event event st).
Proof.
  intros HC. unfold RunE_event.
  destruct (Object_ event) as [pod|]; [|done].
  repeat case_match; try done.
  - apply (Calls_frame st); [apply close_frame|apply close_trace|done].
  - by apply handleForwardPod_Calls.
Qed.

Lemma goroutine_Calls (i : nat) (t : Task) (a : Answer) (st : State) :
  forwarding st !! i = Some t →
  Calls st → Calls (goroutine remotePort i t a st).
Proof.
  intros Hi [H1 H2]. pose proof (H1 i t Hi) as Hme.
  assert (∀ (pc : Pc) (st' : State) (new : list Effect),
    forwarding st' = forwarding st →
    trace st' = (trace st ++ ((λ e, (Goroutine i, e)) <$> new))%list →
    session_calls (UID (t_pod t)) pc
      (effects_of (Goroutine i) (trace st) ++ new)%list →
    Calls (set_pc i pc st')) as Hgo.
  { intros pc st' new Hf Ht Hnew. split; cbn; rewrite Hf, Ht.
    - intros j t' Hj. rewrite effects_of_app.
      destruct (decide (i = j)) as [<-|Hne].
      + rewrite list_lookup_alter_eq, Hi in Hj. cbn in Hj.
        injection Hj as <-. cbn. by rewrite effects_of_self.
      + rewrite list_lookup_alter_ne in Hj by done.
        rewrite effects_of_other, app_nil_r by congruence. by apply H1.
    - intros j Hj. rewrite length_alter in Hj.
      rewrite effects_of_app, effects_of_other, app_nil_r; [by apply H2|].
      intros [= ->]. apply lookup_lt_Some in Hi. lia. }
  unfold goroutine.
  destruct (t_pc t) as [|port|] eqn:Hpc, a as [na|ta]; try done;
    cbn in Hme.
  - pose proof (GetFreePort_calls na) as [Hp Hm].
    destruct (GetFreePort na) as [effs [err|port]]; cbn in Hp, Hm.
    + eapply (Hgo Finished _
                (effs ++ [KubeErr ("get free port: " ++ err)%string]
                 ++ [Delete (UID (t_pod t))])%list); [done| |].
      { trace_of. by rewrite !fmap_app, <- !app_assoc. }
      rewrite Hme. cbn. split; [|split].
      * left. by rewrite pool_calls_app, Hp.
      * by rewrite map_calls_app, Hm.
      * by rewrite !last_app.
    + eapply (Hgo (Forwarding port) _
                (effs
                 ++ [KubeWarn ("Forwarding to " ++ Name (t_pod t) ++ "...")%string]
                 ++ [PoolAdd (backendOf port)])%list); [done| |].
      { trace_of. by rewrite !fmap_app, <- !app_assoc. }
      rewrite Hme. cbn. split.
      * by rewrite pool_calls_app, Hp.
      * by rewrite map_calls_app, Hm.
  - pose proof (listenPortForward_calls (t_pod t) i port remotePort ta)
      as [Hp Hm].
    destruct (listenPortForward _ _ _ _ _) as [effs err]; cbn in Hp, Hm.
    destruct Hme as [Hpool Hmap].
    eapply (Hgo Finished _
              ((effs ++ match err with
                        | Some e =>
                            [KubeErr ("Port-forward for " ++ Name (t_pod t)
                                      ++ " failed: " ++ e)%string]
                        | None => []
                        end)
               ++ [PoolRemove (backendOf port)]
               ++ [KubeWarn ("Forwarding to " ++ Name (t_pod t) ++ " ended.")%string]
               ++ [Delete (UID (t_pod t))])%list); [done| |].
    { trace_of. by rewrite !fmap_app, <- !app_assoc. }
    cbn. split; [|split].
    + right. exists port.
      rewrite !pool_calls_app, Hpool, Hp. by destruct err.
    + rewrite !map_calls_app, Hmap, Hm. by destruct err.
    + by rewrite !last_app.
Qed.

Lemma step_Calls (lbl : Label) (st : State) :
  Calls st → Calls (step remotePort lbl st).
Proof.
  intros HC. unfold step.
  destruct (panicked st); [done|].
  destruct lbl as [|i a| |add backend].
  2:{ destruct (forwarding st !! i) as [t|] eqn:Hi; [|done].
      by apply goroutine_Calls. }
  3:{ destruct (status st); try done; by apply (Calls_frame st). }
  - destruct (status st); try done.
    destruct (events st) as [|event rest].
    + assert (Calls (Range_close st)) as HR.
      { apply (Calls_frame st);
          [apply Range_close_frame|intros; apply foldr_close_trace|done]. }
      destruct (panicked (Range_close st)); [done|].
      by apply (Calls_frame (Range_close st)).
    + apply RunE_event_Calls. by apply (Calls_frame st).
  - destruct (status st); try done.
    destruct (all_finished st); [|done].
    apply (Calls_frame st); [done| |done].
    intros i. trace_of.
    by rewrite effects_of_app, (effects_of_other _ Consumer), app_nil_r.
Qed.

Lemma reachable_Calls (w : WatchResult) (st : State) :
  reachable remotePort w st → Calls st.
Proof.
  induction 1 as [|st lbl _ IH]; [|by apply step_Calls].
  by destruct w.
Qed.
End ForwardSessions.

(** ** The port-forward reconciler: leaving the loop and returning *)

Section ForwardReturn.
Import Forward.
Variable remotePort : N.

Lemma Forward_all_finished (st : State) :
  all_finished st = true ↔ finished st.
Proof.
  unfold all_finished, finished. rewrite forallb_forall. split.
  - intros Hall i t Hi.
    eapply bool_decide_eq_true_1, Hall, list_elem_of_In.
    by eapply list_elem_of_lookup_2.
  - intros Hfin t Hin. apply bool_decide_eq_true_2.
    apply list_elem_of_In, list_elem_of_lookup in Hin as [i Hi]. by eapply Hfin.
Qed.

Lemma close_status (who : Actor) (c : nat) (st : State) (r : option string) :
  status (close who c st) = Returned r → status st = Returned r.
Proof. unfold close. repeat case_match; cbn; congruence. Qed.

Lemma foldr_close_status (kvs : list (string * nat)) (st : State)
    (r : option string) :
  status (foldr (λ kv s, close Consumer kv.2 s) st kvs) = Returned r →
  status st = Returned r.
Proof.
  induction kvs as [|kv kvs IH]; [done|].
  cbn. intros Hr. by apply IH, (close_status Consumer kv.2).
Qed.

Lemma RunE_event_status (event : Event) (st : State) (r : option string) :
  status (RunE_event event st) = Returned r → status st = Returned r.
Proof.
  unfold RunE_event. repeat case_match; try done. apply close_status.
Qed.

(** A goroutine never touches the channel nor the status of the loop,
    whatever the network answers. *)
Lemma Forward_goroutine_frame (i : nat) (t : Task) (a : Answer) (st : State) :
  events (goroutine remotePort i t a st) = events st
  ∧ status (goroutine remotePort i t a st) = status st
  ∧ length (forwarding (goroutine remotePort i t a st)) = length (forwarding st).
Proof.
  unfold goroutine. repeat case_match; cbn; rewrite ?length_alter; done.
Qed.

Lemma Forward_Run_frame (i : nat) (a : Answer) (st : State) :
  events (step remotePort (Run i a) st) = events st
  ∧ status (step remotePort (Run i a) st) = status st
  ∧ length (forwarding (step remotePort (Run i a) st)) = length (forwarding st).
Proof.
  unfold step. destruct (panicked st); [done|].
  destruct (forwarding st !! i); [apply Forward_goroutine_frame|done].
Qed.

Lemma Forward_goroutine_finished (i : nat) (t : Task) (a : Answer) (st : State) :
  finished st → forwarding st !! i = Some t →
  goroutine remotePort i t a st = st.
Proof.
  intros Hfin Hi. unfold goroutine. by rewrite (Hfin i t Hi).
Qed.

Lemma Forward_step_Settled (w : WatchResult) (lbl : Label) (st : State) :
  Settled w st → Settled w (step remotePort lbl st).
Proof.
  destruct w as [err|evs]; cbn.
  { intros ->. by destruct lbl. }
  intros IH. unfold step.
  destruct (panicked st) eqn:Hpan; [done|].
  destruct lbl as [|i a| |add backend].
  4:{ remember (status st) as s eqn:Hst in |- *.
      destruct s; try done; intros r Hr; cbn in Hr; congruence. }
  - remember (status st) as s eqn:Hst in |- *. destruct s; try done.
    destruct (events st) as [|event rest].
    + intros r Hr.
      assert (status (Range_close st) ≠ Returned r) as Hne.
      { intros HR. apply foldr_close_status in HR. congruence. }
      unfold panicked in Hr.
      destruct (status (Range_close st)) eqn:HR; cbn in Hr; congruence.
    + intros r Hr. apply RunE_event_status in Hr. cbn in Hr. congruence.
  - destruct (forwarding st !! i) as [t|] eqn:Hi; [|done].
    intros r Hr.
    destruct (Forward_goroutine_frame i t a st) as (_ & Hs & _).
    rewrite Hs in Hr. destruct (IH r Hr) as [-> Hfin].
    by rewrite Forward_goroutine_finished.
  - remember (status st) as s eqn:Hst in |- *. destruct s; try done.
    destruct (all_finished st) eqn:Hall; [|done].
    cbn. intros r [= <-]. split; [done|].
    by apply Forward_all_finished in Hall.
Qed.

Lemma Forward_reachable_Settled (w : WatchResult) (st : State) :
  reachable remotePort w st → Settled w st.
Proof.
  induction 1 as [|st lbl _ IH]; [|by apply Forward_step_Settled].
  by destruct w.
Qed.

(** Closing an open channel closes it, and nothing else happens. *)
Lemma close_open (who : Actor) (c : nat) (st : State) :
  panicked st = false → c ∉ closed st →
  panicked (close who c st) = false
  ∧ status (close who c st) = status st
  ∧ closed (close who c st) = {[c]} ∪ closed st.
Proof.
  intros Hpan Hopen. unfold close, panicked in *.
  rewrite bool_decide_eq_false_2 by done.
  destruct (status st) eqn:Hst; cbn; rewrite ?Hst; done.
Qed.

(** [Range] over a map whose channels are all open closes every one of
    them and does not panic. *)
Lemma foldr_close_all (kvs : list (string * nat)) (st : State) :
  panicked st = false →
  NoDup kvs.*2 →
  (∀ kv, kv ∈ kvs → kv.2 ∉ closed st) →
  let st' := foldr (λ kv s, close Consumer kv.2 s) st kvs in
  panicked st' = false ∧ status st' = status st
  ∧ closed st' = list_to_set kvs.*2 ∪ closed st.
Proof.
  intros Hpan. induction kvs as [|kv kvs IH]; intros Hnd Hopen.
  { cbn. split; [done|]. split; [done|]. by rewrite (left_id_L ∅ (∪)). }
  rewrite fmap_cons in Hnd. apply NoDup_cons in Hnd as [Hfresh Hnd].
  destruct IH as (Hp & Hs & Hc); [done| |].
  { intros kv' Hin. apply Hopen. by apply list_elem_of_further. }
  cbn [foldr].
  set (st1 := foldr (λ kv s, close Consumer kv.2 s) st kvs) in *.
  destruct (close_open Consumer kv.2 st1) as (Hp' & Hs' & Hc'); [done| |].
  { rewrite Hc, not_elem_of_union, elem_of_list_to_set.
    split; [done|]. apply Hopen. apply list_elem_of_here. }
  cbn zeta. rewrite Hp', Hs', Hc', Hs, Hc.
  split; [done|]. split; [done|]. rewrite fmap_cons. cbn [list_to_set].
  by rewrite (assoc_L (∪)).
Qed.

Lemma tracked_channels_distinct (st : State) :
  Inv st → NoDup (map_to_list (activeForwarding st)).*2.
Proof.
  intros [H1 _]. apply NoDup_fmap_2_strong; [|apply NoDup_map_to_list].
  intros [u c] [u' c'] Hu Hu' Hc. cbn in Hc. subst c'.
  apply elem_of_map_to_list in Hu, Hu'.
  destruct (H1 u c Hu) as (t & Ht & <- & _).
  destruct (H1 u' c Hu') as (t' & Ht' & <- & _).
  congruence.
Qed.

End ForwardReturn.

(** ** The port-forward reconciler: a schedule on which it returns *)

Section ForwardSchedule.
Import Forward.
Variable remotePort : N.

Lemma Forward_run_app (l1 l2 : list Label) (st : State) :
  run remotePort (l1 ++ l2) st = run remotePort l2 (run remotePort l1 st).
Proof. apply foldl_app. Qed.

Lemma Looping_not_panicked (st : State) :
  status st = Looping → panicked st = false.
Proof. unfold panicked. by intros ->. Qed.

Lemma step_Run_at (i : nat) (a : Answer) (st : State) (t : Task) :
  panicked st = false → forwarding st !! i = Some t →
  step remotePort (Run i a) st = goroutine remotePort i t a st.
Proof. intros Hp Hi. unfold step. by rewrite Hp, Hi. Qed.

(** With nothing tracked, the loop body either does nothing or starts a
    session. *)
Lemma RunE_event_untracked (event : Event) (st : State) :
  activeForwarding st = ∅ →
  RunE_event event st = st
  ∨ ∃ pod, RunE_event event st = handleForwardPod pod st.
Proof.
  intros Hm. unfold RunE_event.
  destruct (Object_ event) as [pod|]; [|by left].
  rewrite Hm, lookup_empty.
  repeat case_match; try (by left). right. by exists pod.
Qed.

(** A session that is run to its end as soon as it is started. *)
Lemma prompt_session (pod : Pod) (st : State) :
  status st = Looping → finished st → activeForwarding st = ∅ →
  let n := length (forwarding st) in
  let st' := run remotePort
               [Run n (FreePort (Listens 40000 None));
                Run n (Tunnel (ForwardPortsReturns None))]
               (handleForwardPod pod st) in
  status st' = Looping ∧ events st' = events st ∧ finished st'
  ∧ activeForwarding st' = ∅.
Proof.
  intros Hst Hfin Hm n st'. subst st'. cbn [run foldl].
  set (t := {| t_pod := pod; t_pc := Spawned |}).
  assert (forwarding (handleForwardPod pod st) !! n = Some t) as Hn.
  { cbn. by rewrite lookup_app_r, Nat.sub_diag. }
  rewrite (step_Run_at n (FreePort (Listens 40000 None))
             (handleForwardPod pod st) t);
    [|by apply Looping_not_panicked; cbn|done].
  set (st1 := goroutine remotePort n t _ (handleForwardPod pod st)).
  set (t1 := {| t_pod := pod; t_pc := Forwarding 40000 |}).
  assert (forwarding st1 !! n = Some t1) as Hn1.
  { subst st1. cbn. rewrite list_lookup_alter_eq.
    by rewrite lookup_app_r, Nat.sub_diag. }
  rewrite (step_Run_at n _ _ t1); [|by apply Looping_not_panicked; cbn|done].
  subst st1. cbn. repeat split; try done.
  - intros i t' Hi. cbn [forwarding set_pc delete_ emit pool_Remove pool_Add
                              handleForwardPod Go store] in Hi.
    destruct (decide (n = i)) as [<-|Hne].
    + rewrite !list_lookup_alter_eq in Hi.
      rewrite lookup_app_r, Nat.sub_diag in Hi by done.
      cbn in Hi. by injection Hi as <-.
    + rewrite !list_lookup_alter_ne in Hi by done.
      apply lookup_app_Some in Hi as [Hi|[Hlen Hi]]; [by eapply Hfin|].
      apply list_lookup_singleton_Some in Hi as [Hz _].
      apply lookup_lt_Some in Hn. cbn in Hn. fold n in Hz, Hlen. lia.
  - rewrite Hm. by rewrite delete_insert_eq, delete_empty.
Qed.

Lemma prompt_schedule (evs : list Event) (st : State) :
  status st = Looping → events st = evs → finished st →
  activeForwarding st = ∅ →
  ∃ lbls, status (run remotePort lbls st) = Returned None.
Proof.
  revert st. induction evs as [|event rest IH]; intros st Hst Hev Hfin Hm.
  - exists [Recv; WaitReturns]. cbn [run foldl].
    assert (step remotePort Recv st = with_status Waiting st) as ->.
    { unfold step. rewrite (Looping_not_panicked st Hst), Hst, Hev.
      unfold Range_close. rewrite Hm, map_to_list_empty. cbn [foldr].
      by rewrite (Looping_not_panicked st Hst). }
    unfold step. cbn.
    apply Forward_all_finished in Hfin. unfold all_finished in Hfin.
    by rewrite Hfin.
  - assert (step remotePort Recv st = RunE_event event (with_events rest st))
      as Hrecv.
    { unfold step. by rewrite (Looping_not_panicked st Hst), Hst, Hev. }
    destruct (RunE_event_untracked event (with_events rest st) Hm)
      as [Hskip|[pod Hstart]].
    + destruct (IH (with_events rest st)) as [lbls Hl]; try done.
      exists (Recv :: lbls). cbn [run foldl]. by rewrite Hrecv, Hskip.
    + destruct (prompt_session pod (with_events rest st))
        as (Hst' & Hev' & Hfin' & Hm'); try done.
      set (n := length (forwarding (with_events rest st))) in *.
      set (two := [Run n (FreePort (Listens 40000 None));
                   Run n (Tunnel (ForwardPortsReturns None))]) in *.
      destruct (IH (run remotePort two (handleForwardPod pod (with_events rest st))))
        as [lbls Hl]; try done.
      exists (Recv :: two ++ lbls).
      change (Recv :: two ++ lbls) with ([Recv] ++ two ++ lbls)%list.
      rewrite !Forward_run_app. cbn [run foldl] in *.
      by rewrite Hrecv, Hstart.
Qed.

(** After a watch that works there is a schedule on which the function
    returns nil. *)
Lemma Forward_returns_nil (evs : list Event) :
  ∃ lbls, status (run remotePort lbls (RunE (Watching evs))) = Returned None.
Proof. by apply (prompt_schedule evs). Qed.

Lemma Forward_run_Inv (lbls : list Label) (st : State) :
  Inv st → Inv (run remotePort lbls st).
Proof.
  revert st. induction lbls as [|lbl lbls IH]; intros st HI; [done|].
  cbn [run foldl]. by apply IH, step_Inv.
Qed.

(** Once every goroutine has returned, nothing is left in the map. *)
Lemma finished_untracked (st : State) :
  Inv st → finished st → activeForwarding st = ∅.
Proof.
  intros [H1 _] Hfin. apply map_empty. intros u.
  destruct (activeForwarding st !! u) as [c|] eqn:Hu; [|done].
  destruct (H1 u c Hu) as (t & Ht & _ & Hne).
  by specialize (Hfin c t Ht).
Qed.

(** Two more runs of goroutine [i], with a port that can be bound and a
    tunnel that ends, make it return; the other goroutines and the loop
    stay as they are. *)
Lemma Forward_finish_task (i : nat) (st : State) :
  panicked st = false →
  let st' := run remotePort
               [Run i (FreePort (Listens 40000 None));
                Run i (Tunnel (ForwardPortsReturns None))] st in
  status st' = status st ∧ events st' = events st
  ∧ length (forwarding st') = length (forwarding st)
  ∧ (∀ j, j ≠ i → forwarding st' !! j = forwarding st !! j)
  ∧ (∀ t, forwarding st' !! i = Some t → t_pc t = Finished).
Proof.
  intros Hp. cbn [run foldl].
  destruct (Forward_Run_frame remotePort i (FreePort (Listens 40000 None)) st)
    as (He & Hs & Hl).
  set (st1 := step remotePort (Run i (FreePort (Listens 40000 None))) st) in *.
  destruct (Forward_Run_frame remotePort i
              (Tunnel (ForwardPortsReturns None)) st1) as (He' & Hs' & Hl').
  cbn zeta. rewrite Hs', He', Hl', Hs, He, Hl.
  split; [done|]. split; [done|]. split; [done|].
  assert (panicked st1 = false) as Hp1.
  { unfold panicked in *. by rewrite Hs. }
  destruct (forwarding st !! i) as [t|] eqn:Hi.
  - assert (∃ t1, forwarding st1 !! i = Some t1 ∧ t_pc t1 ≠ Spawned
                  ∧ ∀ j, j ≠ i → forwarding st1 !! j = forwarding st !! j)
      as (t1 & Hi1 & Hpc1 & Hoth1).
    { subst st1. rewrite (step_Run_at i _ st t Hp Hi). unfold goroutine.
      destruct t as [pod pc]. destruct pc as [|port|]; cbn.
      - eexists. rewrite list_lookup_alter_eq, Hi. cbn.
        split; [done|]. split; [done|].
        intros j Hne. by rewrite list_lookup_alter_ne.
      - by eexists.
      - by eexists. }
    rewrite (step_Run_at i _ st1 t1 Hp1 Hi1). unfold goroutine.
    destruct t1 as [pod1 pc1]. destruct pc1 as [|port|]; cbn; [done| |].
    + split.
      * intros j Hne. rewrite list_lookup_alter_ne by done. by apply Hoth1.
      * intros t'. rewrite list_lookup_alter_eq, Hi1. cbn. by intros [= <-].
    + split; [done|]. intros t'. rewrite Hi1. by intros [= <-].
  - assert (st1 = st) as Heq.
    { subst st1. unfold step. by rewrite Hp, Hi. }
    rewrite Heq. unfold step. rewrite Hp, Hi. split; [done|]. congruence.
Qed.

Lemma Forward_finish_upto (k : nat) (st : State) :
  panicked st = false →
  ∃ lbls, let st' := run remotePort lbls st in
    status st' = status st ∧ events st' = events st
    ∧ length (forwarding st') = length (forwarding st)
    ∧ (∀ j t, (j < k)%nat → forwarding st' !! j = Some t → t_pc t = Finished).
Proof.
  intros Hp. induction k as [|k (lbls & Hs & He & Hl & Hfin)].
  - exists []. cbn. repeat split. lia.
  - destruct (Forward_finish_task k (run remotePort lbls st))
      as (Hs' & He' & Hl' & Hoth & Hk).
    { cbn zeta in Hs. unfold panicked in *. by rewrite Hs. }
    exists (lbls ++ [Run k (FreePort (Listens 40000 None));
                     Run k (Tunnel (ForwardPortsReturns None))])%list.
    cbn zeta in *. rewrite Forward_run_app, Hs', He', Hl'.
    split; [done|]. split; [done|]. split; [done|].
    intros j t Hj Hjt. destruct (decide (j = k)) as [->|Hne].
    + by apply Hk.
    + rewrite Hoth in Hjt by done. apply (Hfin j t); [lia|done].
Qed.

(** From every state in which the consumer has not panicked and has not
    returned there is a schedule on which the function returns nil: the
    goroutines return first, which empties the map, and the loop then
    reads the rest of the stream. *)
Lemma Forward_completes (st : State) :
  Inv st → status st = Looping ∨ status st = Waiting →
  ∃ lbls, status (run remotePort lbls st) = Returned None.
Proof.
  intros HI Hst.
  assert (panicked st = false) as Hp.
  { unfold panicked. by destruct Hst as [-> | ->]. }
  destruct (Forward_finish_upto (length (forwarding st)) st Hp)
    as (lbls & Hs & He & Hl & Hfin).
  cbn zeta in *. set (st1 := run remotePort lbls st) in *.
  assert (finished st1) as Hfin1.
  { intros j t Hj. apply (Hfin j t); [|done].
    apply lookup_lt_Some in Hj. by rewrite Hl in Hj. }
  assert (Inv st1) as HI1 by by apply Forward_run_Inv.
  destruct Hst as [Hst|Hst].
  - destruct (prompt_schedule (events st1) st1) as [lbls' Hl']; try done.
    { by rewrite Hs. }
    { by apply finished_untracked. }
    exists (lbls ++ lbls')%list. by rewrite Forward_run_app.
  - exists (lbls ++ [WaitReturns])%list. rewrite Forward_run_app.
    fold st1. cbn [run foldl]. unfold step.
    assert (panicked st1 = false) as ->.
    { unfold panicked. by rewrite Hs, Hst. }
    rewrite Hs, Hst.
    apply Forward_all_finished in Hfin1. by rewrite Hfin1.
Qed.

(** After a panic nothing runs any more. *)
Lemma Forward_panicked_stays (lbls : list Label) (st : State) :
  panicked st = true → run remotePort lbls st = st.
Proof.
  intros Hp. induction lbls as [|lbl lbls IH]; [done|].
  cbn [run foldl]. unfold step at 2. rewrite Hp. exact IH.
Qed.

(** A channel that is closed stays closed. *)
Lemma close_keeps_closed (who : Actor) (c c' : nat) (st : State) :
  c ∈ closed st → c ∈ closed (close who c' st).
Proof.
  intros Hc. unfold close, panic.
  destruct (status st); try case_bool_decide; cbn; try done;
    by apply elem_of_union_r.
Qed.

Lemma close_panicked (who : Actor) (c : nat) (st : State) (m : string) :
  status st = Panicked m → close who c st = st.
Proof. intros Hs. unfold close. by rewrite Hs. Qed.

(** [Range] over a map that holds a closed channel panics. *)
Lemma foldr_close_panics (kvs : list (string * nat)) (st : State) :
  (status st = Looping ∨ status st = Panicked "close of closed channel") →
  let st' := foldr (λ kv s, close Consumer kv.2 s) st kvs in
  (status st' = Looping ∨ status st' = Panicked "close of closed channel")
  ∧ (∀ c, c ∈ closed st → c ∈ closed st')
  ∧ ((∃ kv, kv ∈ kvs ∧ kv.2 ∈ closed st) →
     status st' = Panicked "close of closed channel").
Proof.
  intros Hst. induction kvs as [|kv kvs (Hs & Hmono & Hpanic)].
  { cbn. split; [done|]. split; [done|]. intros (kv & Hin & _).
    by apply elem_of_nil in Hin. }
  cbn [foldr]. cbn zeta in *.
  set (st1 := foldr (λ kv s, close Consumer kv.2 s) st kvs) in *.
  split; [|split].
  - destruct Hs as [Hs|Hs]; [|right; by rewrite (close_panicked _ _ _ _ Hs)].
    unfold close, panic. rewrite Hs.
    case_bool_decide; cbn; [by right|by left].
  - intros c Hc. by apply close_keeps_closed, Hmono.
  - intros (kv' & Hin & Hc). apply elem_of_cons in Hin as [->|Hin].
    + destruct Hs as [Hs|Hs]; [|by rewrite (close_panicked _ _ _ _ Hs)].
      unfold close, panic. rewrite Hs.
      rewrite bool_decide_eq_true_2 by by apply Hmono. done.
    + rewrite (close_panicked Consumer kv.2 st1 "close of closed channel");
        apply Hpanic; by exists kv'.
Qed.

(** At the end of the stream the loop leaves when every channel in the
    map is open, and panics when one of them is closed. *)
Lemma Forward_stream_end (st : State) :
  Inv st → status st = Looping → events st = [] →
  ((∀ u c, activeForwarding st !! u = Some c → c ∉ closed st) →
   status (step remotePort Recv st) = Waiting)
  ∧ ((∃ u c, activeForwarding st !! u = Some c ∧ c ∈ closed st) →
     status (step remotePort Recv st) = Panicked "close of closed channel").
Proof.
  intros HI Hst Hev. unfold step.
  rewrite (Looping_not_panicked st Hst), Hst, Hev. unfold Range_close. split.
  - intros Hopen.
    destruct (foldr_close_all (map_to_list (activeForwarding st)) st)
      as (Hp & Hs & _).
    + by apply Looping_not_panicked.
    + by apply tracked_channels_distinct.
    + intros [u c] Hin. apply elem_of_map_to_list in Hin. by eapply Hopen.
    + cbn zeta in Hp. by rewrite Hp.
  - intros (u & c & Hu & Hc).
    destruct (foldr_close_panics (map_to_list (activeForwarding st)) st)
      as (_ & _ & Hpanic); [by left|].
    cbn zeta in Hpanic.
    assert (∃ kv, kv ∈ map_to_list (activeForwarding st) ∧ kv.2 ∈ closed st)
      as Hkv.
    { exists (u, c). split; [by apply elem_of_map_to_list|done]. }
    specialize (Hpanic Hkv). unfold panicked. by rewrite Hpanic.
Qed.

End ForwardSchedule.

(** ** The log reconciler: leaving the loop and returning *)

Section LogReturn.
Context `{LogHelpers}.
Import Log.
Variable l : Logger.

Lemma Log_all_finished (st : State) :
  all_finished st = true ↔ finished st.
Proof.
  unfold all_finished, finished. rewrite forallb_forall. split.
  - intros Hall i t Hi.
    eapply bool_decide_eq_true_1, Hall, list_elem_of_In.
    by eapply list_elem_of_lookup_2.
  - intros Hfin t Hin. apply bool_decide_eq_true_2.
    apply list_elem_of_In, list_elem_of_lookup in Hin as [i Hi]. by eapply Hfin.
Qed.

Lemma Log_goroutine_finished (i : nat) (t : Task) (a : Answer) (st : State) :
  finished st → streaming st !! i = Some t → goroutine l i t a st = st.
Proof. intros Hfin Hi. unfold goroutine. by rewrite (Hfin i t Hi). Qed.

Lemma Log_step_Settled (w : WatchResult) (lbl : Label) (st : State) :
  Settled w st → Settled w (step l lbl st).
Proof.
  destruct w as [err|evs]; cbn.
  { intros ->. by destruct lbl. }
  intros IH. destruct lbl as [|i a|]; cbn.
  - remember (status st) as s eqn:Hst in |- *. destruct s; try done.
    destruct (events st) as [|event rest]; [done|].
    intros r Hr.
    destruct (Log_event_frame l event (with_events rest st)) as [_ Hs].
    rewrite Hs in Hr. cbn in Hr. congruence.
  - destruct (streaming st !! i) as [t|] eqn:Hi; [|done].
    intros r Hr.
    destruct (Log_goroutine_frame l i t a st) as (_ & Hs & _).
    rewrite Hs in Hr. destruct (IH r Hr) as [-> Hfin].
    by rewrite Log_goroutine_finished.
  - remember (status st) as s eqn:Hst in |- *. destruct s; try done.
    destruct (all_finished st) eqn:Hall; [|done].
    cbn. intros r [= <-]. split; [done|].
    by apply Log_all_finished in Hall.
Qed.

Lemma Log_reachable_Settled (w : WatchResult) (st : State) :
  reachable l w st → Settled w st.
Proof.
  induction 1 as [|st lbl _ IH]; [|by apply Log_step_Settled].
  by destruct w.
Qed.

Lemma Log_run_app (l1 l2 : list Label) (st : State) :
  run l (l1 ++ l2) st = run l l2 (run l l1 st).
Proof. apply foldl_app. Qed.

(** Receiving until the channel is closed leaves the loop. *)
Lemma Log_recv_all (evs : list Event) (st : State) :
  status st = Looping → events st = evs →
  status (run l (replicate (S (length evs)) Recv) st) = Waiting.
Proof.
  revert st. induction evs as [|event rest IH]; intros st Hst Hev.
  - cbn. by rewrite Hst, Hev.
  - change (replicate (S (length (event :: rest))) Recv)
      with (Recv :: replicate (S (length rest)) Recv).
    cbn [run foldl]. apply IH; cbn [step]; rewrite Hst, Hev.
    + by destruct (Log_event_frame l event (with_events rest st)) as [_ ->].
    + by destruct (Log_event_frame l event (with_events rest st)) as [-> _].
Qed.

(** One more run of goroutine [i] moves it, and it alone, to [next_pc]. *)
Lemma Log_Run_streaming (i j : nat) (t : Task) (a : Answer) (st : State) :
  streaming st !! i = Some t →
  streaming (step l (Run i a) st) !! j
  = if decide (i = j) then Some (at_pc (next_pc t) t) else streaming st !! j.
Proof.
  intros Hi. cbn [step]. rewrite Hi. unfold goroutine, next_pc, at_pc.
  destruct t as [pod c pc]. cbn [t_pc t_pod t_container].
  destruct pc; cbn [negb]; try case_bool_decide; cbn;
    case_decide; subst; rewrite ?list_lookup_alter_eq, ?Hi;
    rewrite ?list_lookup_alter_ne by done; done.
Qed.

Lemma next_pc_twice (t : Task) :
  next_pc (at_pc (next_pc t) t) = Finished.
Proof.
  unfold next_pc, at_pc. destruct t as [pod c pc]. cbn.
  destruct pc; cbn; repeat case_bool_decide; done.
Qed.

Lemma finish_task (i : nat) (st : State) :
  let st' := run l [Run i nothing; Run i nothing] st in
  status st' = status st ∧ events st' = events st
  ∧ length (streaming st') = length (streaming st)
  ∧ (∀ j, j ≠ i → streaming st' !! j = streaming st !! j)
  ∧ (∀ t, streaming st' !! i = Some t → t_pc t = Finished).
Proof.
  cbn [run foldl].
  destruct (Log_Run_frame l i nothing st) as (He & Hs & Hl).
  destruct (Log_Run_frame l i nothing (step l (Run i nothing) st))
    as (He' & Hs' & Hl').
  cbn zeta. rewrite Hs', He', Hl', Hs, He, Hl.
  split; [done|]. split; [done|]. split; [done|].
  destruct (streaming st !! i) as [t|] eqn:Hi.
  - pose proof (Log_Run_streaming i i t nothing st Hi) as Hi1.
    rewrite decide_True in Hi1 by done.
    split.
    + intros j Hne.
      rewrite (Log_Run_streaming i j _ nothing _ Hi1), decide_False by done.
      by rewrite (Log_Run_streaming i j _ nothing _ Hi), decide_False by done.
    + intros t'.
      rewrite (Log_Run_streaming i i _ nothing _ Hi1), decide_True by done.
      intros [= <-]. apply next_pc_twice.
  - cbn [step]. rewrite Hi. cbn [step]. rewrite Hi. split; [done|congruence].
Qed.

Lemma finish_upto (k : nat) (st : State) :
  ∃ lbls, let st' := run l lbls st in
    status st' = status st ∧ events st' = events st
    ∧ length (streaming st') = length (streaming st)
    ∧ (∀ j t, (j < k)%nat → streaming st' !! j = Some t → t_pc t = Finished).
Proof.
  induction k as [|k (lbls & Hs & He & Hl & Hfin)].
  - exists []. cbn. repeat split. lia.
  - destruct (finish_task k (run l lbls st)) as (Hs' & He' & Hl' & Hoth & Hk).
    exists (lbls ++ [Run k nothing; Run k nothing])%list.
    cbn zeta in *. rewrite Log_run_app, Hs', He', Hl'.
    split; [done|]. split; [done|]. split; [done|].
    intros j t Hj Hjt. destruct (decide (j = k)) as [->|Hne].
    + by apply Hk.
    + rewrite Hoth in Hjt by done. apply (Hfin j t); [lia|done].
Qed.

(** From every state in which [Log] has not returned there is a schedule
    on which it returns nil: the loop reads the rest of the stream, the
    sessions end, and [Wait] returns. *)
Lemma Log_completes (st : State) :
  status st = Looping ∨ status st = Waiting →
  ∃ lbls, status (run l lbls st) = Returned None.
Proof.
  intros Hst.
  assert (∃ pre, status (run l pre st) = Waiting) as [pre Hpre].
  { destruct Hst as [Hst|Hst]; [|by exists []].
    exists (replicate (S (length (events st))) Recv). by apply Log_recv_all. }
  set (st1 := run l pre st) in *.
  destruct (finish_upto (length (streaming st1)) st1)
    as (lbls & Hs & _ & Hl & Hfin).
  exists (pre ++ lbls ++ [WaitReturns])%list.
  rewrite !Log_run_app. fold st1. cbn [run foldl step].
  cbn zeta in *. rewrite Hs, Hpre.
  assert (all_finished (run l lbls st1) = true) as ->; [|done].
  apply Log_all_finished. intros j t Hj. apply (Hfin j t); [|done].
  apply lookup_lt_Some in Hj. by rewrite Hl in Hj.
Qed.

(** After a watch that works there is a schedule on which [Log] returns
    nil. *)
Lemma Log_returns_nil (evs : list Event) :
  ∃ lbls, status (run l lbls (Log (Watching evs))) = Returned None.
Proof.
  set (st1 := run l (replicate (S (length evs)) Recv) (Log (Watching evs))).
  assert (status st1 = Waiting) as Hst1 by by apply Log_recv_all.
  destruct (finish_upto (length (streaming st1)) st1)
    as (lbls & Hs & _ & Hl & Hfin).
  exists (replicate (S (length evs)) Recv ++ lbls ++ [WaitReturns])%list.
  rewrite !Log_run_app. fold st1. cbn [run foldl step].
  cbn zeta in *. rewrite Hs, Hst1.
  assert (all_finished (run l lbls st1) = true) as ->; [|done].
  apply Log_all_finished. intros j t Hj. apply (Hfin j t); [|done].
  apply lookup_lt_Some in Hj. by rewrite Hl in Hj.
Qed.

End LogReturn.

(** ** One turn of the consumer loops *)

Section Turns.
Context `{LogHelpers}.
Variable l : Log.Logger.
Variable remotePort : N.

Lemma Log_step_Recv (event : Event) (rest : list Event) (st : Log.State) :
  Log.status st = Log.Looping → Log.events st = event :: rest →
  Log.step l Log.Recv st = Log.Log_event l event (Log.with_events rest st).
Proof. intros Hs He. cbn. by rewrite Hs, He. Qed.

Lemma Forward_step_Recv (event : Event) (rest : list Event) (st : Forward.State) :
  Forward.status st = Forward.Looping → Forward.events st = event :: rest →
  Forward.step remotePort Forward.Recv st
  = Forward.RunE_event event (Forward.with_events rest st).
Proof.
  intros Hs He. unfold Forward.step.
  by rewrite (Looping_not_panicked st Hs), Hs, He.
Qed.

End Turns.

(** C10.  A watch event whose object is not a pod is skipped by both
    reconcilers: the turn of the loop only takes the event off the channel;
    the map, the goroutines, the cancelled or closed handles and the trace
    are as before, and the loop goes on with the next event. *)
Theorem non_pod_event_skipped `{LogHelpers} (l : Log.Logger) (remotePort : N)
    (event : Event) (rest : list Event) (ls : Log.State) (fs : Forward.State) :
  Object_ event = OtherObject →
  (Log.status ls = Log.Looping → Log.events ls = event :: rest →
   Log.step l Log.Recv ls = Log.with_events rest ls
   ∧ Log.status (Log.step l Log.Recv ls) = Log.Looping)
  ∧ (Forward.status fs = Forward.Looping → Forward.events fs = event :: rest →
     Forward.step remotePort Forward.Recv fs = Forward.with_events rest fs
     ∧ Forward.status (Forward.step remotePort Forward.Recv fs) = Forward.Looping).
Proof.
  intros Hobj. split; intros Hs He.
  - rewrite (Log_step_Recv l event rest ls Hs He).
    unfold Log.Log_event. by rewrite Hobj.
  - rewrite (Forward_step_Recv remotePort event rest fs Hs He).
    unfold Forward.RunE_event. by rewrite Hobj.
Qed.

Lemma non_pod_event_skipped_witness :
  let rest := [Fixture.on Added PodRunning] in
  let ls := Log.Log (Watching (Fixture.status_event :: rest)) in
  let fs := Forward.RunE (Watching (Fixture.status_event :: rest)) in
  (Log.step Fixture.logger Log.Recv ls = Log.with_events rest ls
   ∧ Log.status (Log.step Fixture.logger Log.Recv ls) = Log.Looping)
  ∧ (Forward.step 8080 Forward.Recv fs = Forward.with_events rest fs
     ∧ Forward.status (Forward.step 8080 Forward.Recv fs) = Forward.Looping).
Proof.
  intros rest ls fs.
  destruct (non_pod_event_skipped Fixture.logger 8080 Fixture.status_event
              rest ls fs eq_refl) as [HL HF].
  split; [apply HL|apply HF]; reflexivity.
Defined.

(** C3, counterexample.  In the log reconciler an event for a pod in phase
    [Unknown] that is not tracked starts a session: a goroutine is handed
    to [streaming.Go], and it reads the pod's log once. *)
Lemma Log_unknown_pod_gets_session :
  let st := Log.run Fixture.logger [Log.Recv]
              (Log.Log (Watching [Fixture.on Added PodUnknown])) in
  Log.streaming st
  = [{| Log.t_pod := Fixture.pod PodUnknown; Log.t_container := "app";
        Log.t_pc := Log.Spawned |}]
  ∧ Log.effects_of (Goroutine 0)
      (Log.trace (Log.run Fixture.logger [Log.Run 0 (Log.Reads ["bye"] None)] st))
    = [Log.GetLogs "default" "web-0" "app" false 3600;
       Log.OutputLog "[web-0/app]" (Log.CallColorOfJSON "bye");
       Log.OutputLog "[web-0/app]" (Log.CallColorIsGreater 3);
       Log.OutputLog "[web-0/app]" (Log.Std "bye")].
Proof. split; reflexivity. Qed.

(** C3, amended.  An [Added] or [Modified] event for a pod in phase
    [Pending] is ignored by both reconcilers, tracked or not: the turn only
    takes the event off the channel.  So is one for a pod in phase
    [Unknown] in the port-forward reconciler, and in the log reconciler
    when the pod is tracked.  For an untracked [Unknown] pod the log
    reconciler calls [handlePod]; the map is unchanged by that turn. *)
Theorem pending_event_ignored `{LogHelpers} (l : Log.Logger) (remotePort : N)
    (event : Event) (pod : Pod) (rest : list Event)
    (ls : Log.State) (fs : Forward.State) :
  Object_ event = PodObject pod →
  Type_ event = Added ∨ Type_ event = Modified →
  Phase pod = PodPending ∨ Phase pod = PodUnknown →
  (Log.status ls = Log.Looping → Log.events ls = event :: rest →
   (Phase pod = PodPending ∨ is_Some (Log.activeStreams ls !! UID pod) →
    Log.step l Log.Recv ls = Log.with_events rest ls)
   ∧ (Phase pod = PodUnknown → Log.activeStreams ls !! UID pod = None →
      Log.step l Log.Recv ls = Log.handlePod l pod (Log.with_events rest ls)
      ∧ Log.activeStreams (Log.step l Log.Recv ls) = Log.activeStreams ls))
  ∧ (Forward.status fs = Forward.Looping → Forward.events fs = event :: rest →
     Forward.step remotePort Forward.Recv fs = Forward.with_events rest fs).
Proof.
  intros Hobj Hty Hph.
  assert (bool_decide (Type_ event = Deleted) = false) as HD
    by (apply bool_decide_eq_false_2; destruct Hty; congruence).
  assert (bool_decide (Type_ event = Error) = false) as HE
    by (apply bool_decide_eq_false_2; destruct Hty; congruence).
  assert (bool_decide (Phase pod = PodSucceeded) = false) as HS
    by (apply bool_decide_eq_false_2; destruct Hph; congruence).
  assert (bool_decide (Phase pod = PodFailed) = false) as HF
    by (apply bool_decide_eq_false_2; destruct Hph; congruence).
  assert (bool_decide (Phase pod = PodRunning) = false) as HR
    by (apply bool_decide_eq_false_2; destruct Hph; congruence).
  split; intros Hs He.
  - rewrite (Log_step_Recv l event rest ls Hs He).
    unfold Log.Log_event. rewrite Hobj, HD, HE, HS, HF. cbn [orb].
    change (Log.activeStreams (Log.with_events rest ls))
      with (Log.activeStreams ls).
    split.
    + intros [Hp|Htracked].
      * rewrite (bool_decide_eq_true_2 _ Hp). by rewrite orb_true_r.
      * by rewrite (bool_decide_eq_true_2 _ Htracked).
    + intros Hu Hnone. rewrite Hnone.
      rewrite bool_decide_eq_false_2 by (by intros [? ?]).
      rewrite bool_decide_eq_false_2 by congruence.
      cbn [orb]. split; [done|].
      by destruct (handlePod_frame l pod (Log.with_events rest ls))
        as (_ & -> & _).
  - rewrite (Forward_step_Recv remotePort event rest fs Hs He).
    unfold Forward.RunE_event. rewrite Hobj, HD, HS, HF, HR. cbn [orb negb].
    by rewrite orb_true_r.
Qed.

Lemma pending_event_ignored_witness :
  let event := Fixture.on Modified PodPending in
  let ls := Log.Log (Watching [event]) in
  let fs := Forward.RunE (Watching [event]) in
  Log.step Fixture.logger Log.Recv ls = Log.with_events [] ls
  ∧ Forward.step 8080 Forward.Recv fs = Forward.with_events [] fs.
Proof.
  intros event ls fs.
  destruct (pending_event_ignored Fixture.logger 8080 event
              (Fixture.pod PodPending) [] ls fs eq_refl
              (or_intror eq_refl) (or_introl eq_refl)) as [HL HF].
  split.
  - destruct HL as [HL _]; [reflexivity|reflexivity|].
    apply HL. left. reflexivity.
  - apply HF; reflexivity.
Defined.

(** C2, counterexample.  For a pod first seen in phase [Failed] the
    port-forward reconciler runs no session at all; and the log reconciler
    runs one for each container, two for a pod with two of them. *)
Lemma Forward_terminal_pod_no_session :
  let st := Forward.run 8080 [Forward.Recv]
              (Forward.RunE (Watching [Fixture.on Added PodFailed])) in
  Forward.forwarding st = [] ∧ Forward.trace st = []
  ∧ Forward.status st = Forward.Looping
  ∧ length (Log.streaming
              (Log.run Fixture.logger [Log.Recv]
                 (Log.Log (Watching [Fixture.on2 Added PodFailed])))) = 2.
Proof. repeat split; reflexivity. Qed.

Lemma sessions_for_spawned `{LogHelpers} (l : Log.Logger) (pod : Pod) (t : Log.Task) :
  t ∈ Log.sessions_for l pod → Log.t_pod t = pod ∧ Log.t_pc t = Log.Spawned.
Proof.
  unfold Log.sessions_for. destruct (Log.dryRun l).
  - by intros ?%elem_of_nil.
  - by intros (c & -> & _)%list_elem_of_fmap.
Qed.

(** C2, amended.  For an [Added] or [Modified] event of an untracked pod
    in phase [Succeeded] or [Failed]:
    - the log reconciler hands [streaming.Go] one goroutine for each
      selected container of the pod (none in a dry run) and leaves the map
      as it is; each of these goroutines, when it runs, makes the bounded
      request of [logPod] (follow is false), returns, and leaves the map
      as it is;
    - the port-forward reconciler only takes the event off the channel: it
      starts no session and leaves the map as it is. *)
Theorem terminal_first_sight `{LogHelpers} (l : Log.Logger) (remotePort : N)
    (event : Event) (pod : Pod) (rest : list Event)
    (ls s : Log.State) (i : nat) (t : Log.Task) (a : Log.Answer)
    (fs : Forward.State) :
  Object_ event = PodObject pod →
  Type_ event = Added ∨ Type_ event = Modified →
  Phase pod = PodSucceeded ∨ Phase pod = PodFailed →
  (Log.status ls = Log.Looping → Log.events ls = event :: rest →
   Log.activeStreams ls !! UID pod = None →
   let ls' := Log.step l Log.Recv ls in
   Log.streaming ls' = (Log.streaming ls ++ Log.sessions_for l pod)%list
   ∧ Log.activeStreams ls' = Log.activeStreams ls
   ∧ Log.events ls' = rest ∧ Log.status ls' = Log.Looping)
  ∧ (Log.streaming s !! i = Some t → t ∈ Log.sessions_for l pod →
     let s' := Log.step l (Log.Run i a) s in
     Log.activeStreams s' = Log.activeStreams s
     ∧ Log.streaming s' !! i = Some (Log.at_pc Log.Finished t)
     ∧ Log.trace s'
       = (Log.trace s
          ++ ((λ e, (Goroutine i, e))
              <$> Log.logPod l (Namespace pod) (Name pod) (Log.t_container t) a))%list
     ∧ head (Log.logPod l (Namespace pod) (Name pod) (Log.t_container t) a)
       = Some (Log.GetLogs (Namespace pod) (Name pod) (Log.t_container t)
                 false (Log.since l)))
  ∧ (Forward.status fs = Forward.Looping → Forward.events fs = event :: rest →
     Forward.activeForwarding fs !! UID pod = None →
     Forward.step remotePort Forward.Recv fs = Forward.with_events rest fs).
Proof.
  intros Hobj Hty Hph.
  assert (bool_decide (Phase pod = PodSucceeded)
          || bool_decide (Phase pod = PodFailed) = true) as Hterm.
  { destruct Hph as [Hp|Hp]; rewrite (bool_decide_eq_true_2 _ Hp);
      [done|apply orb_true_r]. }
  assert (bool_decide (Phase pod = PodRunning) = false) as HR
    by (apply bool_decide_eq_false_2; destruct Hph; congruence).
  split; [|split].
  - intros Hs He Hnone ls'. subst ls'.
    rewrite (Log_step_Recv l event rest ls Hs He).
    unfold Log.Log_event. rewrite Hobj, <- !orb_assoc, Hterm, !orb_true_r.
    change (Log.activeStreams (Log.with_events rest ls))
      with (Log.activeStreams ls).
    rewrite Hnone, handlePod_streaming.
    by destruct (handlePod_frame l pod (Log.with_events rest ls))
      as (-> & -> & _ & ->).
  - intros Hi Hin s'. subst s'.
    apply sessions_for_spawned in Hin as [Hpod Hpc].
    cbn [Log.step]. rewrite Hi. unfold Log.goroutine.
    rewrite Hpc, Hpod, HR. cbn [negb].
    cbn [Log.activeStreams Log.streaming Log.trace Log.set_pc Log.emit].
    rewrite list_lookup_alter_eq, Hi. by rewrite <- Hpod.
  - intros Hs He Hnone.
    rewrite (Forward_step_Recv remotePort event rest fs Hs He).
    unfold Forward.RunE_event. rewrite Hobj, <- !orb_assoc, Hterm, !orb_true_r.
    change (Forward.activeForwarding (Forward.with_events rest fs))
      with (Forward.activeForwarding fs).
    by rewrite Hnone.
Qed.

Lemma terminal_first_sight_witness :
  let event := Fixture.on Added PodFailed in
  let t := {| Log.t_pod := Fixture.pod PodFailed; Log.t_container := "app";
              Log.t_pc := Log.Spawned |} in
  let ls := Log.Log (Watching [event]) in
  let s := Log.step Fixture.logger Log.Recv ls in
  let fs := Forward.RunE (Watching [event]) in
  (Log.streaming s = [t] ∧ Log.activeStreams s = ∅)
  ∧ (Log.activeStreams (Log.step Fixture.logger (Log.Run 0 Log.nothing) s) = ∅
     ∧ Log.streaming (Log.step Fixture.logger (Log.Run 0 Log.nothing) s) !! 0
       = Some (Log.at_pc Log.Finished t))
  ∧ Forward.step 8080 Forward.Recv fs = Forward.with_events [] fs.
Proof.
  intros event t ls s fs.
  destruct (terminal_first_sight Fixture.logger 8080 event
              (Fixture.pod PodFailed) [] ls s 0 t Log.nothing fs eq_refl
              (or_introl eq_refl) (or_intror eq_refl)) as (HL & HS & HF).
  split; [|split].
  - destruct HL as (H1 & H2 & _); [reflexivity..|]. split; [exact H1|exact H2].
  - destruct HS as (H1 & H2 & _); [reflexivity| |].
    + apply list_elem_of_here.
    + split; [exact H1|exact H2].
  - apply HF; reflexivity.
Defined.

(** C4, counterexample.  In the port-forward reconciler the pod is still
    in the map right after its [Deleted] event has been processed: the
    event only closed the stop channel.  And an [Error] event carrying a
    tracked pod does not even close it. *)
Lemma Forward_deleted_pod_still_tracked :
  let deleted := Forward.run 8080 [Forward.Recv; Forward.Recv]
                   (Forward.RunE (Watching [Fixture.on Added PodRunning;
                                            Fixture.on Deleted PodRunning])) in
  let failed := Forward.run 8080 [Forward.Recv; Forward.Recv]
                  (Forward.RunE (Watching [Fixture.on Added PodRunning;
                                           Fixture.on Error PodRunning])) in
  Forward.activeForwarding deleted !! "u1" = Some 0
  ∧ Forward.trace deleted = [(Consumer, Forward.Store "u1" 0);
                             (Consumer, Forward.Close 0)]
  ∧ Forward.activeForwarding failed !! "u1" = Some 0
  ∧ Forward.trace failed = [(Consumer, Forward.Store "u1" 0)].
Proof. repeat split; reflexivity. Qed.

(** C4, amended.  For an event of a tracked pod:
    - the log reconciler, on [Deleted] or [Error], calls the stored cancel
      function and deletes the entry: right after the turn the pod is not
      in the map;
    - the port-forward reconciler, on [Deleted] and when the stored stop
      channel is still open, closes that channel and leaves the entry in
      the map; the entry belongs to a goroutine of that pod that has not
      returned, and it is gone from the map once that goroutine has
      returned. *)
Theorem deleted_event_tracked `{LogHelpers} (l : Log.Logger) (remotePort : N)
    (w : WatchResult) (event : Event) (pod : Pod) (rest : list Event) (c : nat)
    (ls : Log.State) (fs : Forward.State) (a : Forward.Answer) :
  Object_ event = PodObject pod →
  (Type_ event = Deleted ∨ Type_ event = Error →
   Log.status ls = Log.Looping → Log.events ls = event :: rest →
   Log.activeStreams ls !! UID pod = Some c →
   let ls' := Log.step l Log.Recv ls in
   Log.activeStreams ls' = delete (UID pod) (Log.activeStreams ls)
   ∧ Log.activeStreams ls' !! UID pod = None
   ∧ Log.cancelled ls' = {[c]} ∪ Log.cancelled ls
   ∧ Log.streaming ls' = Log.streaming ls
   ∧ Log.events ls' = rest ∧ Log.status ls' = Log.Looping)
  ∧ (Type_ event = Deleted →
     Forward.reachable remotePort w fs →
     Forward.status fs = Forward.Looping → Forward.events fs = event :: rest →
     Forward.activeForwarding fs !! UID pod = Some c →
     c ∉ Forward.closed fs →
     let fs' := Forward.step remotePort Forward.Recv fs in
     Forward.closed fs' = {[c]} ∪ Forward.closed fs
     ∧ Forward.activeForwarding fs' = Forward.activeForwarding fs
     ∧ Forward.forwarding fs' = Forward.forwarding fs
     ∧ Forward.events fs' = rest ∧ Forward.status fs' = Forward.Looping
     ∧ (∃ t, Forward.forwarding fs' !! c = Some t
             ∧ UID (Forward.t_pod t) = UID pod
             ∧ Forward.t_pc t ≠ Forward.Finished)
     ∧ let fs'' := Forward.step remotePort (Forward.Run c a) fs' in
       (∀ t, Forward.forwarding fs'' !! c = Some t →
             Forward.t_pc t = Forward.Finished →
             Forward.activeForwarding fs'' !! UID pod = None)).
Proof.
  intros Hobj. split.
  - intros Hty Hs He Hc ls'. subst ls'.
    rewrite (Log_step_Recv l event rest ls Hs He).
    unfold Log.Log_event. rewrite Hobj.
    assert (bool_decide (Type_ event = Deleted)
            || bool_decide (Type_ event = Error) = true) as ->.
    { destruct Hty as [Ht|Ht]; rewrite (bool_decide_eq_true_2 _ Ht);
        [done|apply orb_true_r]. }
    cbn [orb].
    change (Log.activeStreams (Log.with_events rest ls))
      with (Log.activeStreams ls).
    rewrite Hc. cbn. rewrite lookup_delete_eq. by rewrite Hs.
  - intros Hty Hreach Hs He Hc Hopen fs'. subst fs'.
    rewrite (Forward_step_Recv remotePort event rest fs Hs He).
    unfold Forward.RunE_event. rewrite Hobj.
    rewrite (bool_decide_eq_true_2 _ Hty). cbn [orb].
    change (Forward.activeForwarding (Forward.with_events rest fs))
      with (Forward.activeForwarding fs).
    rewrite Hc.
    set (fs0 := Forward.with_events rest fs).
    destruct (close_open Consumer c fs0) as (Hp' & Hs' & Hc');
      [by apply Looping_not_panicked|done|].
    destruct (close_frame Consumer c fs0) as (Hm & Hf & He' & _).
    set (fs1 := Forward.close Consumer c fs0) in *.
    destruct (reachable_Inv remotePort w fs Hreach) as [H1 _].
    destruct (H1 (UID pod) c Hc) as (t & Ht & Hu & Hpc).
    rewrite Hc', Hm, Hf, He', Hs'.
    repeat split; try done.
    { by exists t. }
    intros t' Ht' Hfin.
    assert (Forward.forwarding fs1 !! c = Some t) as Ht1 by by rewrite Hf.
    rewrite (step_Run_at remotePort c a fs1 t Hp' Ht1) in Ht' |- *.
    unfold Forward.goroutine in Ht' |- *.
    destruct (Forward.t_pc t) as [|port|] eqn:Hpct, a as [na|ta];
      try (rewrite Ht1 in Ht'; congruence).
    + destruct (Forward.GetFreePort na) as [effs [err|port]].
      * cbn. rewrite Hu. apply lookup_delete_eq.
      * cbn in Ht'. rewrite list_lookup_alter_eq, Ht1 in Ht'.
        cbn in Ht'. injection Ht' as <-. done.
    + destruct (Forward.listenPortForward _ _ _ _ _) as [effs err].
      cbn. rewrite Hu. apply lookup_delete_eq.
Qed.

Lemma deleted_event_tracked_witness :
  let ls := Log.run Fixture.logger [Log.Recv; Log.Run 0 Log.nothing]
              (Log.Log (Watching [Fixture.on Added PodRunning;
                                  Fixture.on Deleted PodRunning])) in
  let w := Watching [Fixture.on Added PodRunning; Fixture.on Deleted PodRunning] in
  let fs := Forward.step 8080 Forward.Recv (Forward.RunE w) in
  Log.activeStreams (Log.step Fixture.logger Log.Recv ls) !! "u1" = None
  ∧ Forward.activeForwarding (Forward.step 8080 Forward.Recv fs)
    = Forward.activeForwarding fs.
Proof.
  intros ls w fs.
  destruct (deleted_event_tracked Fixture.logger 8080 w
              (Fixture.on Deleted PodRunning) (Fixture.pod PodRunning) [] 0
              ls fs (Forward.Tunnel (Forward.ForwardPortsReturns None)) eq_refl)
    as [HL HF].
  split.
  - destruct HL as (_ & HL & _);
      [left; reflexivity|reflexivity|reflexivity|reflexivity|exact HL].
  - destruct HF as (_ & HF & _);
      [reflexivity|apply Forward.reachable_step, Forward.reachable_start
      |reflexivity|reflexivity|reflexivity| |exact HF].
    change (0 ∉ (∅ : gset nat)). apply not_elem_of_empty.
Defined.

(** C5, counterexample.  When the channel of the log reconciler is closed
    while a session is tracked, the reconciler cancels nothing: it makes no
    call at all, the session keeps streaming with its cancel function
    uncalled, and [streaming.Wait()] does not return. *)
Lemma Log_stream_end_cancels_nothing :
  let st := Log.run Fixture.logger
              [Log.Recv; Log.Run 0 Log.nothing; Log.Recv; Log.WaitReturns]
              (Log.Log (Watching [Fixture.on Added PodRunning])) in
  Log.status st = Log.Waiting
  ∧ Log.activeStreams st !! "u1" = Some 0
  ∧ Log.streaming st !! 0
    = Some {| Log.t_pod := Fixture.pod PodRunning; Log.t_container := "app";
              Log.t_pc := Log.Streaming |}
  ∧ bool_decide (0 ∈ Log.cancelled st) = false
  ∧ Log.effects_of Consumer (Log.trace st) = [].
Proof. repeat split; reflexivity. Qed.

Lemma Log_settled_stays `{LogHelpers} (l : Log.Logger) (st : Log.State)
    (r : option string) (lbl : Log.Label) :
  Log.status st = Log.Returned r → Log.finished st → Log.step l lbl st = st.
Proof.
  intros Hs Hfin. destruct lbl as [|i a|]; cbn; rewrite ?Hs; [done| |done].
  destruct (Log.streaming st !! i) as [t|] eqn:Hi; [|done].
  by apply Log_goroutine_finished.
Qed.

Lemma Forward_settled_stays (remotePort : N) (st : Forward.State)
    (r : option string) (lbl : Forward.Label) :
  Forward.status st = Forward.Returned r → Forward.finished st →
  Forward.step remotePort lbl st = st.
Proof.
  intros Hs Hfin. unfold Forward.step, Forward.panicked. rewrite Hs.
  destruct lbl as [|i a| |add backend]; [done| |done|done].
  destruct (Forward.forwarding st !! i) as [t|] eqn:Hi; [|done].
  by apply Forward_goroutine_finished.
Qed.

Lemma Log_returned_finished `{LogHelpers} (l : Log.Logger) (w : WatchResult)
    (st : Log.State) (r : option string) :
  Log.reachable l w st → Log.status st = Log.Returned r → Log.finished st.
Proof.
  intros Hreach Hs. apply Log_reachable_Settled in Hreach.
  destruct w as [err|evs]; cbn in Hreach.
  - subst st. by intros i t Hi.
  - by destruct (Hreach r Hs).
Qed.

Lemma Forward_returned_finished (remotePort : N) (w : WatchResult)
    (st : Forward.State) (r : option string) :
  Forward.reachable remotePort w st → Forward.status st = Forward.Returned r →
  Forward.finished st.
Proof.
  intros Hreach Hs. apply Forward_reachable_Settled in Hreach.
  destruct w as [err|evs]; cbn in Hreach.
  - subst st. by intros i t Hi.
  - by destruct (Hreach r Hs).
Qed.

(** C5, amended.  When the channel is closed, the port-forward reconciler
    closes the stop channel of every session still in the map (none of
    them having been closed before) and goes on to wait; the log
    reconciler cancels nothing and goes on to wait.  Both have returned
    only when every goroutine they started has returned, and nothing runs
    after that. *)
Theorem stream_end_teardown `{LogHelpers} (l : Log.Logger) (remotePort : N)
    (w : WatchResult) (ls ls' : Log.State) (fs fs' : Forward.State)
    (r : option string) :
  (Log.status ls = Log.Looping → Log.events ls = [] →
   Log.step l Log.Recv ls = Log.with_status Log.Waiting ls)
  ∧ (Forward.reachable remotePort w fs →
     Forward.status fs = Forward.Looping → Forward.events fs = [] →
     (∀ u c, Forward.activeForwarding fs !! u = Some c → c ∉ Forward.closed fs) →
     let st := Forward.step remotePort Forward.Recv fs in
     Forward.status st = Forward.Waiting
     ∧ Forward.activeForwarding st = Forward.activeForwarding fs
     ∧ Forward.forwarding st = Forward.forwarding fs
     ∧ ∀ u c, Forward.activeForwarding fs !! u = Some c → c ∈ Forward.closed st)
  ∧ (Log.reachable l w ls' → Log.status ls' = Log.Returned r →
     Log.finished ls' ∧ ∀ lbl, Log.step l lbl ls' = ls')
  ∧ (Forward.reachable remotePort w fs' → Forward.status fs' = Forward.Returned r →
     Forward.finished fs' ∧ ∀ lbl, Forward.step remotePort lbl fs' = fs').
Proof.
  split; [|split; [|split]].
  - intros Hs He. cbn. by rewrite Hs, He.
  - intros Hreach Hs He Hopen st. subst st.
    pose proof (reachable_Inv remotePort w fs Hreach) as HI.
    pose proof (Looping_not_panicked fs Hs) as Hpan.
    destruct (foldr_close_all (map_to_list (Forward.activeForwarding fs)) fs)
      as (Hp' & Hs' & Hc'); [done|by apply tracked_channels_distinct| |].
    { intros [u c] Hin. apply elem_of_map_to_list in Hin. by apply (Hopen u). }
    destruct (Range_close_frame fs) as (Hm & Hf & _).
    unfold Forward.step. rewrite Hpan, Hs, He.
    change (foldr _ fs _) with (Forward.Range_close fs) in *.
    cbn zeta in *. rewrite Hp'. cbn. rewrite Hm, Hf.
    repeat split; try done.
    intros u c Hu. rewrite Hc'. apply elem_of_union_l, elem_of_list_to_set.
    apply list_elem_of_fmap. exists (u, c). split; [done|].
    by apply elem_of_map_to_list.
  - intros Hreach Hs.
    pose proof (Log_returned_finished l w ls' r Hreach Hs) as Hfin.
    split; [done|]. intros lbl. by apply (Log_settled_stays l ls' r).
  - intros Hreach Hs.
    pose proof (Forward_returned_finished remotePort w fs' r Hreach Hs) as Hfin.
    split; [done|]. intros lbl. by apply (Forward_settled_stays remotePort fs' r).
Qed.

Lemma stream_end_teardown_witness :
  let w := Watching [Fixture.on Added PodRunning] in
  let ls := Log.run Fixture.logger [Log.Recv; Log.Run 0 Log.nothing] (Log.Log w) in
  let fs := Forward.run 8080 [Forward.Recv] (Forward.RunE w) in
  let done_ := [Log.Recv; Log.Run 0 Log.nothing; Log.Recv;
                Log.Run 0 Log.nothing; Log.WaitReturns] in
  let ls' := Log.run Fixture.logger done_ (Log.Log w) in
  let fs' := Forward.run 8080
               [Forward.Recv; Forward.Recv;
                Forward.Run 0 (Forward.FreePort (Forward.Listens 40000 None));
                Forward.Run 0 (Forward.Tunnel (Forward.ForwardPortsReturns None));
                Forward.WaitReturns] (Forward.RunE w) in
  Log.step Fixture.logger Log.Recv ls = Log.with_status Log.Waiting ls
  ∧ Forward.status (Forward.step 8080 Forward.Recv fs) = Forward.Waiting
  ∧ Log.finished ls'
  ∧ Forward.finished fs'.
Proof.
  intros w ls fs done_ ls' fs'.
  destruct (stream_end_teardown Fixture.logger 8080 w ls ls' fs fs' None)
    as (HL & HF & HL' & HF').
  split; [|split; [|split]].
  - apply HL; reflexivity.
  - destruct HF as [HF _]; [|reflexivity|reflexivity| |exact HF].
    + apply (Forward.reachable_step 8080 w _ Forward.Recv),
        Forward.reachable_start.
    + intros u c _. change (c ∉ (∅ : gset nat)). apply not_elem_of_empty.
  - destruct HL' as [HL' _]; [|reflexivity|exact HL'].
    subst ls' done_. cbn [Log.run foldl].
    repeat apply Log.reachable_step. apply Log.reachable_start.
  - destruct HF' as [HF' _]; [|reflexivity|exact HF'].
    subst fs'. cbn [Forward.run foldl].
    repeat apply Forward.reachable_step. apply Forward.reachable_start.
Defined.

(** C7, counterexample.  When the log request of a session fails, what is
    reported on [kube] is the error alone: neither the name of the pod nor
    that of the container is in the message, for the bounded read as for
    the followed stream. *)
Lemma Log_error_report_without_identity :
  let once := Log.run Fixture.logger [Log.Recv; Log.Run 0 (Log.RequestFails "EOF")]
                (Log.Log (Watching [Fixture.on Added PodFailed])) in
  let followed := Log.run Fixture.logger
                    [Log.Recv; Log.Run 0 Log.nothing;
                     Log.Run 0 (Log.RequestFails "EOF")]
                    (Log.Log (Watching [Fixture.on Added PodRunning])) in
  Log.trace once
  = [(Goroutine 0, Log.GetLogs "default" "web-0" "app" false 3600);
     (Goroutine 0, Log.KubeErr "EOF")]
  ∧ Log.trace followed
    = [(Goroutine 0, Log.Store "u1" 0);
       (Goroutine 0, Log.GetLogs "default" "web-0" "app" true 3600);
       (Goroutine 0, Log.KubeErr "EOF");
       (Goroutine 0, Log.CallCancel 0)]
  ∧ Fixture.contains "web-0" "EOF" = false
  ∧ Fixture.contains "app" "EOF" = false.
Proof. repeat split; reflexivity. Qed.

(** C7, amended.  Both reconcilers return an error exactly when the pod
    watch could not be established (that error, under [watch pods: ] for
    the log reconciler).  After a watch that works, whenever they have
    returned the result is nil, and the end of the stream makes them
    return nil:
    - when the channel is closed the log reconciler leaves its loop; the
      port-forward reconciler leaves it as well when no stop channel in
      its map is closed already, and panics when one is (C9);
    - once the loop is left and every session has returned, [Wait]
      returns and the result is nil;
    - from every state the log reconciler can reach, and from every state
      the port-forward reconciler can reach without that panic, there is a
      continuation on which the function returns nil; after the panic
      nothing runs and nothing is returned.
    A goroutine, whatever the cluster or the network answers, leaves the
    status of the loop and the events still to come as they are.  A
    failed log request is reported on [kube] as the error alone; a failed
    port allocation as [get free port: ] and the error; a failed tunnel
    with the name of the pod. *)
Theorem reconcile_error_semantics `{LogHelpers} (l : Log.Logger) (remotePort : N)
    (w : WatchResult) (ls : Log.State) (fs : Forward.State)
    (r : option string) (i : nat) :
  ((Log.reachable l w ls → Log.status ls = Log.Returned r →
    (is_Some r ↔ ∃ err, w = WatchFails err))
   ∧ (∀ err, Log.status (Log.Log (WatchFails err))
             = Log.Returned (Some ("watch pods: " ++ err)))
   ∧ (∀ evs, w = Watching evs → Log.reachable l w ls →
        ∃ lbls, Log.status (Log.run l lbls ls) = Log.Returned None)
   ∧ (Log.status ls = Log.Looping → Log.events ls = [] →
      Log.status (Log.step l Log.Recv ls) = Log.Waiting)
   ∧ (Log.status ls = Log.Waiting → Log.finished ls →
      Log.status (Log.step l Log.WaitReturns ls) = Log.Returned None)
   ∧ (∀ a, Log.status (Log.step l (Log.Run i a) ls) = Log.status ls
           ∧ Log.events (Log.step l (Log.Run i a) ls) = Log.events ls)
   ∧ (∀ t err, Log.streaming ls !! i = Some t →
        let pod := Log.t_pod t in
        let ls' := Log.step l (Log.Run i (Log.RequestFails err)) ls in
        (Log.t_pc t = Log.Spawned → Phase pod ≠ PodRunning →
         Log.trace ls'
         = (Log.trace ls
            ++ [(Goroutine i, Log.GetLogs (Namespace pod) (Name pod)
                                (Log.t_container t) false (Log.since l));
                (Goroutine i, Log.KubeErr err)])%list)
        ∧ (Log.t_pc t = Log.Streaming →
           Log.trace ls'
           = (Log.trace ls
              ++ [(Goroutine i, Log.GetLogs (Namespace pod) (Name pod)
                                  (Log.t_container t) true (Log.since l));
                  (Goroutine i, Log.KubeErr err);
                  (Goroutine i, Log.CallCancel i)])%list)))
  ∧ ((Forward.reachable remotePort w fs → Forward.status fs = Forward.Returned r →
      (is_Some r ↔ ∃ err, w = WatchFails err))
     ∧ (∀ err, Forward.status (Forward.RunE (WatchFails err))
               = Forward.Returned (Some err))
     ∧ (∀ evs, w = Watching evs → Forward.reachable remotePort w fs →
          Forward.panicked fs = false →
          ∃ lbls, Forward.status (Forward.run remotePort lbls fs)
                  = Forward.Returned None)
     ∧ (Forward.reachable remotePort w fs →
        Forward.status fs = Forward.Looping → Forward.events fs = [] →
        ((∀ u c, Forward.activeForwarding fs !! u = Some c →
                 c ∉ Forward.closed fs) →
         Forward.status (Forward.step remotePort Forward.Recv fs)
         = Forward.Waiting)
        ∧ ((∃ u c, Forward.activeForwarding fs !! u = Some c
                   ∧ c ∈ Forward.closed fs) →
           Forward.status (Forward.step remotePort Forward.Recv fs)
           = Forward.Panicked "close of closed channel"))
     ∧ (Forward.status fs = Forward.Waiting → Forward.finished fs →
        Forward.status (Forward.step remotePort Forward.WaitReturns fs)
        = Forward.Returned None)
     ∧ (Forward.panicked fs = true →
        ∀ lbls, Forward.run remotePort lbls fs = fs)
     ∧ (∀ a, Forward.status (Forward.step remotePort (Forward.Run i a) fs)
             = Forward.status fs
             ∧ Forward.events (Forward.step remotePort (Forward.Run i a) fs)
               = Forward.events fs)
     ∧ (∀ t na ta effs err, Forward.forwarding fs !! i = Some t →
          Forward.panicked fs = false →
          let pod := Forward.t_pod t in
          (Forward.t_pc t = Forward.Spawned →
           Forward.GetFreePort na = (effs, inl err) →
           Forward.trace (Forward.step remotePort (Forward.Run i (Forward.FreePort na)) fs)
           = (Forward.trace fs
              ++ ((λ e, (Goroutine i, e)) <$>
                  (effs ++ [Forward.KubeErr ("get free port: " ++ err);
                            Forward.Delete (UID pod)])))%list)
          ∧ (∀ port, Forward.t_pc t = Forward.Forwarding port →
             Forward.listenPortForward pod i port remotePort ta = (effs, Some err) →
             Forward.trace (Forward.step remotePort (Forward.Run i (Forward.Tunnel ta)) fs)
             = (Forward.trace fs
                ++ ((λ e, (Goroutine i, e)) <$>
                    (effs ++ [Forward.KubeErr ("Port-forward for " ++ Name pod
                                               ++ " failed: " ++ err);
                              Forward.PoolRemove (Forward.backendOf port);
                              Forward.KubeWarn ("Forwarding to " ++ Name pod
                                                ++ " ended.");
                              Forward.Delete (UID pod)])))%list))).
Proof.
  split.
  - split; [|split; [|split; [|split; [|split; [|split]]]]].
    + intros Hreach Hs. apply Log_reachable_Settled in Hreach.
      destruct w as [err|evs]; cbn in Hreach.
      * subst ls. cbn in Hs. injection Hs as <-. split; eauto.
      * destruct (Hreach r Hs) as [-> _]. split.
        -- by intros [? ?].
        -- by intros [? ?].
    + done.
    + intros evs -> Hreach. apply Log_reachable_Settled in Hreach.
      cbn in Hreach.
      destruct (Log.status ls) as [| |r'] eqn:Hs.
      * apply Log_completes. by left.
      * apply Log_completes. by right.
      * destruct (Hreach r' eq_refl) as [-> _]. by exists [].
    + intros Hs He. cbn. by rewrite Hs, He.
    + intros Hs Hfin. cbn. rewrite Hs.
      apply Log_all_finished in Hfin. by rewrite Hfin.
    + intros a. destruct (Log_Run_frame l i a ls) as (He & Hs & _). by split.
    + intros t err Hi pod ls'. subst pod ls'. cbn [Log.step]. rewrite Hi.
      unfold Log.goroutine. split.
      * intros -> Hph. rewrite bool_decide_eq_false_2 by done. done.
      * intros ->. cbn. by rewrite <- app_assoc.
  - split; [|split; [|split; [|split; [|split; [|split; [|split]]]]]].
    + intros Hreach Hs. apply Forward_reachable_Settled in Hreach.
      destruct w as [err|evs]; cbn in Hreach.
      * subst fs. cbn in Hs. injection Hs as <-. split; eauto.
      * destruct (Hreach r Hs) as [-> _]. split.
        -- by intros [? ?].
        -- by intros [? ?].
    + done.
    + intros evs -> Hreach Hpan.
      pose proof (reachable_Inv remotePort _ _ Hreach) as HI.
      apply Forward_reachable_Settled in Hreach. cbn in Hreach.
      destruct (Forward.status fs) as [| |r'|m] eqn:Hs.
      * apply Forward_completes; [done|by left].
      * apply Forward_completes; [done|by right].
      * destruct (Hreach r' eq_refl) as [-> _]. by exists [].
      * unfold Forward.panicked in Hpan. by rewrite Hs in Hpan.
    + intros Hreach Hs He. apply Forward_stream_end; try done.
      by eapply reachable_Inv.
    + intros Hs Hfin. unfold Forward.step, Forward.panicked. rewrite Hs.
      apply Forward_all_finished in Hfin. by rewrite Hfin.
    + intros Hpan lbls. by apply Forward_panicked_stays.
    + intros a. destruct (Forward_Run_frame remotePort i a fs) as (He & Hs & _).
      by split.
    + intros t na ta effs err Hi Hpan pod. subst pod.
      split.
      * intros Hpc Hport.
        rewrite (step_Run_at remotePort i _ fs t Hpan Hi).
        unfold Forward.goroutine. rewrite Hpc, Hport. cbn.
        rewrite !fmap_app, <- !app_assoc. reflexivity.
      * intros port Hpc Hlisten.
        rewrite (step_Run_at remotePort i _ fs t Hpan Hi).
        unfold Forward.goroutine. rewrite Hpc, Hlisten. cbn.
        rewrite !fmap_app, <- !app_assoc. reflexivity.
Qed.

Lemma reconcile_error_semantics_witness :
  let w := WatchFails "forbidden" in
  let w' := Watching [Fixture.on Added PodRunning; Fixture.on Deleted PodRunning] in
  let fs := Forward.run 8080
              [Forward.Recv;
               Forward.Run 0 (Forward.FreePort (Forward.Listens 40000 None))]
              (Forward.RunE (Watching [Fixture.on Added PodRunning])) in
  let stopped := Forward.run 8080 [Forward.Recv; Forward.Recv] (Forward.RunE w') in
  let ls := Log.run Fixture.logger [Log.Recv; Log.Recv] (Log.Log w') in
  (is_Some (Some "watch pods: forbidden") ↔ ∃ err, w = WatchFails err)
  ∧ (is_Some (Some "forbidden") ↔ ∃ err, w = WatchFails err)
  ∧ Forward.trace
      (Forward.step 8080
         (Forward.Run 0 (Forward.Tunnel (Forward.TransportFails "tls"))) fs)
    = (Forward.trace fs
       ++ [(Goroutine 0,
            Forward.KubeErr "Port-forward for web-0 failed: transport: tls");
           (Goroutine 0, Forward.PoolRemove "127.0.0.1:40000");
           (Goroutine 0, Forward.KubeWarn "Forwarding to web-0 ended.");
           (Goroutine 0, Forward.Delete "u1")])%list
  ∧ (∃ lbls, Forward.status (Forward.run 8080 lbls stopped) = Forward.Returned None)
  ∧ Forward.status (Forward.step 8080 Forward.Recv stopped)
    = Forward.Panicked "close of closed channel"
  ∧ (∀ lbls, Forward.run 8080 lbls (Forward.step 8080 Forward.Recv stopped)
             = Forward.step 8080 Forward.Recv stopped)
  ∧ (∃ lbls, Log.status (Log.run Fixture.logger lbls ls) = Log.Returned None)
  ∧ Log.status (Log.step Fixture.logger Log.Recv ls) = Log.Waiting.
Proof.
  intros w w' fs stopped ls.
  destruct (reconcile_error_semantics Fixture.logger 8080 w (Log.Log w)
              (Forward.RunE w) (Some "watch pods: forbidden") 0) as [[HL _] _].
  destruct (reconcile_error_semantics Fixture.logger 8080 w (Log.Log w)
              (Forward.RunE w) (Some "forbidden") 0) as [_ [HF _]].
  destruct (reconcile_error_semantics Fixture.logger 8080 w (Log.Log w)
              fs None 0) as [_ (_ & _ & _ & _ & _ & _ & _ & HT)].
  destruct (reconcile_error_semantics Fixture.logger 8080 w' ls stopped None 0)
    as [(_ & _ & HLret & HLend & _) (_ & _ & HFret & HFend & _)].
  destruct (reconcile_error_semantics Fixture.logger 8080 w' ls
              (Forward.step 8080 Forward.Recv stopped) None 0)
    as [_ (_ & _ & _ & _ & _ & HFpan & _)].
  assert (Forward.reachable 8080 w' stopped) as Hreach.
  { subst stopped. cbn [Forward.run foldl].
    repeat apply Forward.reachable_step. apply Forward.reachable_start. }
  split; [|split; [|split; [|split; [|split; [|split; [|split]]]]]].
  - apply HL; [apply Log.reachable_start|reflexivity].
  - apply HF; [apply Forward.reachable_start|reflexivity].
  - destruct (HT {| Forward.t_pod := Fixture.pod PodRunning;
                    Forward.t_pc := Forward.Forwarding 40000 |}
                (Forward.Listens 40000 None) (Forward.TransportFails "tls")
                [] "transport: tls" eq_refl eq_refl) as [_ HT'].
    exact (HT' 40000%N eq_refl eq_refl).
  - apply (HFret _ eq_refl Hreach). reflexivity.
  - destruct (HFend Hreach eq_refl eq_refl) as [_ Hpanic].
    apply Hpanic. exists "u1", 0%nat. split; [reflexivity|].
    vm_compute. set_solver.
  - apply HFpan. reflexivity.
  - apply (HLret _ eq_refl). subst ls. cbn [Log.run foldl].
    repeat apply Log.reachable_step. apply Log.reachable_start.
  - apply HLend; reflexivity.
Defined.

(** C8.  In every state the port-forward reconciler can reach, goroutine
    [i], started for pod [uid]:
    - has made the calls of [session_calls]: none before it runs; one
      [pool.Add] while it forwards; once returned, either no call on the
      pool or [Add] then [Remove] of the same backend, and exactly one call
      on the map, [Delete uid], the last thing it did;
    - as long as it has not returned, the entry of [uid] in the map is its
      own stop channel;
    - when a step makes it return, that step deletes the entry of [uid]
      and, if a backend was registered, removes it from the pool; if the
      port allocation failed the pool is as before;
    - when the port allocation fails, its next step reports the error,
      deletes the entry of [uid], leaves the pool as it is, and the
      goroutine has returned;
    - when a port is found, its next step adds the backend of that port
      to the pool and the goroutine forwards;
    - when [listenPortForward] returns, with an error of the transport or
      of the dial, with an error of [ForwardPorts], or with none after
      the stop channel was closed, its next step removes the backend from
      the pool, deletes the entry of [uid], and the goroutine has
      returned.
    The goroutine of the variant without a pool makes no call on a pool
    and ends with [Delete] of its pod's entry, with or without an error of
    the tunnel. *)
Theorem session_cleanup (remotePort : N) (w : WatchResult) (st : Forward.State)
    (i : nat) (t : Forward.Task) (a : Forward.Answer)
    (pod : Pod) (stopChan : nat) (localPort : N) (ta : Forward.TunnelAnswer) :
  (Forward.reachable remotePort w st → Forward.forwarding st !! i = Some t →
   let uid := UID (Forward.t_pod t) in
   let returned := {| Forward.t_pod := Forward.t_pod t;
                      Forward.t_pc := Forward.Finished |} in
   Forward.session_calls uid (Forward.t_pc t)
     (Forward.effects_of (Goroutine i) (Forward.trace st))
   ∧ (Forward.t_pc t ≠ Forward.Finished →
      Forward.activeForwarding st !! uid = Some i)
   ∧ (Forward.panicked st = false → Forward.t_pc t ≠ Forward.Finished →
      let st' := Forward.step remotePort (Forward.Run i a) st in
      ∀ t', Forward.forwarding st' !! i = Some t' →
            Forward.t_pc t' = Forward.Finished →
            Forward.activeForwarding st' = delete uid (Forward.activeForwarding st)
            ∧ Forward.activeForwarding st' !! uid = None
            ∧ Forward.pool st'
              = match Forward.t_pc t with
                | Forward.Forwarding port =>
                    filter (λ b, b ≠ Forward.backendOf port) (Forward.pool st)
                | _ => Forward.pool st
                end)
   ∧ (∀ na effs err,
        Forward.panicked st = false → Forward.t_pc t = Forward.Spawned →
        Forward.GetFreePort na = (effs, inl err) →
        let st' := Forward.step remotePort (Forward.Run i (Forward.FreePort na)) st in
        Forward.forwarding st' !! i = Some returned
        ∧ Forward.activeForwarding st' = delete uid (Forward.activeForwarding st)
        ∧ Forward.activeForwarding st' !! uid = None
        ∧ Forward.pool st' = Forward.pool st
        ∧ Forward.effects_of (Goroutine i) (Forward.trace st')
          = (effs ++ [Forward.KubeErr ("get free port: " ++ err);
                      Forward.Delete uid])%list)
   ∧ (∀ na effs port,
        Forward.panicked st = false → Forward.t_pc t = Forward.Spawned →
        Forward.GetFreePort na = (effs, inr port) →
        let st' := Forward.step remotePort (Forward.Run i (Forward.FreePort na)) st in
        Forward.forwarding st' !! i
        = Some {| Forward.t_pod := Forward.t_pod t;
                  Forward.t_pc := Forward.Forwarding port |}
        ∧ Forward.activeForwarding st' = Forward.activeForwarding st
        ∧ Forward.pool st' = (Forward.pool st ++ [Forward.backendOf port])%list)
   ∧ (∀ port ta',
        Forward.panicked st = false →
        Forward.t_pc t = Forward.Forwarding port →
        let st' := Forward.step remotePort (Forward.Run i (Forward.Tunnel ta')) st in
        Forward.forwarding st' !! i = Some returned
        ∧ Forward.activeForwarding st' = delete uid (Forward.activeForwarding st)
        ∧ Forward.activeForwarding st' !! uid = None
        ∧ Forward.pool st'
          = filter (λ b, b ≠ Forward.backendOf port) (Forward.pool st)
        ∧ (Forward.backendOf port ∉ Forward.pool st')
        ∧ Forward.pool_calls
            (Forward.effects_of (Goroutine i) (Forward.trace st'))
          = [Forward.PoolAdd (Forward.backendOf port);
             Forward.PoolRemove (Forward.backendOf port)]
        ∧ last (Forward.effects_of (Goroutine i) (Forward.trace st'))
          = Some (Forward.Delete uid)))
  ∧ (let effs := Forward.fixed_port_goroutine pod stopChan localPort remotePort ta in
     Forward.pool_calls effs = []
     ∧ Forward.map_calls effs = [Forward.Delete (UID pod)]
     ∧ last effs = Some (Forward.Delete (UID pod))).
Proof.
  split.
  - intros Hreach Hi uid returned. subst uid returned.
    destruct (reachable_Calls remotePort w st Hreach) as [HC _].
    destruct (reachable_Inv remotePort w st Hreach) as [_ HI].
    split; [by apply HC|]. split; [by apply HI|].
    split; [|split; [|split]].
    + intros Hpan Hlive st' t' Hi' Hfin. subst st'.
      rewrite (step_Run_at remotePort i a st t Hpan Hi) in Hi' |- *.
      unfold Forward.goroutine in Hi' |- *.
      destruct (Forward.t_pc t) as [|port|] eqn:Hpc, a as [na|ta'];
        try (rewrite Hi in Hi'; congruence).
      * destruct (Forward.GetFreePort na) as [effs [err|port]].
        -- cbn. by rewrite lookup_delete_eq.
        -- cbn in Hi'. rewrite list_lookup_alter_eq, Hi in Hi'.
           cbn in Hi'. injection Hi' as <-. done.
      * destruct (Forward.listenPortForward _ _ _ _ _) as [effs err].
        cbn. by rewrite lookup_delete_eq.
    + intros na effs err Hpan Hpc Hport st'. subst st'.
      specialize (HC i t Hi). rewrite Hpc in HC. cbn in HC.
      rewrite (step_Run_at remotePort i _ st t Hpan Hi).
      unfold Forward.goroutine. rewrite Hpc, Hport.
      cbn [Forward.forwarding Forward.activeForwarding Forward.pool
           Forward.trace Forward.set_pc Forward.delete_ Forward.emit].
      rewrite list_lookup_alter_eq, Hi, lookup_delete_eq.
      repeat (split; [done|]).
      rewrite <- app_assoc, <- fmap_app, effects_of_app, effects_of_self, HC.
      by rewrite <- app_assoc.
    + intros na effs port Hpan Hpc Hport st'. subst st'.
      rewrite (step_Run_at remotePort i _ st t Hpan Hi).
      unfold Forward.goroutine. rewrite Hpc, Hport. cbn.
      by rewrite list_lookup_alter_eq, Hi.
    + intros port ta' Hpan Hpc st'. subst st'.
      specialize (HC i t Hi). rewrite Hpc in HC. cbn in HC.
      destruct HC as [HCpool _].
      rewrite (step_Run_at remotePort i _ st t Hpan Hi).
      unfold Forward.goroutine. rewrite Hpc.
      assert (Forward.pool_calls
                (Forward.listenPortForward (Forward.t_pod t) i port remotePort ta').1
              = []) as Hquiet by by destruct ta'.
      destruct (Forward.listenPortForward _ _ _ _ _) as [effs err].
      cbn [Forward.forwarding Forward.activeForwarding Forward.pool
           Forward.trace Forward.set_pc Forward.delete_ Forward.emit
           Forward.pool_Remove].
      rewrite list_lookup_alter_eq, Hi, lookup_delete_eq.
      repeat (split; [done|]).
      split.
      { rewrite list_elem_of_filter. by intros [? _]. }
      rewrite <- !app_assoc, <- !fmap_app, effects_of_app, effects_of_self.
      split.
      * unfold Forward.pool_calls in *. rewrite !filter_app, HCpool.
        cbn in Hquiet. rewrite Hquiet. by destruct err.
      * by rewrite !app_assoc, last_snoc.
  - cbn zeta. unfold Forward.fixed_port_goroutine.
    destruct ta as [e|e|[e|]]; cbn; repeat split; reflexivity.
Qed.

Lemma session_cleanup_witness :
  let w := Watching [Fixture.on Added PodRunning] in
  let started := Forward.run 8080 [Forward.Recv] (Forward.RunE w) in
  let refused := Forward.step 8080
                   (Forward.Run 0 (Forward.FreePort (Forward.ListenFails "in use")))
                   started in
  let st := Forward.step 8080
              (Forward.Run 0 (Forward.FreePort (Forward.Listens 40000 None)))
              started in
  let st' := Forward.step 8080
               (Forward.Run 0 (Forward.Tunnel (Forward.TransportFails "tls"))) st in
  let stopped := Forward.step 8080
                   (Forward.Run 0 (Forward.Tunnel (Forward.ForwardPortsReturns None)))
                   st in
  Forward.activeForwarding st !! "u1" = Some 0
  ∧ Forward.pool st = ["127.0.0.1:40000"]
  ∧ Forward.activeForwarding st' !! "u1" = None
  ∧ Forward.pool st' = filter (λ b, b ≠ "127.0.0.1:40000") (Forward.pool st)
  ∧ (Forward.activeForwarding refused !! "u1" = None
     ∧ Forward.pool refused = []
     ∧ Forward.effects_of (Goroutine 0) (Forward.trace refused)
       = [Forward.KubeErr "get free port: listen tcp: in use";
          Forward.Delete "u1"])
  ∧ (Forward.activeForwarding stopped !! "u1" = None
     ∧ ("127.0.0.1:40000" ∉ Forward.pool stopped)
     ∧ last (Forward.effects_of (Goroutine 0) (Forward.trace stopped))
       = Some (Forward.Delete "u1")).
Proof.
  intros w started refused st st' stopped.
  destruct (session_cleanup 8080 w st 0
              {| Forward.t_pod := Fixture.pod PodRunning;
                 Forward.t_pc := Forward.Forwarding 40000 |}
              (Forward.Tunnel (Forward.TransportFails "tls"))
              (Fixture.pod PodRunning) 0 8081
              (Forward.TransportFails "tls")) as [HS _].
  destruct (session_cleanup 8080 w started 0
              {| Forward.t_pod := Fixture.pod PodRunning;
                 Forward.t_pc := Forward.Spawned |}
              (Forward.FreePort (Forward.ListenFails "in use"))
              (Fixture.pod PodRunning) 0 8081
              (Forward.TransportFails "tls")) as [HS0 _].
  destruct HS as (_ & Hown & Hret & _ & _ & Hexit).
  { subst st started. cbn [Forward.run foldl].
    repeat apply Forward.reachable_step. apply Forward.reachable_start. }
  { reflexivity. }
  destruct HS0 as (_ & _ & _ & Herr & _).
  { subst started. cbn [Forward.run foldl].
    repeat apply Forward.reachable_step. apply Forward.reachable_start. }
  { reflexivity. }
  split; [apply Hown; discriminate|]. split; [reflexivity|].
  destruct (Hret eq_refl ltac:(discriminate)
              {| Forward.t_pod := Fixture.pod PodRunning;
                 Forward.t_pc := Forward.Finished |} eq_refl eq_refl)
    as (_ & Hgone & Hpool).
  split; [exact Hgone|]. split; [exact Hpool|].
  split.
  - destruct (Herr (Forward.ListenFails "in use") [] "listen tcp: in use"
                eq_refl eq_refl eq_refl) as (_ & _ & Hnone & Hsame & Hsaid).
    split; [exact Hnone|]. split; [exact Hsame|exact Hsaid].
  - destruct (Hexit 40000%N (Forward.ForwardPortsReturns None) eq_refl eq_refl)
      as (_ & _ & Hnone & _ & Hout & _ & Hlast).
    split; [exact Hnone|]. split; [exact Hout|exact Hlast].
Defined.

(** C9.  In the port-forward reconciler a second event that asks to stop
    a pod whose entry is still in the map closes the stop channel a second
    time, and the close panics: a [Modified] event in phase [Failed]
    followed by [Deleted], or a [Deleted] event followed by the end of the
    stream, before the goroutine has returned.  The loop has then stored
    and closed the channel once, and the last thing it does is the
    deferred stop of the watcher, run by the panic.  When the goroutine
    has returned in between, nothing is closed twice. *)
Theorem Forward_second_close_panics :
  let failed_then_deleted :=
    Watching [Fixture.on Added PodRunning; Fixture.on Modified PodFailed;
              Fixture.on Deleted PodFailed] in
  let deleted_then_end :=
    Watching [Fixture.on Added PodRunning; Fixture.on Deleted PodRunning] in
  let three := [Forward.Recv; Forward.Recv; Forward.Recv] in
  let prompt :=
    [Forward.Recv; Forward.Recv;
     Forward.Run 0 (Forward.FreePort (Forward.Listens 40000 None));
     Forward.Run 0 (Forward.Tunnel (Forward.ForwardPortsReturns None));
     Forward.Recv; Forward.Recv; Forward.WaitReturns] in
  Forward.status (Forward.run 8080 three (Forward.RunE failed_then_deleted))
  = Forward.Panicked "close of closed channel"
  ∧ Forward.status (Forward.run 8080 three (Forward.RunE deleted_then_end))
    = Forward.Panicked "close of closed channel"
  ∧ Forward.effects_of Consumer
      (Forward.trace (Forward.run 8080 three (Forward.RunE failed_then_deleted)))
    = [Forward.Store "u1" 0; Forward.Close 0; Forward.WatcherStop]
  ∧ Forward.status (Forward.run 8080 prompt (Forward.RunE failed_then_deleted))
    = Forward.Returned None.
Proof. repeat split; reflexivity. Qed.

(** ** The log reconciler: dry run *)

Section LogDryRun.
Context `{LogHelpers}.
Import Log.
Variable l : Logger.
Hypothesis Hdry : dryRun l = true.

Lemma handlePod_range_dry_trace (pod : Pod) (cs : list Container) (st : State) :
  trace (handlePod_range l pod cs st)
  = (trace st
     ++ ((λ e, (Consumer, e)) <$>
         ((λ c, KubeInfo (podPrefix (Name pod) (c_Name c) ++ " Found!"))
          <$> filter (λ c, isContainerSelected l c = true) cs)))%list.
Proof.
  revert st. induction cs as [|c cs IH]; intros st.
  - cbn. by rewrite app_nil_r.
  - cbn [handlePod_range]. rewrite IH, filter_cons, Hdry.
    destruct (isContainerSelected l c) eqn:Hsel; cbn [negb].
    + rewrite decide_True by done. cbn [trace emit].
      rewrite !fmap_cons, <- app_assoc. reflexivity.
    + by rewrite decide_False by done.
Qed.

Lemma handlePod_dry (pod : Pod) (st : State) :
  streaming (handlePod l pod st) = streaming st
  ∧ trace (handlePod l pod st)
    = (trace st ++ ((λ e, (Consumer, e)) <$> found_lines l pod))%list.
Proof.
  split.
  - rewrite handlePod_streaming. unfold sessions_for. rewrite Hdry.
    apply app_nil_r.
  - apply handlePod_range_dry_trace.
Qed.

(** With nothing tracked, a turn of a dry run only prints. *)
Lemma Log_event_dry (event : Event) (st : State) :
  activeStreams st = ∅ →
  let st' := Log_event l event st in
  streaming st' = streaming st ∧ activeStreams st' = ∅
  ∧ cancelled st' = cancelled st
  ∧ trace st' = (trace st ++ ((λ e, (Consumer, e)) <$> dry_found l event))%list.
Proof.
  intros Hm. unfold Log_event, dry_found, reaches_handlePod.
  destruct (Object_ event) as [pod|]; cbn zeta.
  2:{ by rewrite app_nil_r. }
  rewrite Hm, lookup_empty.
  destruct (handlePod_dry pod st) as [Hs Ht].
  destruct (handlePod_frame l pod st) as (_ & Ha & Hc & _).
  rewrite (bool_decide_eq_false_2 (is_Some (@None nat)))
    by (by intros [? ?]).
  destruct (bool_decide (Phase pod = PodSucceeded)) eqn:HS;
    destruct (bool_decide (Phase pod = PodFailed)) eqn:HF;
    destruct (bool_decide (Type_ event = Deleted)) eqn:HD;
    destruct (bool_decide (Type_ event = Error)) eqn:HE;
    destruct (bool_decide (Phase pod = PodPending)) eqn:HP;
    cbn [orb]; rewrite ?Hs, ?Ha, ?Hc, ?Ht, ?Hm, ?app_nil_r; done.
Qed.

Lemma dry_step (lbl : Label) (st : State) :
  streaming st = [] → activeStreams st = ∅ → cancelled st = ∅ →
  streaming (step l lbl st) = [] ∧ activeStreams (step l lbl st) = ∅
  ∧ cancelled (step l lbl st) = ∅.
Proof.
  intros Hs Hm Hc. destruct lbl as [|i a|]; cbn [step].
  - destruct (status st); try done.
    destruct (events st) as [|event rest]; [done|].
    destruct (Log_event_dry event (with_events rest st) Hm) as (Hs' & Hm' & Hc' & _).
    cbn zeta in *. by rewrite Hs', Hm', Hc'.
  - by rewrite Hs.
  - destruct (status st); try done. by destruct (all_finished st).
Qed.

Lemma dry_recv_all (evs : list Event) (st : State) :
  status st = Looping → events st = evs →
  streaming st = [] → activeStreams st = ∅ →
  let st' := run l (replicate (S (length evs)) Recv) st in
  status st' = Waiting ∧ streaming st' = []
  ∧ trace st'
    = (trace st ++ ((λ e, (Consumer, e)) <$> flat_map (dry_found l) evs))%list.
Proof.
  revert st. induction evs as [|event rest IH]; intros st Hst Hev Hs Hm.
  - cbn. rewrite Hst, Hev. cbn. by rewrite app_nil_r.
  - change (replicate (S (length (event :: rest))) Recv)
      with (Recv :: replicate (S (length rest)) Recv).
    cbn [run foldl].
    assert (step l Recv st = Log_event l event (with_events rest st)) as ->.
    { cbn. by rewrite Hst, Hev. }
    destruct (Log_event_dry event (with_events rest st) Hm) as (Hs' & Hm' & _ & Ht').
    destruct (Log_event_frame l event (with_events rest st)) as [He' Hst'].
    cbn zeta in *.
    destruct (IH (Log_event l event (with_events rest st))) as (H1 & H2 & H3).
    + by rewrite Hst'.
    + by rewrite He'.
    + by rewrite Hs'.
    + done.
    + split; [done|]. split; [done|].
      change (foldl (λ s lbl, step l lbl s) ?x ?ls) with (run l ls x) in *.
      rewrite H3, Ht'. cbn [flat_map trace with_events].
      by rewrite fmap_app, app_assoc.
Qed.

(** X1.  A dry run starts no session: in every state the reconciler can
    reach no goroutine has been started, the map is empty and no cancel
    function has been called.  Receiving every event and waiting returns
    nil, and what was done is one [Found!] line for each selected
    container of each event that reaches [handlePod], in the order of the
    events, then the stop of the watcher: a pod is announced again at each
    of its events. *)
Theorem dry_run_only_prints (w : WatchResult) (st : State) (evs : list Event) :
  (reachable l w st →
   streaming st = [] ∧ activeStreams st = ∅ ∧ cancelled st = ∅)
  ∧ (let st' := run l (replicate (S (length evs)) Recv ++ [WaitReturns])
                  (Log (Watching evs)) in
     status st' = Returned None
     ∧ trace st'
       = ((λ e, (Consumer, e)) <$>
          (flat_map (dry_found l) evs ++ [WatcherStop]))%list).
Proof.
  split.
  - induction 1 as [|st lbl _ IH].
    + by destruct w.
    + destruct IH as (Hs & Hm & Hc). by apply dry_step.
  - cbn zeta. unfold run. rewrite foldl_app.
    destruct (dry_recv_all evs (Log (Watching evs))) as (Hst & Hs & Ht); try done.
    cbn zeta in *. unfold run in *.
    set (st1 := foldl _ _ (replicate _ _)) in *.
    cbn [foldl step]. rewrite Hst. unfold all_finished. rewrite Hs.
    cbn [forallb status trace with_status emit]. rewrite Ht.
    split; [done|]. cbn [Log trace]. by rewrite fmap_app.
Qed.

End LogDryRun.

Lemma dry_run_only_prints_witness :
  let l := Log.WithDryRun Fixture.logger true in
  let evs := [Fixture.on2 Added PodRunning; Fixture.on2 Modified PodRunning] in
  let st := Log.run l [Log.Recv; Log.Run 0 Log.nothing; Log.Recv]
              (Log.Log (Watching evs)) in
  (Log.streaming st = [] ∧ Log.activeStreams st = ∅ ∧ Log.cancelled st = ∅)
  ∧ Log.effects_of Consumer
      (Log.trace (Log.run l [Log.Recv; Log.Recv; Log.Recv; Log.WaitReturns]
                    (Log.Log (Watching evs))))
    = [Log.KubeInfo "[job-7/init] Found!"; Log.KubeInfo "[job-7/main] Found!";
       Log.KubeInfo "[job-7/init] Found!"; Log.KubeInfo "[job-7/main] Found!";
       Log.WatcherStop].
Proof.
  intros l evs st.
  destruct (dry_run_only_prints l eq_refl (Watching evs) st evs) as [HI HR].
  split.
  - apply HI. subst st. cbn [Log.run foldl].
    repeat apply Log.reachable_step. apply Log.reachable_start.
  - destruct HR as [_ HR]. cbn zeta in HR.
    change (replicate (S (length evs)) Log.Recv ++ [Log.WaitReturns])%list
      with [Log.Recv; Log.Recv; Log.Recv; Log.WaitReturns] in HR.
    rewrite HR. reflexivity.
Defined.

(** ** The log reconciler: the entries of the map and the cancel functions *)

Section LogInvariant.
Context `{LogHelpers}.
Import Log.
Variable l : Logger.

(** More goroutines at the end change nothing for those before. *)
Lemma Log_Inv_grow (st st' : State) (new : list Task) :
  activeStreams st' = activeStreams st → cancelled st' = cancelled st →
  streaming st' = (streaming st ++ new)%list →
  Forall (λ t, t_pc t = Spawned) new →
  Inv st → Inv st'.
Proof.
  intros Hm Hc Hs Hnew [H1 H2 H3 H4]. rewrite Forall_forall in Hnew.
  split; rewrite ?Hm, ?Hc, ?Hs.
  - intros u c Hu. destruct (H1 u c Hu) as (t & Ht & ?).
    exists t. split; [by apply lookup_app_l_Some|done].
  - intros c Hin. destruct (H2 c Hin) as (t & Ht & ?).
    exists t. split; [by apply lookup_app_l_Some|done].
  - intros i t Hi Hpc.
    apply lookup_app_Some in Hi as [Hi|[_ Hi]]; [by eapply H3|].
    apply list_elem_of_lookup_2 in Hi. specialize (Hnew t Hi). congruence.
  - intros i t Hi Hpc Hph.
    apply lookup_app_Some in Hi as [Hi|[_ Hi]]; [by eapply H4|].
    apply list_elem_of_lookup_2 in Hi. specialize (Hnew t Hi). congruence.
Qed.

Lemma sessions_for_Spawned (pod : Pod) :
  Forall (λ t, t_pc t = Spawned) (sessions_for l pod).
Proof.
  apply Forall_forall. intros t Hin.
  by destruct (sessions_for_spawned l pod t Hin).
Qed.

Lemma handlePod_Inv (pod : Pod) (st : State) :
  Inv st → Inv (handlePod l pod st).
Proof.
  destruct (handlePod_frame l pod st) as (_ & Hm & Hc & _).
  apply (Log_Inv_grow st _ (sessions_for l pod)); try done.
  - apply handlePod_streaming.
  - apply sessions_for_Spawned.
Qed.

Lemma Log_event_Inv (event : Event) (st : State) :
  Inv st → Inv (Log_event l event st).
Proof.
  intros HI. unfold Log_event.
  destruct (Object_ event) as [pod|]; [|done].
  destruct (activeStreams st !! UID pod) as [c|] eqn:Hc.
  - case_match; [|by rewrite bool_decide_eq_true_2 by eauto].
    destruct HI as [H1 H2 H3 H4]. split; cbn.
    + intros u c' Hu. apply lookup_delete_Some in Hu as [_ Hu]. by apply H1.
    + intros c' [->%elem_of_singleton|Hin]%elem_of_union; [|by apply H2].
      destruct (H1 _ _ Hc) as (t & Ht & _ & Hph & Hpc). by exists t.
    + done.
    + intros i t Hi Hpc Hph. apply elem_of_union_r. by eapply H4.
  - repeat case_match; try done; by apply handlePod_Inv.
Qed.

(** Goroutine [i] moves to [pc] (not [Spawned]); the others stay. *)
Lemma set_pc_others (i : nat) (t : Task) (pc : Pc) (st : State) (c : nat) (t' : Task) :
  streaming st !! i = Some t → pc ≠ Spawned →
  streaming st !! c = Some t' → t_pc t' ≠ Spawned →
  ∃ t'', streaming (set_pc i pc st) !! c = Some t''
         ∧ t_pod t'' = t_pod t' ∧ t_pc t'' ≠ Spawned.
Proof.
  intros Hi Hpc Hc Hpc'. cbn. destruct (decide (i = c)) as [<-|Hne].
  - exists (at_pc pc t). rewrite list_lookup_alter_eq, Hi.
    assert (t' = t) as -> by congruence. done.
  - exists t'. by rewrite list_lookup_alter_ne.
Qed.

Lemma Log_goroutine_Inv (i : nat) (t : Task) (a : Answer) (st : State) :
  streaming st !! i = Some t → Inv st → Inv (goroutine l i t a st).
Proof.
  intros Hi [H1 H2 H3 H4]. unfold goroutine.
  destruct (t_pc t) eqn:Hpc; [|..].
  - case_bool_decide as Hph; cbn [negb].
    + (* the goroutine stores its cancel function *)
      split; cbn.
      * intros u c Hu. destruct (decide (u = UID (t_pod t))) as [->|Hne].
        -- rewrite lookup_insert_eq in Hu. injection Hu as <-.
           exists (at_pc Streaming t). by rewrite list_lookup_alter_eq, Hi.
        -- rewrite lookup_insert_ne in Hu by done.
           destruct (H1 u c Hu) as (t' & Ht' & Hu' & Hph' & Hpc').
           exists t'. split; [|done].
           rewrite list_lookup_alter_ne; [done|]. intros <-. congruence.
      * intros c Hin. destruct (H2 c Hin) as (t' & Ht' & Hph' & Hpc').
        exists t'. split; [|done].
        rewrite list_lookup_alter_ne; [done|]. intros <-. congruence.
      * intros j t' Hj Hs. destruct (decide (i = j)) as [<-|Hne].
        -- rewrite list_lookup_alter_eq, Hi in Hj. cbn in Hj.
           by injection Hj as <-.
        -- rewrite list_lookup_alter_ne in Hj by done. by eapply H3.
      * intros j t' Hj Hfin Hph'. destruct (decide (i = j)) as [<-|Hne].
        -- rewrite list_lookup_alter_eq, Hi in Hj. cbn in Hj.
           injection Hj as <-. done.
        -- rewrite list_lookup_alter_ne in Hj by done. by eapply H4.
    + (* the bounded read *)
      split; cbn.
      * intros u c Hu. destruct (H1 u c Hu) as (t' & Ht' & Hu' & Hph' & Hpc').
        exists t'. split; [|done].
        rewrite list_lookup_alter_ne; [done|]. intros <-. congruence.
      * intros c Hin. destruct (H2 c Hin) as (t' & Ht' & Hph' & Hpc').
        exists t'. split; [|done].
        rewrite list_lookup_alter_ne; [done|]. intros <-. congruence.
      * intros j t' Hj Hs. destruct (decide (i = j)) as [<-|Hne].
        -- rewrite list_lookup_alter_eq, Hi in Hj. cbn in Hj.
           by injection Hj as <-.
        -- rewrite list_lookup_alter_ne in Hj by done. by eapply H3.
      * intros j t' Hj Hfin Hph'. destruct (decide (i = j)) as [<-|Hne].
        -- rewrite list_lookup_alter_eq, Hi in Hj. cbn in Hj.
           injection Hj as <-. done.
        -- rewrite list_lookup_alter_ne in Hj by done. by eapply H4.
  - (* the stream ends: the deferred cancel *)
    pose proof (H3 i t Hi Hpc) as Hrun.
    split; cbn.
    + intros u c Hu. destruct (H1 u c Hu) as (t' & Ht' & Hu' & Hph' & Hpc').
      destruct (set_pc_others i t Finished st c t' Hi ltac:(done) Ht' Hpc')
        as (t'' & Ht'' & Hpod & Hpc'').
      exists t''. cbn in Ht''. by rewrite Hpod.
    + intros c Hin.
      assert (∃ t', streaming st !! c = Some t'
                    ∧ Phase (t_pod t') = PodRunning ∧ t_pc t' ≠ Spawned)
        as (t' & Ht' & Hph' & Hpc').
      { apply elem_of_union in Hin as [->%elem_of_singleton|Hin].
        - exists t. by rewrite Hpc.
        - by apply H2. }
      destruct (set_pc_others i t Finished st c t' Hi ltac:(done) Ht' Hpc')
        as (t'' & Ht'' & Hpod & Hpc'').
      exists t''. cbn in Ht''. by rewrite Hpod.
    + intros j t' Hj Hs. destruct (decide (i = j)) as [<-|Hne].
      * rewrite list_lookup_alter_eq, Hi in Hj. cbn in Hj.
        by injection Hj as <-.
      * rewrite list_lookup_alter_ne in Hj by done. by eapply H3.
    + intros j t' Hj Hfin Hph'. destruct (decide (i = j)) as [<-|Hne].
      * apply elem_of_union_l. by apply elem_of_singleton.
      * rewrite list_lookup_alter_ne in Hj by done.
        apply elem_of_union_r. by eapply H4.
  - by split.
Qed.

Lemma Log_step_Inv (lbl : Label) (st : State) :
  Inv st → Inv (step l lbl st).
Proof.
  intros HI. destruct lbl as [|i a|]; cbn [step].
  - destruct (status st); try done.
    destruct (events st) as [|event rest]; [by destruct HI|].
    apply Log_event_Inv. by destruct HI.
  - destruct (streaming st !! i) as [t|] eqn:Hi; [|done].
    by apply Log_goroutine_Inv.
  - destruct (status st); try done.
    destruct (all_finished st); [|done]. by destruct HI.
Qed.

Lemma Log_reachable_Inv (w : WatchResult) (st : State) :
  reachable l w st → Inv st.
Proof.
  induction 1 as [|st lbl _ IH]; [|by apply Log_step_Inv].
  destruct w; split; cbn; intros; simplify_map_eq; set_solver.
Qed.

(** X2.  In every state the log reconciler can reach, an entry of the map
    is the cancel function of a goroutine of that very pod, started while
    the pod was running, that has passed its [Store]; no entry was put by a
    bounded read. *)
Theorem Log_entries_are_streams (w : WatchResult) (st : State) (u : string) (c : nat) :
  reachable l w st → activeStreams st !! u = Some c →
  ∃ t, streaming st !! c = Some t ∧ UID (t_pod t) = u
       ∧ Phase (t_pod t) = PodRunning ∧ t_pc t ≠ Spawned.
Proof.
  intros Hr Hu. apply Log_reachable_Inv in Hr as [H1 _ _ _]. by apply H1.
Qed.

(** X3.  In every state the log reconciler can reach, a session of a
    running pod that has returned has had its cancel function called (the
    deferred [streamCancel()]), and every cancel function that was called,
    by the loop or by a goroutine, is that of a goroutine that had stored
    it; a goroutine is blocked in [streamPod] only for a running pod. *)
Theorem Log_contexts_are_cancelled (w : WatchResult) (st : State) (i : nat) (t : Task) :
  reachable l w st → streaming st !! i = Some t →
  (t_pc t = Finished → Phase (t_pod t) = PodRunning → i ∈ cancelled st)
  ∧ (i ∈ cancelled st → Phase (t_pod t) = PodRunning ∧ t_pc t ≠ Spawned)
  ∧ (t_pc t = Streaming → Phase (t_pod t) = PodRunning).
Proof.
  intros Hr Hi. apply Log_reachable_Inv in Hr as [H1 H2 H3 H4].
  split; [by eapply H4|]. split; [|by eapply H3].
  intros Hin. destruct (H2 i Hin) as (t' & Ht' & ?).
  by assert (t' = t) as -> by congruence.
Qed.

End LogInvariant.

Lemma Log_entries_are_streams_witness :
  let w := Watching [Fixture.on Added PodRunning] in
  let st := Log.run Fixture.logger [Log.Recv; Log.Run 0 Log.nothing] (Log.Log w) in
  ∃ t, Log.streaming st !! 0 = Some t ∧ UID (Log.t_pod t) = "u1"
       ∧ Phase (Log.t_pod t) = PodRunning ∧ Log.t_pc t ≠ Log.Spawned.
Proof.
  intros w st.
  apply (Log_entries_are_streams Fixture.logger w st "u1" 0); [|reflexivity].
  subst st. cbn [Log.run foldl].
  repeat apply Log.reachable_step. apply Log.reachable_start.
Defined.

Lemma Log_contexts_are_cancelled_witness :
  let w := Watching [Fixture.on Added PodRunning] in
  let st := Log.run Fixture.logger
              [Log.Recv; Log.Run 0 Log.nothing; Log.Run 0 Log.nothing]
              (Log.Log w) in
  0 ∈ Log.cancelled st.
Proof.
  intros w st.
  destruct (Log_contexts_are_cancelled Fixture.logger w st 0
              (Log.at_pc Log.Finished
                 {| Log.t_pod := Fixture.pod PodRunning;
                    Log.t_container := "app"; Log.t_pc := Log.Spawned |}))
    as (Hc & _).
  - subst st. cbn [Log.run foldl].
    repeat apply Log.reachable_step. apply Log.reachable_start.
  - reflexivity.
  - apply Hc; reflexivity.
Defined.

(** ** The log reconciler: a cancel function stored too late *)

Section LogLateStore.
Context `{LogHelpers}.
Import Log.
Variable l : Logger.

(** An event of a running pod that is not in the map starts its
    sessions. *)
Lemma Log_event_starts (event : Event) (pod : Pod) (st : State) :
  Object_ event = PodObject pod →
  Type_ event = Added ∨ Type_ event = Modified →
  Phase pod = PodRunning → activeStreams st !! UID pod = None →
  Log_event l event st = handlePod l pod st.
Proof.
  intros Hobj Hty Hph Hnone. unfold Log_event. rewrite Hobj, Hph, Hnone.
  rewrite !bool_decide_eq_false_2 by (destruct Hty; congruence).
  cbn [orb]. rewrite bool_decide_eq_false_2 by (by intros [? ?]).
  by rewrite bool_decide_eq_false_2.
Qed.

Lemma Log_event_Orphan (n : nat) (t : Task) (event : Event) (st : State) :
  Orphan n t st → Orphan n t (Log_event l event st).
Proof.
  intros (Hn & Hpc & Hc & Hm & Hs).
  assert (∀ pod, Orphan n t (handlePod l pod st)) as Hstart.
  { intros pod. destruct (handlePod_frame l pod st) as (_ & Ha & Hcc & Hst).
    unfold Orphan. rewrite handlePod_streaming, Ha, Hcc, Hst.
    split; [by apply lookup_app_l_Some|done]. }
  unfold Log_event. destruct (Object_ event) as [pod|]; [|done].
  destruct (activeStreams st !! UID pod) as [c|] eqn:Hu.
  - case_match; [|by rewrite bool_decide_eq_true_2 by eauto].
    assert (c ≠ n) as Hne by (intros ->; by apply (Hm (UID pod))).
    unfold Orphan. cbn. split; [done|]. split; [done|]. split.
    + intros [Hin|Hin]%elem_of_union; [|done].
      by apply elem_of_singleton in Hin.
    + split; [|done]. intros u Hu'.
      apply lookup_delete_Some in Hu' as [_ Hu']. by apply (Hm u).
  - repeat case_match; try done; apply Hstart.
Qed.

Lemma goroutine_Orphan (n i : nat) (t ti : Task) (a : Answer) (st : State) :
  i ≠ n → streaming st !! i = Some ti →
  Orphan n t st → Orphan n t (goroutine l i ti a st).
Proof.
  intros Hne Hi (Hn & Hpc & Hc & Hm & Hs).
  unfold goroutine, Orphan.
  destruct (t_pc ti); [case_bool_decide| |done]; cbn;
    rewrite list_lookup_alter_ne by done;
    (split; [done|]); (split; [done|]).
  - split; [done|]. split; [|done]. intros u Hu.
    destruct (decide (u = UID (t_pod ti))) as [->|Hu'].
    + rewrite lookup_insert_eq in Hu. congruence.
    + rewrite lookup_insert_ne in Hu by done. by apply (Hm u).
  - done.
  - split; [|done].
    intros [Hin|Hin]%elem_of_union; [|done].
    apply elem_of_singleton in Hin. congruence.
Qed.

Lemma step_Orphan (n : nat) (t : Task) (lbl : Label) (st : State) :
  avoids n lbl = true → Orphan n t st → Orphan n t (step l lbl st).
Proof.
  intros Hav HO. pose proof HO as (Hn & Hpc & Hc & Hm & Hs).
  destruct lbl as [|i a|]; cbn [step].
  - destruct (status st) eqn:Hst; try done.
    destruct (events st) as [|event rest].
    + unfold Orphan. cbn. by repeat split.
    + apply Log_event_Orphan. unfold Orphan. cbn. rewrite Hst.
      by repeat split.
  - destruct (streaming st !! i) as [ti|] eqn:Hi; [|done].
    apply goroutine_Orphan; [|done|done].
    cbn in Hav. intros ->. by rewrite Nat.eqb_refl in Hav.
  - destruct (status st) eqn:Hst; try done.
    destruct (all_finished st) eqn:Hall; [|done].
    apply Log_all_finished in Hall. rewrite (Hall n t Hn) in Hpc. discriminate.
Qed.

Lemma run_Orphan (n : nat) (t : Task) (lbls : list Label) (st : State) :
  forallb (avoids n) lbls = true → Orphan n t st → Orphan n t (run l lbls st).
Proof.
  revert st. induction lbls as [|lbl lbls IH]; intros st Hav HO; [done|].
  cbn in Hav. apply andb_true_iff in Hav as [Hlbl Hav].
  cbn [run foldl]. apply IH; [done|]. by apply step_Orphan.
Qed.

(** C1.  In the port-forward reconciler, where [handleForwardPod] stores
    the stop channel before it starts the goroutine, two goroutines of
    one pod that have not returned are the same goroutine in every
    reachable state, and a handle in the map is that of a goroutine of
    the pod that has not returned.  In the log reconciler the goroutine
    itself stores the cancel function, when it first runs.  So two events
    of a running pod with one selected container, received before the
    goroutine of the first has run, start two sessions of that one
    container.  Both then store their cancel function under the UID of
    the pod, the second over the first: goroutine [n] follows its stream
    with a cancel function that is in the map no more.  From then on, as
    long as its stream does not end by itself, whatever events come and
    whatever the other goroutines do, it is never cancelled and [Log]
    does not return. *)
Theorem late_store_breaks_single_ownership (remotePort : N) (w : WatchResult)
    (fs : Forward.State) (i j : nat) (ti tj : Forward.Task)
    (st : State) (first second : Event) (pod : Pod) (rest : list Event)
    (t : Task) (a a' : Answer) (lbls : list Label) :
  (Forward.reachable remotePort w fs →
   (Forward.forwarding fs !! i = Some ti → Forward.forwarding fs !! j = Some tj →
    UID (Forward.t_pod ti) = UID (Forward.t_pod tj) →
    Forward.t_pc ti ≠ Forward.Finished → Forward.t_pc tj ≠ Forward.Finished →
    i = j)
   ∧ (∀ u c, Forward.activeForwarding fs !! u = Some c →
        ∃ t', Forward.forwarding fs !! c = Some t'
              ∧ UID (Forward.t_pod t') = u ∧ Forward.t_pc t' ≠ Forward.Finished))
  ∧ (reachable l w st →
     status st = Looping → events st = first :: second :: rest →
     Object_ first = PodObject pod → Object_ second = PodObject pod →
     Type_ first = Added ∨ Type_ first = Modified →
     Type_ second = Added ∨ Type_ second = Modified →
     Phase pod = PodRunning → activeStreams st !! UID pod = None →
     sessions_for l pod = [t] →
     let n := length (streaming st) in
     let started := run l [Recv; Recv] st in
     let stored := run l [Run n a; Run (S n) a'] started in
     streaming started = (streaming st ++ [t; t])%list
     ∧ activeStreams started = activeStreams st
     ∧ streaming stored !! n = Some (at_pc Streaming t)
     ∧ streaming stored !! S n = Some (at_pc Streaming t)
     ∧ activeStreams stored = <[UID pod := S n]> (activeStreams st)
     ∧ (forallb (avoids n) lbls = true →
        let later := run l lbls stored in
        streaming later !! n = Some (at_pc Streaming t)
        ∧ (n ∉ cancelled later)
        ∧ (∀ u, activeStreams later !! u ≠ Some n)
        ∧ ∀ r, status later ≠ Returned r)).
Proof.
  split.
  - intros Hreach. split.
    + by apply (single_owner remotePort w fs).
    + intros u c Hu. destruct (reachable_Inv remotePort w fs Hreach) as [H1 _].
      by apply H1.
  - intros Hreach Hst Hev Hobj1 Hobj2 Hty1 Hty2 Hph Hnone Hone n started stored.
    destruct (sessions_for_spawned l pod t) as [Hpod Hpc].
    { rewrite Hone. apply list_elem_of_here. }
    pose proof (Log_reachable_Inv l w st Hreach) as [HI1 HI2 _ _].
    (* the two turns of the loop *)
    set (st1 := handlePod l pod (with_events (second :: rest) st)).
    assert (step l Recv st = st1) as Hs1.
    { rewrite (Log_step_Recv l first (second :: rest) st Hst Hev).
      by apply Log_event_starts. }
    destruct (handlePod_frame l pod (with_events (second :: rest) st))
      as (He1 & Ha1 & Hc1 & Hst1).
    pose proof (handlePod_streaming l pod (with_events (second :: rest) st))
      as Hg1.
    rewrite Hone in Hg1. fold st1 in He1, Ha1, Hc1, Hst1, Hg1.
    cbn in He1, Ha1, Hc1, Hst1, Hg1.
    set (st2 := handlePod l pod (with_events rest st1)).
    assert (step l Recv st1 = st2) as Hs2.
    { rewrite (Log_step_Recv l second rest st1); [|congruence|done].
      apply Log_event_starts; try done. cbn. congruence. }
    destruct (handlePod_frame l pod (with_events rest st1))
      as (He2 & Ha2 & Hc2 & Hst2).
    pose proof (handlePod_streaming l pod (with_events rest st1)) as Hg2.
    rewrite Hone in Hg2. fold st2 in He2, Ha2, Hc2, Hst2, Hg2.
    cbn in He2, Ha2, Hc2, Hst2, Hg2.
    assert (started = st2) as Hstarted.
    { subst started. cbn [run foldl]. by rewrite Hs1, Hs2. }
    assert (streaming st2 = (streaming st ++ [t; t])%list) as Hg.
    { rewrite Hg2, Hg1, <- app_assoc. done. }
    assert (streaming st2 !! n = Some t) as Hn.
    { rewrite Hg. by rewrite lookup_app_r, Nat.sub_diag. }
    assert (streaming st2 !! S n = Some t) as HSn.
    { rewrite Hg. rewrite lookup_app_r by (unfold n; lia).
      by replace (S n - length (streaming st)) with 1 by (unfold n; lia). }
    (* the two goroutines store *)
    set (st3 := step l (Run n a) st2).
    assert (st3 = set_pc n Streaming (store (Goroutine n) (UID pod) n st2))
      as Hs3.
    { subst st3. cbn [step]. rewrite Hn. unfold goroutine. rewrite Hpc, Hpod, Hph.
      by rewrite bool_decide_eq_true_2. }
    assert (streaming st3 !! S n = Some t) as HSn3.
    { rewrite Hs3. cbn [streaming set_pc store emit].
      by rewrite list_lookup_alter_ne by lia. }
    set (st4 := step l (Run (S n) a') st3).
    assert (st4 = set_pc (S n) Streaming (store (Goroutine (S n)) (UID pod) (S n) st3))
      as Hs4.
    { subst st4. cbn [step]. rewrite HSn3. unfold goroutine.
      rewrite Hpc, Hpod, Hph. by rewrite bool_decide_eq_true_2. }
    assert (stored = st4) as Hstored.
    { subst stored. rewrite Hstarted. done. }
    assert (streaming st4 !! n = Some (at_pc Streaming t)) as Hn4.
    { rewrite Hs4. cbn [streaming set_pc store emit].
      rewrite list_lookup_alter_ne by lia.
      rewrite Hs3. cbn [streaming set_pc store emit].
      by rewrite list_lookup_alter_eq, Hn. }
    assert (streaming st4 !! S n = Some (at_pc Streaming t)) as HSn4.
    { rewrite Hs4. cbn [streaming set_pc store emit].
      by rewrite list_lookup_alter_eq, HSn3. }
    assert (activeStreams st4 = <[UID pod := S n]> (activeStreams st)) as Hm4.
    { rewrite Hs4. cbn [activeStreams set_pc store emit].
      rewrite Hs3. cbn [activeStreams set_pc store emit].
      rewrite Ha2. cbn [activeStreams with_events]. rewrite Ha1.
      cbn [activeStreams with_events]. by rewrite insert_insert_eq. }
    assert (cancelled st4 = cancelled st) as Hc4.
    { rewrite Hs4. cbn [cancelled set_pc store emit].
      rewrite Hs3. cbn [cancelled set_pc store emit].
      rewrite Hc2. cbn [cancelled with_events]. by rewrite Hc1. }
    assert (status st4 = Looping) as Hst4.
    { rewrite Hs4. cbn [status set_pc store emit].
      rewrite Hs3. cbn [status set_pc store emit].
      rewrite Hst2. cbn [status with_events]. rewrite Hst1. done. }
    rewrite Hstarted, Hstored.
    split; [done|]. split; [by rewrite Ha2; cbn [activeStreams with_events]; rewrite Ha1|].
    split; [done|]. split; [done|]. split; [done|].
    intros Hav later.
    assert (Orphan n (at_pc Streaming t) st4) as HO.
    { split; [done|]. split; [done|]. split; [|split].
      - rewrite Hc4. intros Hin. destruct (HI2 n Hin) as (t' & Ht' & _).
        apply lookup_lt_Some in Ht'. unfold n in Ht'. lia.
      - intros u. rewrite Hm4.
        destruct (decide (u = UID pod)) as [->|Hne].
        + rewrite lookup_insert_eq. intros [= Heq]. lia.
        + rewrite lookup_insert_ne by done. intros Hu.
          destruct (HI1 u n Hu) as (t' & Ht' & _).
          apply lookup_lt_Some in Ht'. unfold n in Ht'. lia.
      - intros r. by rewrite Hst4. }
    destruct (run_Orphan n _ lbls st4 Hav HO) as (H1 & _ & H3 & H4 & H5).
    by subst later.
Qed.

End LogLateStore.

Lemma late_store_breaks_single_ownership_witness :
  let w := Watching [Fixture.on Added PodRunning; Fixture.on Modified PodRunning;
                     Fixture.on Deleted PodRunning] in
  let t := {| Log.t_pod := Fixture.pod PodRunning; Log.t_container := "app";
              Log.t_pc := Log.Spawned |} in
  let stored := Log.run Fixture.logger
                  [Log.Recv; Log.Recv; Log.Run 0 Log.nothing; Log.Run 1 Log.nothing]
                  (Log.Log w) in
  let later := Log.run Fixture.logger
                 [Log.Recv; Log.Recv; Log.Run 1 Log.nothing; Log.WaitReturns]
                 stored in
  Log.t_container <$> Log.streaming stored = ["app"; "app"]
  ∧ Log.activeStreams stored !! "u1" = Some 1
  ∧ Log.effects_of Consumer (Log.trace later) = [Log.CallCancel 1; Log.Delete "u1"]
  ∧ Log.status later = Log.Waiting
  ∧ Log.streaming later !! 0 = Some (Log.at_pc Log.Streaming t)
  ∧ 0 ∉ Log.cancelled later.
Proof.
  intros w t stored later.
  split; [reflexivity|]. split; [reflexivity|]. split; [reflexivity|].
  split; [reflexivity|].
  destruct (late_store_breaks_single_ownership Fixture.logger 8080 w
              (Forward.RunE w) 0 0
              {| Forward.t_pod := Fixture.pod PodRunning;
                 Forward.t_pc := Forward.Spawned |}
              {| Forward.t_pod := Fixture.pod PodRunning;
                 Forward.t_pc := Forward.Spawned |}
              (Log.Log w) (Fixture.on Added PodRunning)
              (Fixture.on Modified PodRunning) (Fixture.pod PodRunning)
              [Fixture.on Deleted PodRunning] t Log.nothing Log.nothing
              [Log.Recv; Log.Recv; Log.Run 1 Log.nothing; Log.WaitReturns])
    as [_ Hlog].
  destruct Hlog as (_ & _ & _ & _ & _ & Hlater);
    [apply Log.reachable_start|reflexivity|reflexivity|reflexivity|reflexivity
    |left; reflexivity|right; reflexivity|reflexivity|reflexivity|reflexivity|].
  destruct (Hlater eq_refl) as (Hstream & Hnot & _).
  split; [exact Hstream|exact Hnot].
Defined.

(** ** The log reconciler: a stream that ends, a pod that fails and goes *)

Section LogComposed.
Context `{LogHelpers}.
Import Log.
Variable l : Logger.

(** X4.  A session whose stream ends by itself leaves its entry in the
    map: the goroutine calls its cancel function and returns without
    [Delete].  The pod stays tracked, so the next event of that running
    pod, if it is neither [Deleted] nor [Error], is ignored: the stream
    is not started again. *)
Theorem ended_stream_is_not_restarted (st : State) (i c : nat) (t : Task)
    (a : Answer) (event : Event) (pod : Pod) (rest : list Event) :
  streaming st !! i = Some t → t_pc t = Streaming →
  activeStreams st !! UID pod = Some c →
  status st = Looping → events st = event :: rest →
  Object_ event = PodObject pod →
  Type_ event ≠ Deleted → Type_ event ≠ Error →
  Phase pod = PodRunning →
  let st1 := step l (Run i a) st in
  let st2 := step l Recv st1 in
  streaming st1 !! i = Some (at_pc Finished t)
  ∧ activeStreams st1 = activeStreams st
  ∧ streaming st2 = streaming st1
  ∧ activeStreams st2 = activeStreams st
  ∧ trace st2 = trace st1
  ∧ events st2 = rest.
Proof.
  intros Hi Hpc Hc Hst Hev Hobj HD HE Hph st1 st2.
  assert (streaming st1 !! i = Some (at_pc Finished t)
          ∧ activeStreams st1 = activeStreams st
          ∧ status st1 = Looping ∧ events st1 = event :: rest) as (H1 & H2 & H3 & H4).
  { subst st1. cbn [step]. rewrite Hi. unfold goroutine. rewrite Hpc. cbn.
    by rewrite list_lookup_alter_eq, Hi. }
  assert (st2 = with_events rest st1) as ->.
  { subst st2. cbn [step]. rewrite H3, H4. unfold Log_event.
    rewrite Hobj, Hph. cbn [activeStreams with_events]. rewrite H2, Hc.
    rewrite !bool_decide_eq_false_2 by done. cbn [orb].
    by rewrite bool_decide_eq_true_2 by eauto. }
  done.
Qed.

(** X6.  A tracked pod that fails and is then deleted has its log read
    twice at the end.  The [Modified] event in phase [Failed] cancels the
    stream and deletes the entry; the [Deleted] event that follows finds
    the pod untracked and in a terminal phase, and calls [handlePod]: one
    more bounded session for each selected container. *)
Theorem failed_then_deleted_reads_again (st : State) (c : nat)
    (failed deleted : Event) (pod pod' : Pod) (rest : list Event) :
  status st = Looping → events st = failed :: deleted :: rest →
  Object_ failed = PodObject pod → Object_ deleted = PodObject pod' →
  UID pod' = UID pod →
  Phase pod = PodFailed → Phase pod' = PodFailed →
  activeStreams st !! UID pod = Some c →
  let st2 := run l [Recv; Recv] st in
  activeStreams st2 = delete (UID pod) (activeStreams st)
  ∧ cancelled st2 = {[c]} ∪ cancelled st
  ∧ streaming st2 = (streaming st ++ sessions_for l pod')%list
  ∧ Forall (λ t, t_pod t = pod' ∧ t_pc t = Spawned ∧ next_pc t = Finished)
      (sessions_for l pod')
  ∧ events st2 = rest ∧ status st2 = Looping.
Proof.
  intros Hst Hev Hf Hd Hu Hph Hph' Hc st2. subst st2. cbn [run foldl].
  set (st1 := step l Recv st).
  assert (st1 = delete_ Consumer (UID pod)
                  (call_cancel Consumer c (with_events (deleted :: rest) st)))
    as Hst1.
  { subst st1. cbn [step]. rewrite Hst, Hev. unfold Log_event.
    rewrite Hf, Hph. cbn [activeStreams with_events]. rewrite Hc.
    rewrite (bool_decide_eq_true_2 (PodFailed = PodFailed)) by done.
    by rewrite !orb_true_r. }
  assert (step l Recv st1 = handlePod l pod' (with_events rest st1)) as ->.
  { rewrite Hst1. cbn [step status events delete_ call_cancel emit with_events].
    rewrite Hst. unfold Log_event. rewrite Hd, Hph'.
    cbn [activeStreams with_events delete_ call_cancel emit].
    rewrite Hu, lookup_delete_eq.
    rewrite (bool_decide_eq_true_2 (PodFailed = PodFailed)) by done.
    by rewrite !orb_true_r. }
  destruct (handlePod_frame l pod' (with_events rest st1)) as (He & Ha & Hcc & Hs).
  rewrite handlePod_streaming, He, Ha, Hcc, Hs, Hst1. cbn.
  rewrite Hst. repeat split; try done.
  apply Forall_forall. intros t Hin.
  destruct (sessions_for_spawned l pod' t Hin) as [Hpod Hpc].
  unfold next_pc. by rewrite Hpc, Hpod, Hph'.
Qed.

End LogComposed.

Lemma ended_stream_is_not_restarted_witness :
  let evs := [Fixture.on Added PodRunning; Fixture.on Modified PodRunning] in
  let st := Log.run Fixture.logger [Log.Recv; Log.Run 0 Log.nothing]
              (Log.Log (Watching evs)) in
  let st2 := Log.run Fixture.logger [Log.Run 0 Log.nothing; Log.Recv] st in
  Log.t_pc <$> Log.streaming st2 = [Log.Finished]
  ∧ Log.activeStreams st2 = Log.activeStreams st.
Proof.
  intros evs st st2.
  destruct (ended_stream_is_not_restarted Fixture.logger st 0 0
              (Log.at_pc Log.Streaming
                 {| Log.t_pod := Fixture.pod PodRunning;
                    Log.t_container := "app"; Log.t_pc := Log.Spawned |})
              Log.nothing (Fixture.on Modified PodRunning)
              (Fixture.pod PodRunning) [])
    as (_ & _ & _ & Hm & _); try reflexivity; try discriminate.
  split; [reflexivity|exact Hm].
Defined.

Lemma failed_then_deleted_reads_again_witness :
  let evs := [Fixture.on Added PodRunning; Fixture.on Modified PodFailed;
              Fixture.on Deleted PodFailed] in
  let st := Log.run Fixture.logger [Log.Recv; Log.Run 0 Log.nothing]
              (Log.Log (Watching evs)) in
  let st2 := Log.run Fixture.logger [Log.Recv; Log.Recv] st in
  Log.streaming st2
  = (Log.streaming st ++ Log.sessions_for Fixture.logger (Fixture.pod PodFailed))%list
  ∧ Log.activeStreams st2 = delete "u1" (Log.activeStreams st).
Proof.
  intros evs st st2.
  destruct (failed_then_deleted_reads_again Fixture.logger st 0
              (Fixture.on Modified PodFailed) (Fixture.on Deleted PodFailed)
              (Fixture.pod PodFailed) (Fixture.pod PodFailed) [])
    as (Hm & _ & Hs & _); try reflexivity.
  split; [exact Hs|exact Hm].
Defined.

(** ** The log pipeline: the inverted pattern *)

Section LogInvert.
Context `{LogHelpers}.
Import Log.

Lemma emitted_outputLog (l : Logger) (reader : list string) :
  emitted (outputLog l reader)
  = spec_rendered l <$> filter (λ text, spec_emits l text = true) (Scan reader).
Proof.
  unfold outputLog. rewrite outputLog_scan_spec.
  destruct (rawOutput l); cbn [negb].
  - apply emitted_scan.
  - change (Info "Log..." :: ?x) with ([Info "Log..."] ++ x)%list.
    rewrite !emitted_app, emitted_scan. cbn. by rewrite app_nil_r.
Qed.

Lemma filter_split_length {A} (p q : A → bool) (xs : list A) :
  (length (filter (λ x, p x && q x = true) xs)
   + length (filter (λ x, p x && negb (q x) = true) xs)
   = length (filter (λ x, p x = true) xs))%nat.
Proof.
  induction xs as [|x xs IH]; [done|].
  rewrite !filter_cons.
  destruct (p x), (q x); cbn [andb negb];
    repeat case_decide; try done; cbn [length]; lia.
Qed.

(** X5.  With a pattern set, a line that the scanner yields and that
    passes the threshold is written by exactly one of a logger and the
    same logger with the pattern inverted: the first writes the lines
    that match, the second those that do not, both in the order read, and
    together they write as many lines as the scanner yields that pass the
    threshold.  Without a pattern, inverting changes nothing.  The lines
    the scanner yields are those of [Scan]: the lines of the reader up to
    the first that does not fit the buffer. *)
Theorem invert_writes_the_other_lines (l : Logger) (reader : list string) :
  let passes text :=
    negb (colorIsGreater (ColorOfJSON text (jsonColorKeys l)) (colorFilter l)) in
  (∀ re, logRegexp l = Some re →
     let render text :=
       FormatGrep text re (ColorOfJSON text (jsonColorKeys l)) in
     emitted (outputLog (WithInvertRegexp l false) reader)
     = render <$> filter (λ text, passes text && MatchString re text = true)
                    (Scan reader)
     ∧ emitted (outputLog (WithInvertRegexp l true) reader)
       = render <$> filter (λ text, passes text && negb (MatchString re text) = true)
                      (Scan reader)
     ∧ (length (emitted (outputLog (WithInvertRegexp l false) reader))
        + length (emitted (outputLog (WithInvertRegexp l true) reader))
        = length (filter (λ text, passes text = true) (Scan reader)))%nat)
  ∧ (logRegexp l = None →
     ∀ b, outputLog (WithInvertRegexp l b) reader = outputLog l reader).
Proof.
  intros passes. set (lines := Scan reader). split.
  - intros re Hre render.
    assert (∀ b, emitted (outputLog (WithInvertRegexp l b) reader)
                 = render <$> filter (λ text, passes text
                                        && (if b then negb (MatchString re text)
                                            else MatchString re text) = true)
                                lines) as Hb.
    { intros b. rewrite emitted_outputLog. fold lines.
      assert (∀ text, spec_rendered (WithInvertRegexp l b) text = render text) as Hr.
      { intros text. unfold spec_rendered. cbn. by rewrite Hre. }
      assert (∀ text, spec_emits (WithInvertRegexp l b) text
                      = passes text && (if b then negb (MatchString re text)
                                        else MatchString re text)) as He.
      { intros text. unfold spec_emits, spec_below_threshold, spec_pattern_pass.
        cbn. rewrite Hre. fold (passes text). f_equal.
        by destruct b, (MatchString re text). }
      induction lines as [|text rest IH]; [done|].
      rewrite !filter_cons, He.
      destruct (passes text && _); repeat case_decide; try done.
      rewrite !fmap_cons, Hr. by f_equal. }
    split; [apply (Hb false)|]. split; [apply (Hb true)|].
    rewrite (Hb false), (Hb true), !length_fmap.
    apply (filter_split_length passes (MatchString re)).
  - intros Hnone b. unfold outputLog. cbn [rawOutput WithInvertRegexp].
    fold lines.
    assert (outputLog_scan (WithInvertRegexp l b) lines = outputLog_scan l lines)
      as ->; [|done].
    induction lines as [|text rest IH]; [done|].
    cbn [outputLog_scan]. rewrite IH. f_equal.
    unfold outputLog_line. cbn. by rewrite Hnone.
Qed.

End LogInvert.

Lemma invert_writes_the_other_lines_witness :
  let l := Log.WithLogRegexp Fixture.logger (Some "err") in
  let lines := ["error: disk"; "ok"; "stderr"] in
  Log.emitted (Log.outputLog (Log.WithInvertRegexp l false) lines)
  = ["error: disk"; "stderr"]
  ∧ Log.emitted (Log.outputLog (Log.WithInvertRegexp l true) lines) = ["ok"].
Proof.
  intros l lines.
  destruct (invert_writes_the_other_lines l lines) as [Hsome _].
  destruct (Hsome "err" eq_refl) as (Hf & Ht & _).
  split; [rewrite Hf|rewrite Ht]; reflexivity.
Defined.

(** ** The port-forward reconciler: stop channels, panics and the pool *)

Section ForwardChannels.
Import Forward.
Variable remotePort : N.

Lemma close_closed (who : Actor) (c : nat) (st : State) :
  closed (close who c st) ⊆ {[c]} ∪ closed st.
Proof.
  unfold close. repeat case_match; cbn; intros x Hx;
    first [by apply elem_of_union_r | done].
Qed.

Lemma foldr_close_closed (kvs : list (string * nat)) (st : State) :
  closed (foldr (λ kv s, close Consumer kv.2 s) st kvs)
  ⊆ list_to_set kvs.*2 ∪ closed st.
Proof.
  induction kvs as [|kv kvs IH]; cbn [foldr].
  - intros x Hx. by apply elem_of_union_r.
  - intros x Hx. apply close_closed in Hx.
    rewrite fmap_cons. cbn [list_to_set].
    apply elem_of_union in Hx as [Hx|Hx].
    + by apply elem_of_union_l, elem_of_union_l.
    + apply IH in Hx. apply elem_of_union in Hx as [Hx|Hx].
      * by apply elem_of_union_l, elem_of_union_r.
      * by apply elem_of_union_r.
Qed.

Lemma Started_frame (st st' : State) :
  closed st' = closed st →
  length (forwarding st') = length (forwarding st) →
  Started st → Started st'.
Proof. intros Hc Hl HS c. rewrite Hc, Hl. apply HS. Qed.

Lemma goroutine_closed (i : nat) (t : Task) (a : Answer) (st : State) :
  closed (goroutine remotePort i t a st) = closed st.
Proof. unfold goroutine. repeat case_match; done. Qed.

Lemma step_Started (lbl : Label) (st : State) :
  Inv st → Started st → Started (step remotePort lbl st).
Proof.
  intros [H1 _] HS. unfold step.
  destruct (panicked st); [done|].
  assert (∀ u c, activeForwarding st !! u = Some c →
                 (c < length (forwarding st))%nat) as Hlt.
  { intros u c Hu. destruct (H1 u c Hu) as (t & Ht & _).
    by apply lookup_lt_Some in Ht. }
  destruct lbl as [|i a| |add backend].
  - destruct (status st); try done.
    destruct (events st) as [|event rest].
    + assert (Started (Range_close st)) as HR.
      { destruct (Range_close_frame st) as (_ & Hf & _).
        intros c Hc. rewrite Hf. apply foldr_close_closed in Hc.
        apply elem_of_union in Hc as [Hc|Hc]; [|by apply HS].
        apply elem_of_list_to_set, list_elem_of_fmap in Hc as ([u c'] & -> & Hin).
        apply elem_of_map_to_list in Hin. by eapply Hlt. }
      by destruct (panicked (Range_close st)).
    + unfold RunE_event. destruct (Object_ event) as [pod|]; [|done].
      cbn [activeForwarding with_events].
      destruct (activeForwarding st !! UID pod) as [c|] eqn:Hc.
      * case_match; [|by rewrite bool_decide_eq_true_2 by eauto].
        destruct (close_frame Consumer c (with_events rest st)) as (_ & Hf & _).
        intros c' Hc'. rewrite Hf. apply close_closed in Hc'.
        apply elem_of_union in Hc' as [->%elem_of_singleton|Hc'].
        -- by eapply Hlt.
        -- by apply HS.
      * repeat case_match; try done.
        intros c' Hc'. cbn in *. rewrite length_app. cbn.
        specialize (HS c' Hc'). lia.
  - destruct (forwarding st !! i) as [t|] eqn:Hi; [|done].
    apply (Started_frame st); [apply goroutine_closed| |done].
    apply (Forward_goroutine_frame remotePort).
  - destruct (status st); try done. by destruct (all_finished st).
  - destruct (status st); try done; by apply (Started_frame st).
Qed.

Lemma reachable_Started (w : WatchResult) (st : State) :
  reachable remotePort w st → Started st.
Proof.
  induction 1 as [|st lbl Hr IH].
  - destruct w; intros c Hc; by apply elem_of_empty in Hc.
  - apply step_Started; [by eapply reachable_Inv|done].
Qed.

(** X8.  An [Added] or [Modified] event of a running pod, in the
    port-forward reconciler: when the pod is in the map the event is
    ignored; when it is not, one goroutine is started, and before it runs
    the loop has stored under the pod's UID a stop channel that is new and
    open. *)
Theorem running_pod_is_forwarded_once (w : WatchResult) (st : State)
    (event : Event) (pod : Pod) (rest : list Event) :
  reachable remotePort w st →
  status st = Looping → events st = event :: rest →
  Object_ event = PodObject pod → Type_ event ≠ Deleted →
  Phase pod = PodRunning →
  let st' := step remotePort Recv st in
  (is_Some (activeForwarding st !! UID pod) → st' = with_events rest st)
  ∧ (activeForwarding st !! UID pod = None →
     let stopChan := length (forwarding st) in
     forwarding st' = (forwarding st ++ [{| t_pod := pod; t_pc := Spawned |}])%list
     ∧ activeForwarding st' = (<[UID pod := stopChan]> (activeForwarding st))
     ∧ (stopChan ∉ closed st')
     ∧ (∀ u, activeForwarding st !! u ≠ Some stopChan)
     ∧ events st' = rest ∧ status st' = Looping).
Proof.
  intros Hr Hst Hev Hobj HD Hph st'. subst st'.
  rewrite (Forward_step_Recv remotePort event rest st Hst Hev).
  unfold RunE_event. rewrite Hobj, Hph.
  rewrite !bool_decide_eq_false_2 by done. cbn [orb].
  cbn [activeForwarding with_events].
  rewrite (bool_decide_eq_true_2 (PodRunning = PodRunning)) by done.
  cbn [negb]. rewrite orb_false_r. split.
  - intros Htracked. by rewrite bool_decide_eq_true_2.
  - intros Hnone. rewrite Hnone.
    rewrite bool_decide_eq_false_2 by (by intros [? ?]).
    cbn. rewrite Hst. repeat split; try done.
    + intros Hin. apply (reachable_Started w st Hr) in Hin. lia.
    + intros u Hu. destruct (reachable_Inv remotePort w st Hr) as [H1 _].
      destruct (H1 u _ Hu) as (t & Ht & _). apply lookup_lt_Some in Ht. lia.
Qed.





Lemma Pool_owned_frame (others : string → Prop) (st st' : State) :
  pool st' = pool st → forwarding st' = forwarding st →
  Pool_owned others st → Pool_owned others st'.
Proof. intros Hp Hf HP b. rewrite Hp, Hf. apply HP. Qed.

Lemma goroutine_Pool_owned (others : string → Prop) (i : nat) (t : Task)
    (a : Answer) (st : State) :
  forwarding st !! i = Some t →
  Pool_owned others st → Pool_owned others (goroutine remotePort i t a st).
Proof.
  intros Hi HP. unfold goroutine.
  destruct (t_pc t) as [|port|] eqn:Hpc, a as [na|ta]; try done.
  - destruct (GetFreePort na) as [effs [err|port]].
    + intros b Hb. cbn in Hb.
      destruct (HP b Hb) as [Ho|(j & t' & p & Hj & Hpj & ->)]; [by left|].
      right. exists j, t', p. split; [|done]. cbn.
      rewrite list_lookup_alter_ne; [done|]. intros <-. congruence.
    + intros b Hb. cbn in Hb. apply elem_of_app in Hb as [Hb|Hb].
      * destruct (HP b Hb) as [Ho|(j & t' & p & Hj & Hpj & ->)]; [by left|].
        right. exists j, t', p. split; [|done]. cbn.
        rewrite list_lookup_alter_ne; [done|]. intros <-. congruence.
      * apply list_elem_of_singleton in Hb as ->. right.
        exists i, {| t_pod := t_pod t; t_pc := Forwarding port |}, port.
        split; [|done]. cbn. by rewrite list_lookup_alter_eq, Hi.
  - destruct (listenPortForward _ _ _ _ _) as [effs err].
    intros b Hb. cbn in Hb. apply list_elem_of_filter in Hb as [Hne Hb].
    destruct (HP b Hb) as [Ho|(j & t' & p & Hj & Hpj & ->)]; [by left|].
    right. exists j, t', p. split; [|done]. cbn.
    rewrite list_lookup_alter_ne; [done|]. intros <-.
    assert (t' = t) as -> by congruence. congruence.
Qed.

Lemma step_Pool_owned (others : string → Prop) (lbl : Label) (st : State) :
  (∀ b, lbl = Elsewhere true b → others b) →
  Pool_owned others st → Pool_owned others (step remotePort lbl st).
Proof.
  intros Hlbl HP. unfold step.
  destruct (panicked st); [done|].
  destruct lbl as [|i a| |add backend].
  - destruct (status st); try done.
    destruct (events st) as [|event rest].
    + destruct (Range_close_frame st) as (_ & Hf & _ & Hp).
      destruct (panicked (Range_close st)); by apply (Pool_owned_frame _ st).
    + unfold RunE_event. destruct (Object_ event) as [pod|]; [|done].
      repeat case_match; try done.
      * destruct (close_frame Consumer n (with_events rest st)) as (_ & Hf & _ & Hp).
        by apply (Pool_owned_frame _ st).
      * intros b Hb. cbn in Hb.
        destruct (HP b Hb) as [Ho|(j & t' & p & Hj & ?)]; [by left|].
        right. exists j, t', p. split; [|done]. cbn. by apply lookup_app_l_Some.
  - destruct (forwarding st !! i) as [t|] eqn:Hi; [|done].
    by apply goroutine_Pool_owned.
  - destruct (status st); try done. by destruct (all_finished st).
  - assert (Pool_owned others
              (with_pool (if add then (pool st ++ [backend])%list
                          else filter (λ b, b ≠ backend) (pool st)) st)) as HP'.
    { intros b Hb. cbn in Hb. destruct add.
      - apply elem_of_app in Hb as [Hb|Hb]; [by apply HP|].
        apply list_elem_of_singleton in Hb as ->. left. by apply Hlbl.
      - apply list_elem_of_filter in Hb as [_ Hb]. by apply HP. }
    by destruct (status st).
Qed.

Lemma run_Pool_owned (others : string → Prop) (lbls : list Label) (st : State) :
  (∀ b, Elsewhere true b ∈ lbls → others b) →
  Pool_owned others st → Pool_owned others (run remotePort lbls st).
Proof.
  revert st. induction lbls as [|lbl lbls IH]; intros st Hlbls HP; [done|].
  cbn [run foldl]. apply IH.
  - intros b Hb. apply Hlbls. by apply list_elem_of_further.
  - apply step_Pool_owned; [|done].
    intros b ->. apply Hlbls. apply list_elem_of_here.
Qed.

(** X9.  The pool is made once in [RunE] and shared by the closures of
    all clients.  After any run of the closure of one client, every
    address in the pool is the backend of one of its goroutines, blocked
    in [listenPortForward] with that port, or an address that the
    closure of another client has added.  When [RunE] runs the closure
    for one client only, so that no other closure calls the pool, every
    address in the pool is the backend of such a goroutine, and once
    every goroutine has returned the pool is empty. *)
Theorem pool_holds_live_backends (w : WatchResult) (lbls : list Label) :
  let st := run remotePort lbls (RunE w) in
  let live b :=
    ∃ i t port, forwarding st !! i = Some t ∧ t_pc t = Forwarding port
                ∧ b = backendOf port in
  (∀ b, b ∈ pool st → Elsewhere true b ∈ lbls ∨ live b)
  ∧ (forallb own lbls = true →
     (∀ b, b ∈ pool st → live b) ∧ (finished st → pool st = [])).
Proof.
  intros st live.
  assert (∀ others, Pool_owned others (RunE w)) as Hstart.
  { intros others b Hb. destruct w; by apply elem_of_nil in Hb. }
  split.
  - apply (run_Pool_owned (λ b, Elsewhere true b ∈ lbls)); [done|].
    apply Hstart.
  - intros Hown.
    assert (∀ b, b ∈ pool st → live b) as HP.
    { intros b Hb.
      destruct (run_Pool_owned (λ _, False) lbls (RunE w)) with (b := b)
        as [[]|Hlive]; try done.
      intros b' Hb'. rewrite forallb_forall in Hown.
      apply list_elem_of_In, Hown in Hb'. discriminate. }
    split; [exact HP|].
    intros Hfin. destruct (pool st) as [|b bs] eqn:Hpool; [done|].
    destruct (HP b) as (i & t & port & Hi & Hpc & _).
    + apply list_elem_of_here.
    + rewrite (Hfin i t Hi) in Hpc. discriminate.
Qed.

End ForwardChannels.

Lemma running_pod_is_forwarded_once_witness :
  let w := Watching [Fixture.on Added PodRunning; Fixture.on Modified PodRunning] in
  let st := Forward.RunE w in
  let st1 := Forward.step 8080 Forward.Recv st in
  Forward.activeForwarding st1 = (<["u1" := 0]> (Forward.activeForwarding st))
  ∧ Forward.step 8080 Forward.Recv st1
    = Forward.with_events [] st1.
Proof.
  intros w st st1.
  destruct (running_pod_is_forwarded_once 8080 w st (Fixture.on Added PodRunning)
              (Fixture.pod PodRunning) [Fixture.on Modified PodRunning])
    as [_ Hstart]; try reflexivity; try discriminate.
  { apply Forward.reachable_start. }
  destruct (running_pod_is_forwarded_once 8080 w st1
              (Fixture.on Modified PodRunning) (Fixture.pod PodRunning) [])
    as [Hskip _]; try reflexivity; try discriminate.
  { apply Forward.reachable_step, Forward.reachable_start. }
  split.
  - destruct (Hstart eq_refl) as (_ & Hm & _). exact Hm.
  - apply Hskip. exists 0. reflexivity.
Defined.


Lemma pool_holds_live_backends_witness :
  let w := Watching [Fixture.on Added PodRunning] in
  let lbls := [Forward.Recv;
               Forward.Run 0 (Forward.FreePort (Forward.Listens 40000 None));
               Forward.Run 0 (Forward.Tunnel (Forward.ForwardPortsReturns None))] in
  let st := Forward.run 8080 lbls (Forward.RunE w) in
  let shared := Forward.step 8080 (Forward.Elsewhere true "127.0.0.1:40001") st in
  Forward.pool st = [] ∧ Forward.pool shared = ["127.0.0.1:40001"].
Proof.
  intros w lbls st shared. split; [|reflexivity].
  destruct (pool_holds_live_backends 8080 w lbls) as [_ Hown].
  destruct (Hown eq_refl) as [_ Hempty].
  apply Hempty. intros i t Hi.
  destruct i as [|i]; [|discriminate Hi].
  injection Hi as <-. reflexivity.
Defined.

(** ** The port-forward command with one local port per pod *)

Section FixedPorts.
Import FixedPort.
Variables remotePort localPort0 : N.

Local Arguments Forward.effects_of : simpl never.

Ltac fixed_trace :=
  cbn [trace emit store delete_ Go set_pc with_events with_status
       with_localPort panic handleForwardPod].

Lemma uint64_succ (n : N) : uint64 (uint64 n + 1) = uint64 (n + 1).
Proof. unfold uint64. apply N.Div0.add_mod_idemp_l. Qed.

Lemma Sessions_frame (st st' : State) :
  forwarding st' = forwarding st →
  (∀ i, Forward.effects_of (Goroutine i) (trace st')
        = Forward.effects_of (Goroutine i) (trace st)) →
  Sessions remotePort st → Sessions remotePort st'.
Proof.
  intros Hf Ht [H1 H2].
  split; rewrite Hf; intros i; rewrite Ht; auto.
Qed.

Lemma Ports_frame (st st' : State) :
  localPort st' = localPort st → forwarding st' = forwarding st →
  Ports localPort0 st → Ports localPort0 st'.
Proof. intros Hp Hf [H1 H2]. split; rewrite ?Hp, ?Hf; done. Qed.

Lemma FixedPort_close_frame (c : nat) (st : State) :
  localPort (close Consumer c st) = localPort st
  ∧ forwarding (close Consumer c st) = forwarding st
  ∧ ∀ i, Forward.effects_of (Goroutine i) (trace (close Consumer c st))
         = Forward.effects_of (Goroutine i) (trace st).
Proof.
  unfold close. repeat case_match; repeat split; try done; intros i; fixed_trace;
    first [done
          |by rewrite effects_of_app, (effects_of_other _ Consumer), app_nil_r].
Qed.

Lemma FixedPort_Range_close_frame (st : State) :
  localPort (Range_close st) = localPort st
  ∧ forwarding (Range_close st) = forwarding st
  ∧ ∀ i, Forward.effects_of (Goroutine i) (trace (Range_close st))
         = Forward.effects_of (Goroutine i) (trace st).
Proof.
  unfold Range_close.
  induction (map_to_list (activeForwarding st)) as [|kv kvs (Hp & Hf & Ht)];
    [done|].
  cbn [foldr].
  destruct (FixedPort_close_frame kv.2
              (foldr (λ kv s, close Consumer kv.2 s) st kvs)) as (Hp' & Hf' & Ht').
  rewrite Hp', Hf', Hp, Hf. repeat split. intros i. by rewrite Ht', Ht.
Qed.

Lemma handleForwardPod_Sessions (pod : Pod) (p : N) (st : State) :
  Sessions remotePort st → Sessions remotePort (handleForwardPod pod p st).
Proof.
  intros [H1 H2].
  assert (∀ i, Forward.effects_of (Goroutine i)
                 (trace (handleForwardPod pod p st))
               = Forward.effects_of (Goroutine i) (trace st)) as Ht.
  { intros i. fixed_trace.
    by rewrite effects_of_app, (effects_of_other _ Consumer), app_nil_r. }
  split.
  - intros i t Hi. rewrite Ht. cbn in Hi.
    apply lookup_app_Some in Hi as [Hi|[Hlen Hi]]; [by apply H1|].
    apply list_lookup_singleton_Some in Hi as [Hi <-].
    unfold Session. cbn. apply H2. lia.
  - intros i Hi. rewrite Ht. apply H2. cbn in Hi. rewrite length_app in Hi.
    cbn in Hi. lia.
Qed.

Lemma RunE_event_Sessions (between : option N) (event : Event) (st : State) :
  Sessions remotePort st → Sessions remotePort (RunE_event between event st).
Proof.
  intros HS. unfold RunE_event.
  destruct (Object_ event) as [pod|]; [|done].
  repeat case_match; try done.
  - destruct (FixedPort_close_frame n st) as (_ & Hf & Ht).
    by apply (Sessions_frame st).
  - apply handleForwardPod_Sessions. by apply (Sessions_frame st).
  - apply handleForwardPod_Sessions. by apply (Sessions_frame st).
Qed.

Lemma goroutine_Sessions (i : nat) (t : Task) (a : Forward.TunnelAnswer)
    (st : State) :
  forwarding st !! i = Some t →
  Sessions remotePort st → Sessions remotePort (goroutine remotePort i t a st).
Proof.
  intros Hi HS. pose proof HS as [H1 H2].
  assert (∀ pc new st',
    forwarding st' = forwarding st →
    trace st' = (trace st ++ ((λ e, (Goroutine i, e)) <$> new))%list →
    Session remotePort i
      {| t_pod := t_pod t; t_localPort := t_localPort t; t_pc := pc |}
      (Forward.effects_of (Goroutine i) (trace st) ++ new)%list →
    Sessions remotePort (set_pc i pc st')) as Hstep.
  { intros pc new st' Hf Ht Hnew. split; cbn; rewrite ?Hf, ?Ht.
    - intros j t' Hj. rewrite effects_of_app.
      destruct (decide (j = i)) as [->|Hne].
      + rewrite list_lookup_alter_eq, Hi in Hj. injection Hj as <-.
        by rewrite effects_of_self.
      + rewrite list_lookup_alter_ne in Hj by done.
        rewrite effects_of_other, app_nil_r by congruence. by apply H1.
    - intros j Hj. rewrite length_alter in Hj.
      rewrite effects_of_app, effects_of_other, app_nil_r; [by apply H2|].
      intros [= ->]. apply lookup_lt_Some in Hi. lia. }
  specialize (H1 i t Hi). unfold Session in H1.
  unfold goroutine. destruct (t_pc t) eqn:Hpc.
  - eapply Hstep; [done|done|]. rewrite H1. done.
  - destruct (Forward.listenPortForward _ _ _ _ _) as [effs err] eqn:Hl.
    eapply (Hstep Finished (_ ++ [Forward.Delete (UID (t_pod t))])%list);
      [done| |].
    + fixed_trace. rewrite <- (app_assoc (trace st)), <- fmap_app. reflexivity.
    + unfold Session; cbn [t_pc t_pod t_localPort]. rewrite H1. exists a.
      unfold Forward.fixed_port_goroutine.
      cbn [t_pod t_localPort]. rewrite Hl. unfold arrow.
      by rewrite <- !app_assoc.
  - exact HS.
Qed.

Lemma step_Sessions (lbl : Label) (st : State) :
  Sessions remotePort st → Sessions remotePort (step remotePort lbl st).
Proof.
  intros HS. unfold step. destruct (panicked st); [done|].
  destruct lbl as [between|i a| |p].
  - destruct (status st); try done.
    destruct (events st) as [|event rest].
    + destruct (FixedPort_Range_close_frame st) as (_ & Hf & Ht).
      destruct (panicked (Range_close st)); by apply (Sessions_frame st).
    + apply RunE_event_Sessions. by apply (Sessions_frame st).
  - destruct (forwarding st !! i) as [t|] eqn:Hi; [|done].
    by apply goroutine_Sessions.
  - destruct (status st); try done. destruct (all_finished st); [|done].
    apply (Sessions_frame st); try done. intros i. fixed_trace.
    by rewrite effects_of_app, (effects_of_other _ Consumer), app_nil_r.
  - destruct (status st); try done; by apply (Sessions_frame st).
Qed.

Lemma reachable_Sessions (w : WatchResult) (st : State) :
  reachable remotePort localPort0 w st → Sessions remotePort st.
Proof.
  induction 1 as [|st lbl _ IH]; [|by apply step_Sessions].
  by destruct w.
Qed.

Lemma handleForwardPod_Ports (pod : Pod) (st : State) :
  Ports localPort0 st →
  Ports localPort0
    (handleForwardPod pod (uint64 (localPort st + 1))
       (with_localPort (uint64 (localPort st + 1)) st)).
Proof.
  intros [H1 H2].
  assert (uint64 (localPort st + 1)
          = uint64 (localPort0 + N.of_nat (length (forwarding st)) + 1)) as Hnext.
  { rewrite H1. apply uint64_succ. }
  split.
  - cbn. rewrite length_app, Hnext. cbn. f_equal. lia.
  - intros i t Hi. cbn in Hi.
    apply lookup_app_Some in Hi as [Hi|[Hlen Hi]]; [by apply H2|].
    apply list_lookup_singleton_Some in Hi as [Hi <-]. cbn.
    rewrite Hnext. f_equal. lia.
Qed.

Lemma goroutine_Ports (i : nat) (t : Task) (a : Forward.TunnelAnswer)
    (st : State) :
  forwarding st !! i = Some t →
  Ports localPort0 st → Ports localPort0 (goroutine remotePort i t a st).
Proof.
  intros Hi [H1 H2].
  assert (∀ pc st',
    localPort st' = localPort st → forwarding st' = forwarding st →
    Ports localPort0 (set_pc i pc st')) as Hstep.
  { intros pc st' Hp Hf. split; cbn; rewrite ?Hp, ?Hf.
    - by rewrite length_alter.
    - intros j t' Hj. destruct (decide (j = i)) as [->|Hne].
      + rewrite list_lookup_alter_eq, Hi in Hj. injection Hj as <-. cbn.
        by apply H2.
      + rewrite list_lookup_alter_ne in Hj by done. by apply H2. }
  unfold goroutine. destruct (t_pc t).
  - by apply Hstep.
  - destruct (Forward.listenPortForward _ _ _ _ _) as [effs err].
    by apply Hstep.
  - by split.
Qed.

Lemma step_Ports (lbl : Label) (st : State) :
  own lbl = true → Ports localPort0 st → Ports localPort0 (step remotePort lbl st).
Proof.
  intros Hown HP. unfold step. destruct (panicked st); [done|].
  destruct lbl as [[p|]|i a| |p]; try done.
  - destruct (status st); try done.
    destruct (events st) as [|event rest].
    + destruct (FixedPort_Range_close_frame st) as (Hp & Hf & _).
      destruct (panicked (Range_close st)); by apply (Ports_frame st).
    + assert (Ports localPort0 (with_events rest st)) as HP'
        by by apply (Ports_frame st).
      unfold RunE_event. destruct (Object_ event) as [pod|]; [|done].
      repeat case_match; try done.
      * destruct (FixedPort_close_frame n (with_events rest st)) as (Hp & Hf & _).
        by apply (Ports_frame (with_events rest st)).
      * by apply (handleForwardPod_Ports pod (with_events rest st)).
  - destruct (forwarding st !! i) as [t|] eqn:Hi; [|done].
    by apply goroutine_Ports.
  - destruct (status st); try done. destruct (all_finished st); [|done].
    by apply (Ports_frame st).
Qed.

Lemma reachable_alone_Ports (w : WatchResult) (st : State) :
  (localPort0 < 2 ^ 64)%N →
  reachable_alone remotePort localPort0 w st → Ports localPort0 st.
Proof.
  intros Hlt. induction 1 as [|st lbl Hown _ IH]; [|by apply step_Ports].
  destruct w; (split; cbn; [|done]);
    unfold uint64; rewrite N.add_0_r; symmetry; by apply N.mod_small.
Qed.

(** X10.  When [RunE] runs the closure for one client, so that no other
    closure writes [localPort]: the port-forward command with a local
    port argument gives the [i]-th session it starts (counting from 0)
    the local port [localPort + i + 1], as a [uint64].  So, short of
    wrapping around, every session has a port of its own, and none
    forwards the port given on the command line.  With several clients
    the variable is written by all their closures, and none of this
    holds. *)
Theorem sessions_take_successive_ports (w : WatchResult) (st : State) :
  (localPort0 < 2 ^ 32)%N →
  reachable_alone remotePort localPort0 w st →
  (∀ i t, forwarding st !! i = Some t →
          t_localPort t = uint64 (localPort0 + N.of_nat i + 1))
  ∧ ((N.of_nat (length (forwarding st)) < 2 ^ 63)%N →
     ∀ i t, forwarding st !! i = Some t →
            t_localPort t = (localPort0 + N.of_nat i + 1)%N
            ∧ (localPort0 < t_localPort t)%N
            ∧ ∀ j t', forwarding st !! j = Some t' →
                      t_localPort t' = t_localPort t → j = i).
Proof.
  intros Hlt Hr.
  assert (localPort0 < 2 ^ 64)%N as Hlt64.
  { eapply N.lt_trans; [exact Hlt|reflexivity]. }
  destruct (reachable_alone_Ports w st Hlt64 Hr) as [_ H2].
  split; [exact H2|]. intros Hlen.
  assert (∀ i t, forwarding st !! i = Some t →
                 t_localPort t = (localPort0 + N.of_nat i + 1)%N) as Hport.
  { intros i t Hi. rewrite (H2 i t Hi). unfold uint64. apply N.mod_small.
    apply lookup_lt_Some in Hi.
    assert (2 ^ 32 + 2 ^ 63 + 1 < 2 ^ 64)%N by reflexivity. lia. }
  intros i t Hi. rewrite (Hport i t Hi). split; [done|]. split; [lia|].
  intros j t' Hj. rewrite (Hport j t' Hj). lia.
Qed.

(** X11.  What a session of that command has done, in every reachable
    state and whatever the other closures write in [localPort]: nothing
    before it first runs; then the report that it starts forwarding the
    local port it was given; and once it has returned, the whole body of
    the goroutine for that port, which ends with the deletion of its
    pod's entry. *)
Theorem session_reports_its_own_port (w : WatchResult) (st : State)
    (i : nat) (t : Task) :
  reachable remotePort localPort0 w st →
  forwarding st !! i = Some t →
  let port := t_localPort t in
  let done := Forward.effects_of (Goroutine i) (trace st) in
  match t_pc t with
  | Spawned => done = []
  | Forwarding =>
      done = [Forward.KubeInfo
                ("Starting port-forward 127.0.0.1:" ++ pretty port ++ " => "
                 ++ Name (t_pod t) ++ ":" ++ pretty remotePort)]
  | Finished =>
      ∃ a, done = Forward.fixed_port_goroutine (t_pod t) i port remotePort a
  end.
Proof.
  intros Hr Hi port done'. subst port done'.
  destruct (reachable_Sessions w st Hr) as [H1 _].
  exact (H1 i t Hi).
Qed.

End FixedPorts.

Lemma sessions_take_successive_ports_witness :
  let w := Watching [Fixture.on Added PodRunning; Fixture.on2 Added PodRunning] in
  let st := FixedPort.run 80 [FixedPort.Recv None; FixedPort.Recv None]
              (FixedPort.RunE 8080 w) in
  let shared := FixedPort.run 80
                  [FixedPort.Recv None; FixedPort.Elsewhere 8080;
                   FixedPort.Recv None]
                  (FixedPort.RunE 8080 w) in
  FixedPort.t_localPort <$> FixedPort.forwarding st = [8081%N; 8082%N]
  ∧ FixedPort.t_localPort <$> FixedPort.forwarding shared = [8081%N; 8081%N]
  ∧ ∀ i t, FixedPort.forwarding st !! i = Some t →
           FixedPort.t_localPort t = (8080 + N.of_nat i + 1)%N
           ∧ (8080 < FixedPort.t_localPort t)%N
           ∧ ∀ j t', FixedPort.forwarding st !! j = Some t' →
                     FixedPort.t_localPort t' = FixedPort.t_localPort t → j = i.
Proof.
  intros w st shared. split; [reflexivity|]. split; [reflexivity|].
  apply (sessions_take_successive_ports 80 8080 w st); [reflexivity| |reflexivity].
  subst st. cbn [FixedPort.run foldl].
  repeat (apply FixedPort.alone_step; [reflexivity|]). apply FixedPort.alone_start.
Defined.

Lemma session_reports_its_own_port_witness :
  let w := Watching [Fixture.on Added PodRunning; Fixture.on2 Added PodRunning] in
  let st := FixedPort.run 80
              [FixedPort.Recv None; FixedPort.Recv (Some 9000%N);
               FixedPort.Run 1 (Forward.ForwardPortsReturns None);
               FixedPort.Run 1 (Forward.ForwardPortsReturns None)]
              (FixedPort.RunE 8080 w) in
  ∃ a, Forward.effects_of (Goroutine 1) (FixedPort.trace st)
       = Forward.fixed_port_goroutine (Fixture.pod2 PodRunning) 1 9000 80 a.
Proof.
  intros w st.
  apply (session_reports_its_own_port 80 8080 w st 1
           {| FixedPort.t_pod := Fixture.pod2 PodRunning;
              FixedPort.t_localPort := 9000;
              FixedPort.t_pc := FixedPort.Finished |});
    [|reflexivity].
  subst st. cbn [FixedPort.run foldl].
  repeat apply FixedPort.reachable_step. apply FixedPort.reachable_start.
Defined.

(** ** The clients of the root command *)

Section RootClients.
Import Root.
Context `{Clientcmd}.
Variable allNamespace : bool.

Lemma getKubernetesClient_range_spec (contexts : list string)
    (acc : list Kube) :
  match getKubernetesClient_range allNamespace contexts acc with
  | (clients, None) =>
      ∃ made, clients = (acc ++ made)%list
              ∧ Forall2 (λ c k, getKubeClient allNamespace c = inr k) contexts made
  | (clients, Some err) =>
      ∃ before failing after made,
        contexts = (before ++ failing :: after)%list
        ∧ clients = (acc ++ made)%list
        ∧ Forall2 (λ c k, getKubeClient allNamespace c = inr k) before made
        ∧ getKubeClient allNamespace failing = inl err
  end.
Proof.
  revert acc. induction contexts as [|c contexts IH]; intros acc.
  - cbn. exists []. by rewrite app_nil_r.
  - cbn [Root.getKubernetesClient_range].
    destruct (getKubeClient allNamespace c) as [err|k] eqn:Hc.
    + exists [], c, contexts, []. by rewrite app_nil_r.
    + specialize (IH (acc ++ [k])%list).
      destruct (getKubernetesClient_range allNamespace contexts (acc ++ [k])%list)
        as [clients [err|]].
      * destruct IH as (before & failing & after & made & -> & -> & HF & Hfail).
        exists (c :: before), failing, after, (k :: made).
        rewrite <- app_assoc. by repeat split; [constructor|].
      * destruct IH as (made & -> & HF).
        exists (k :: made). rewrite <- app_assoc. by split; [|constructor].
Qed.

(** X12.  [getKubernetesClient] asks for the clients of the contexts in
    order, the default context (the empty name) when it is given none.
    It returns no error exactly when every context gives a client, and
    then returns these clients in order.  Otherwise it returns the error
    of the first context that fails, with the clients of the contexts
    before it: the array it returns with an error is not empty in
    general. *)
Theorem getKubernetesClient_stops_at_first_failure (contexts : list string) :
  let asked := match contexts with [] => [""] | _ => contexts end in
  match getKubernetesClient allNamespace contexts with
  | (clients, None) =>
      Forall2 (λ c k, getKubeClient allNamespace c = inr k) asked clients
  | (clients, Some err) =>
      ∃ before failing after,
        asked = (before ++ failing :: after)%list
        ∧ Forall2 (λ c k, getKubeClient allNamespace c = inr k) before clients
        ∧ getKubeClient allNamespace failing = inl err
  end.
Proof.
  intros asked. unfold Root.getKubernetesClient.
  assert ((if bool_decide (length contexts = 0) then (contexts ++ [""])%list
           else contexts) = asked) as ->.
  { subst asked. by destruct contexts. }
  pose proof (getKubernetesClient_range_spec asked []) as Hspec.
  destruct (getKubernetesClient_range allNamespace asked []) as [clients [err|]].
  - destruct Hspec as (before & failing & after & made & -> & -> & HF & Hfail).
    by exists before, failing, after.
  - by destruct Hspec as (made & -> & HF).
Qed.

(** What a client made by [getKubeClient] holds. *)
Lemma getKubeClient_inr (c : string) (k : Kube) :
  getKubeClient allNamespace c = inr k →
  ∃ cfg ns cs, ClientConfig c = inr cfg ∧ Namespace_ c = inr ns
               ∧ NewForConfig cfg = inr cs
               ∧ k = New c (if allNamespace then "" else ns) cs.
Proof.
  unfold Root.getKubeClient. intros Hk.
  destruct (ClientConfig c) as [|cfg] eqn:Hcfg; [done|].
  destruct (Namespace_ c) as [|ns] eqn:Hns; [done|].
  destruct (NewForConfig cfg) as [|cs] eqn:Hcs; [done|].
  injection Hk as <-. by exists cfg, ns, cs.
Qed.

(** X13.  Every client that [getKubernetesClient] returns, with or
    without an error, carries the name of the context it was asked for
    and the namespace [clientcmd] gave for that context; with
    [--all-namespaces] every client has the empty namespace, whatever the
    configuration or the [--namespace] flag say. *)
Theorem getKubernetesClient_namespaces (contexts : list string)
    (context namespace : string) (clientset : Clientset) :
  New context namespace clientset ∈ (getKubernetesClient allNamespace contexts).1 →
  (context ∈ contexts ∨ (contexts = [] ∧ context = ""))
  ∧ (if allNamespace then namespace = ""
     else Namespace_ context = inr namespace).
Proof.
  intros Hin. unfold Root.getKubernetesClient in Hin.
  set (asked := if bool_decide (length contexts = 0)
                then (contexts ++ [""])%list else contexts) in Hin.
  pose proof (getKubernetesClient_range_spec asked []) as Hspec.
  destruct (getKubernetesClient_range allNamespace asked []) as [clients err].
  cbn in Hin.
  assert (∃ asked', Forall2 (λ c k, getKubeClient allNamespace c = inr k)
                      asked' clients
                    ∧ ∀ c, c ∈ asked' → c ∈ asked)
    as (asked' & HF & Hsub).
  { destruct err as [err|].
    - destruct Hspec as (before & failing & after & made & Heq & -> & HF & _).
      exists before. split; [done|]. intros c Hc. rewrite Heq.
      apply elem_of_app. by left.
    - destruct Hspec as (made & -> & HF). by exists asked. }
  apply list_elem_of_lookup in Hin as [i Hi].
  destruct (Forall2_lookup_r _ _ _ _ _ HF Hi) as (c & Hc & Hk).
  apply getKubeClient_inr in Hk as (cfg & ns & cs & _ & Hns & _ & Heq).
  injection Heq as -> -> ->.
  apply list_elem_of_lookup_2, Hsub in Hc. split.
  - subst asked. destruct contexts; [right|by left].
    by apply list_elem_of_singleton in Hc.
  - by destruct allNamespace.
Qed.

Lemma kube_getKubernetesClient_range_spec (contexts : list string)
    (acc : list Kube) :
  kube_getKubernetesClient_range contexts acc
  = match getKubernetesClient_range false contexts acc with
    | (clients, None) => (clients, None)
    | (_, Some err) => ([], Some err)
    end.
Proof.
  revert acc.
  induction contexts as [|c contexts IH]; intros acc; [done|].
  cbn [Root.kube_getKubernetesClient_range Root.getKubernetesClient_range].
  unfold Root.getKubeClient.
  destruct (ClientConfig c) as [|cfg]; [done|].
  destruct (Namespace_ c) as [|ns]; [done|].
  destruct (NewForConfig cfg) as [|cs]; [done|].
  apply IH.
Qed.

(** X14.  The two versions of [getKubernetesClient] compared, without
    [--all-namespaces]: given at least one context they return the same
    error, and without error the same clients; with an error the earlier
    one returns no client at all where the later one returns those
    already made.  Given no context, the earlier one returns no client
    and no error, where the later one asks for the default context. *)
Theorem getKubernetesClient_versions (contexts : list string) :
  (contexts ≠ [] →
   kube_getKubernetesClient contexts
   = match getKubernetesClient false contexts with
     | (clients, None) => (clients, None)
     | (_, Some err) => ([], Some err)
     end)
  ∧ kube_getKubernetesClient [] = ([], None)
  ∧ getKubernetesClient false [] = getKubernetesClient false [""].
Proof.
  split; [|done]. intros Hne.
  unfold Root.kube_getKubernetesClient, Root.getKubernetesClient.
  rewrite bool_decide_eq_false_2 by (by destruct contexts).
  by apply kube_getKubernetesClient_range_spec.
Qed.

End RootClients.

Lemma getKubernetesClient_namespaces_witness :
  let env := {| Root.Config := nat; Root.Clientset := nat;
                Root.ClientConfig c :=
                  if String.eqb c "prod" then inr 1 else inl "no such context";
                Root.Namespace_ c := inr "default";
                Root.NewForConfig cfg := inr cfg |} in
  @Root.getKubernetesClient env true ["prod"; "dev"]
  = ([@Root.New env "prod" "" 1],
     Some "read kubernetes config file: no such context")
  ∧ ("prod" ∈ ["prod"; "dev"] ∨ ["prod"; "dev"] = [] ∧ "prod" = "")
  ∧ "" = "".
Proof.
  intros env. split; [reflexivity|].
  apply (@getKubernetesClient_namespaces env true ["prod"; "dev"] "prod" "" 1).
  apply list_elem_of_here.
Defined.

Lemma getKubernetesClient_versions_witness :
  let env := {| Root.Config := nat; Root.Clientset := nat;
                Root.ClientConfig c :=
                  if String.eqb c "prod" then inr 1 else inl "no such context";
                Root.Namespace_ c := inr "default";
                Root.NewForConfig cfg := inr cfg |} in
  @Root.kube_getKubernetesClient env ["prod"; "dev"]
  = ([], Some "read kubernetes config file: no such context")
  ∧ @Root.getKubernetesClient env false ["prod"; "dev"]
    = ([@Root.New env "prod" "default" 1],
       Some "read kubernetes config file: no such context").
Proof.
  intros env.
  destruct (@getKubernetesClient_versions env ["prod"; "dev"]) as [Hsame _].
  split; [|reflexivity]. rewrite Hsame by discriminate. reflexivity.
Defined.

(** ** The environment of a container *)

Section EnvPods.
Import Env.
Context `{EnvHelpers}.

Lemma first_in_Some (phase : string) (pods : list Pod) (pod : Pod) :
  first_in phase pods = Some pod →
  ∃ before after, pods = (before ++ pod :: after)%list ∧ Phase pod = phase
                  ∧ Forall (λ p, Phase p ≠ phase) before.
Proof.
  unfold first_in. induction pods as [|p pods IH]; [done|]. cbn.
  destruct (String.eqb (Phase p) phase) eqn:Hp.
  - intros [= ->]. apply String.eqb_eq in Hp. by exists [], pods.
  - intros Hf. destruct (IH Hf) as (before & after & -> & Hph & HF).
    exists (p :: before), after. repeat split; [done|].
    constructor; [|done]. by apply String.eqb_neq.
Qed.

Lemma first_in_None (phase : string) (pods : list Pod) :
  first_in phase pods = None → Forall (λ p, Phase p ≠ phase) pods.
Proof.
  unfold first_in. induction pods as [|p pods IH]; [done|]. cbn.
  destruct (String.eqb (Phase p) phase) eqn:Hp; [done|].
  intros Hf. constructor; [by apply String.eqb_neq|by apply IH].
Qed.

Ltac earlier_phases :=
  let r' := fresh "r'" in
  intros r' ? ? Hl;
  repeat (destruct r' as [|r']; [cbn in Hl; injection Hl as <-; done|]);
  lia.

Lemma liveness_Some (phase : string) (r : nat) :
  liveness phase = Some r →
  [PodRunning; PodSucceeded; PodFailed; PodPending; PodUnknown] !! r = Some phase.
Proof.
  unfold liveness. repeat case_match; try done; intros [= <-];
    match goal with Heq : String.eqb _ _ = true |- _ =>
      apply String.eqb_eq in Heq as -> end; done.
Qed.

(** X15.  [getMostLivePod] returns the first pod of the list among those
    whose phase comes first in the order Running, Succeeded, Failed,
    Pending, Unknown; and the empty pod when no pod of the list has one
    of these phases, as when the list is empty. *)
Theorem getMostLivePod_is_most_live (pods : list Pod) :
  match find (λ pod, bool_decide (is_Some (liveness (Phase pod)))) pods with
  | None => getMostLivePod pods = zero_Pod
  | Some _ =>
      ∃ before after r,
        pods = (before ++ getMostLivePod pods :: after)%list
        ∧ liveness (Phase (getMostLivePod pods)) = Some r
        ∧ Forall (λ p, liveness (Phase p) ≠ Some r) before
        ∧ Forall (λ p, ∀ r', liveness (Phase p) = Some r' → (r ≤ r')%nat) pods
  end.
Proof.
  assert (∀ phase r,
    [PodRunning; PodSucceeded; PodFailed; PodPending; PodUnknown] !! r
      = Some phase →
    (∀ r' phase', (r' < r)%nat →
       [PodRunning; PodSucceeded; PodFailed; PodPending; PodUnknown] !! r'
         = Some phase' →
       first_in phase' pods = None) →
    ∀ pod, first_in phase pods = Some pod →
    ∃ before after,
      pods = (before ++ pod :: after)%list
      ∧ liveness (Phase pod) = Some r
      ∧ Forall (λ p, liveness (Phase p) ≠ Some r) before
      ∧ Forall (λ p, ∀ r', liveness (Phase p) = Some r' → (r ≤ r')%nat) pods)
    as Hfound.
  { intros phase r Hr Hnone pod Hpod.
    destruct (first_in_Some _ _ _ Hpod) as (before & after & Heq & Hph & HF).
    exists before, after. split; [done|]. split.
    { rewrite Hph.
      do 5 (destruct r as [|r]; [by injection Hr as <-|]). done. }
    split.
    - eapply Forall_impl; [exact HF|]. intros p Hp Hl.
      apply liveness_Some in Hl. congruence.
    - apply Forall_forall. intros p Hp r' Hl.
      destruct (decide (r ≤ r')%nat) as [|Hlt]; [done|].
      apply liveness_Some in Hl.
      assert (first_in (Phase p) pods = None) as Hn.
      { apply (Hnone r'); [lia|done]. }
      apply first_in_None in Hn. rewrite Forall_forall in Hn.
      by destruct (Hn p Hp). }
  destruct (find _ pods) as [p|] eqn:Hfind.
  - apply find_some in Hfind as [Hin Hp].
    apply bool_decide_eq_true in Hp as [r Hr].
    apply liveness_Some in Hr.
    unfold getMostLivePod.
    destruct (first_in PodRunning pods) as [pod|] eqn:H0.
    { destruct (Hfound PodRunning 0 eq_refl) with (pod := pod)
        as (b & a & ?); [earlier_phases|done|by exists b, a, 0]. }
    destruct (first_in PodSucceeded pods) as [pod|] eqn:H1.
    { destruct (Hfound PodSucceeded 1 eq_refl) with (pod := pod)
        as (b & a & ?); [earlier_phases|done|by exists b, a, 1]. }
    destruct (first_in PodFailed pods) as [pod|] eqn:H2.
    { destruct (Hfound PodFailed 2 eq_refl) with (pod := pod)
        as (b & a & ?); [earlier_phases|done|by exists b, a, 2]. }
    destruct (first_in PodPending pods) as [pod|] eqn:H3.
    { destruct (Hfound PodPending 3 eq_refl) with (pod := pod)
        as (b & a & ?); [earlier_phases|done|by exists b, a, 3]. }
    destruct (first_in PodUnknown pods) as [pod|] eqn:H4.
    { destruct (Hfound PodUnknown 4 eq_refl) with (pod := pod)
        as (b & a & ?); [earlier_phases|done|by exists b, a, 4]. }
    exfalso.
    assert (first_in (Phase p) pods = None) as Hn.
    { do 5 (destruct r as [|r]; [by injection Hr as <-|]). done. }
    apply first_in_None in Hn. rewrite Forall_forall in Hn.
    apply list_elem_of_In in Hin. by destruct (Hn p Hin).
  - assert (∀ phase r,
      [PodRunning; PodSucceeded; PodFailed; PodPending; PodUnknown] !! r
        = Some phase → first_in phase pods = None) as Hnone.
    { intros phase r Hr. destruct (first_in phase pods) as [pod|] eqn:Hf; [|done].
      apply first_in_Some in Hf as (before & after & Heq & Hph & _).
      assert (In pod pods) as Hin.
      { apply list_elem_of_In. rewrite Heq. apply elem_of_app. right.
        apply list_elem_of_here. }
      pose proof (find_none _ _ Hfind pod Hin) as Hp.
      apply bool_decide_eq_false in Hp. destruct Hp. rewrite Hph.
      exists r. do 5 (destruct r as [|r]; [by injection Hr as <-|]). done. }
    unfold getMostLivePod.
    rewrite (Hnone PodRunning 0), (Hnone PodSucceeded 1), (Hnone PodFailed 2),
      (Hnone PodPending 3), (Hnone PodUnknown 4); done.
Qed.

End EnvPods.

Section EnvSources.
Import Env.
Context `{EnvHelpers}.

Lemma prefix_fold_kmap (prefix : string) (values : gmap string string) :
  map_fold (λ key value content, <[prefix ++ key := value]> content)
    (∅ : gmap string string) values
  = kmap (String.append prefix) values.
Proof.
  apply (map_fold_weak_ind
           (λ r m, r = (kmap (String.append prefix) m : gmap string string))).
  - by rewrite kmap_empty.
  - intros key value m r Hkey ->.
    rewrite kmap_insert; [done|apply String.app_inj].
Qed.

(** X16.  [getEnvFromSource] names the section after the kind and the
    object.  When the object is in the storage, the section has one
    entry per key of the object, under the prefix followed by the key,
    and nothing else.  When it is not, the section is empty, or holds
    the one entry [error] when the reference is marked as not optional. *)
Theorem getEnvFromSource_prefixes_keys
    (storage : gmap string (gmap string string))
    (kind prefix name : string) (optional : option bool) :
  let content := (getEnvFromSource storage kind prefix name optional).2 in
  (getEnvFromSource storage kind prefix name optional).1 = kind ++ " " ++ name
  ∧ match storage !! name with
    | Some values =>
        (∀ key, content !! (prefix ++ key) = values !! key)
        ∧ (∀ k, is_Some (content !! k) →
                ∃ key, k = prefix ++ key ∧ is_Some (values !! key))
        ∧ size content = size values
    | None =>
        content
        = if is_false optional
          then {["error" := "<" ++ kind ++ " not optional and not found>"]}
          else ∅
    end.
Proof.
  intros content. subst content. unfold getEnvFromSource.
  destruct (storage !! name) as [values|] eqn:Hs.
  - rewrite bool_decide_eq_true_2 by eauto. cbn [negb andb fst snd default].
    split; [done|]. rewrite prefix_fold_kmap. repeat split.
    + intros key. apply (lookup_kmap (String.append prefix)).
    + intros k Hk.
      by apply (lookup_kmap_is_Some (String.append prefix)) in Hk.
    + rewrite <- !length_map_to_list.
      rewrite (map_to_list_kmap (String.append prefix)).
      apply length_fmap.
  - rewrite (bool_decide_eq_false_2 (is_Some (@None (gmap string string))))
      by (by intros [? ?]).
    cbn [negb andb]. destruct (is_false optional); [done|].
    split; [done|]. cbn [snd default]. by rewrite map_fold_empty.
Qed.

End EnvSources.

Section EnvDependencies.
Import Env.
Context `{EnvHelpers}.

Lemma Registered_insert (storage : gmap string (gmap string string))
    (name : string) :
  Registered storage → Registered (<[name := ∅]> storage).
Proof.
  intros HR n values. destruct (decide (n = name)) as [->|Hne].
  - rewrite lookup_insert_eq. by intros [= <-].
  - rewrite lookup_insert_ne by done. apply HR.
Qed.

Lemma register_Env_grows (deps : Dependencies) (env : EnvVar) :
  (Registered (configMaps deps) → Registered (configMaps (register_Env deps env)))
  ∧ (Registered (secrets deps) → Registered (secrets (register_Env deps env)))
  ∧ (∀ name, is_Some (configMaps deps !! name) →
             is_Some (configMaps (register_Env deps env) !! name))
  ∧ (∀ name, is_Some (secrets deps !! name) →
             is_Some (secrets (register_Env deps env) !! name)).
Proof.
  unfold register_Env. repeat case_match; cbn;
    repeat split; try done; try apply Registered_insert;
    intros name Hn; by apply lookup_insert_is_Some'; right.
Qed.

Lemma register_EnvFrom_grows (deps : Dependencies) (envFrom : EnvFromSource) :
  (Registered (configMaps deps) →
   Registered (configMaps (register_EnvFrom deps envFrom)))
  ∧ (Registered (secrets deps) →
     Registered (secrets (register_EnvFrom deps envFrom)))
  ∧ (∀ name, is_Some (configMaps deps !! name) →
             is_Some (configMaps (register_EnvFrom deps envFrom) !! name))
  ∧ (∀ name, is_Some (secrets deps !! name) →
             is_Some (secrets (register_EnvFrom deps envFrom) !! name)).
Proof.
  unfold register_EnvFrom. repeat case_match; cbn;
    repeat split; try done; try apply Registered_insert;
    intros name Hn; by apply lookup_insert_is_Some'; right.
Qed.

Lemma foldl_register_Env (envs : list EnvVar) (deps : Dependencies) :
  Registered (configMaps deps) → Registered (secrets deps) →
  let deps' := foldl register_Env deps envs in
  Registered (configMaps deps') ∧ Registered (secrets deps')
  ∧ (∀ name, is_Some (configMaps deps !! name) →
             is_Some (configMaps deps' !! name))
  ∧ (∀ name, is_Some (secrets deps !! name) → is_Some (secrets deps' !! name))
  ∧ ∀ env valueFrom, env ∈ envs → ValueFrom env = Some valueFrom →
      match ConfigMapKeyRef valueFrom, SecretKeyRef valueFrom with
      | Some ref, _ => is_Some (configMaps deps' !! ks_Name ref)
      | None, Some ref => is_Some (secrets deps' !! ks_Name ref)
      | None, None => True
      end.
Proof.
  revert deps. induction envs as [|env envs IH]; intros deps Hc Hs.
  { cbn. repeat split; try done. intros env vf Hin. by apply elem_of_nil in Hin. }
  intros deps'. subst deps'. cbn [foldl].
  destruct (register_Env_grows deps env) as (Hc1 & Hs1 & Hcm & Hsm).
  destruct (IH (register_Env deps env) (Hc1 Hc) (Hs1 Hs))
    as (Hc2 & Hs2 & Hcm2 & Hsm2 & Hrefs).
  repeat split; try done.
  - intros name Hn. by apply Hcm2, Hcm.
  - intros name Hn. by apply Hsm2, Hsm.
  - intros env' vf Hin Hvf.
    apply elem_of_cons in Hin as [->|Hin]; [|by eapply Hrefs].
    destruct (ConfigMapKeyRef vf) as [ref|] eqn:Hcref.
    { apply Hcm2. unfold register_Env. rewrite Hvf, Hcref. cbn.
      rewrite lookup_insert_eq. by eexists. }
    destruct (SecretKeyRef vf) as [ref|] eqn:Hsref; [|done].
    apply Hsm2. unfold register_Env. rewrite Hvf, Hcref, Hsref. cbn.
    rewrite lookup_insert_eq. by eexists.
Qed.

Lemma foldl_register_EnvFrom (envFroms : list EnvFromSource)
    (deps : Dependencies) :
  Registered (configMaps deps) → Registered (secrets deps) →
  let deps' := foldl register_EnvFrom deps envFroms in
  Registered (configMaps deps') ∧ Registered (secrets deps')
  ∧ (∀ name, is_Some (configMaps deps !! name) →
             is_Some (configMaps deps' !! name))
  ∧ (∀ name, is_Some (secrets deps !! name) → is_Some (secrets deps' !! name))
  ∧ ∀ envFrom, envFrom ∈ envFroms →
      match ConfigMapRef envFrom, SecretRef envFrom with
      | Some ref, _ => is_Some (configMaps deps' !! es_Name ref)
      | None, Some ref => is_Some (secrets deps' !! es_Name ref)
      | None, None => True
      end.
Proof.
  revert deps. induction envFroms as [|envFrom envFroms IH]; intros deps Hc Hs.
  { cbn. repeat split; try done. intros e Hin. by apply elem_of_nil in Hin. }
  intros deps'. subst deps'. cbn [foldl].
  destruct (register_EnvFrom_grows deps envFrom) as (Hc1 & Hs1 & Hcm & Hsm).
  destruct (IH (register_EnvFrom deps envFrom) (Hc1 Hc) (Hs1 Hs))
    as (Hc2 & Hs2 & Hcm2 & Hsm2 & Hrefs).
  repeat split; try done.
  - intros name Hn. by apply Hcm2, Hcm.
  - intros name Hn. by apply Hsm2, Hsm.
  - intros e Hin.
    apply elem_of_cons in Hin as [->|Hin]; [|by eapply Hrefs].
    destruct (ConfigMapRef envFrom) as [ref|] eqn:Hcref.
    { apply Hcm2. unfold register_EnvFrom. rewrite Hcref. cbn.
      rewrite lookup_insert_eq. by eexists. }
    destruct (SecretRef envFrom) as [ref|] eqn:Hsref; [|done].
    apply Hsm2. unfold register_EnvFrom. rewrite Hcref, Hsref. cbn.
    rewrite lookup_insert_eq. by eexists.
Qed.

(** What [fetch] leaves under a name, and what it reports. *)
Lemma fetch_spec (kind : string) (get : string → string + gmap string string)
    (names : gmap string (gmap string string)) :
  let '(storage, errs) := fetch kind get names in
  (∀ name,
     storage !! name
     = match names !! name with
       | Some registered =>
           Some match get name with inr data => data | inl _ => registered end
       | None => None
       end)
  ∧ (∀ msg, msg ∈ errs ↔
       ∃ name err, is_Some (names !! name) ∧ get name = inl err
                   ∧ msg = "getting " ++ kind ++ " `" ++ name ++ "`: " ++ err).
Proof.
  unfold fetch.
  set (f := λ (name : string) (_ : gmap string string)
              '((storage, errs) : gmap string (gmap string string) * list string),
              match get name with
              | inl err =>
                  (storage,
                   (errs ++ [("getting " ++ kind ++ " `" ++ name ++ "`: "
                              ++ err)%string])%list)
              | inr data => (<[name := data]> storage, errs)
              end).
  assert (∀ init m,
    let '(storage, errs) := map_fold f (init, []) m in
    (∀ name,
       storage !! name
       = match m !! name with
         | Some _ =>
             match get name with
             | inr data => Some data
             | inl _ => init !! name
             end
         | None => init !! name
         end)
    ∧ (∀ msg, msg ∈ errs ↔
         ∃ name err, is_Some (m !! name) ∧ get name = inl err
                     ∧ msg = "getting " ++ kind ++ " `" ++ name ++ "`: " ++ err))
    as Hgen.
  { intros init m.
    apply (map_fold_weak_ind
      (λ (r : gmap string (gmap string string) * list string) m,
         let '(storage, errs) := r in
         (∀ name,
            storage !! name
            = match m !! name with
              | Some _ =>
                  match get name with
                  | inr data => Some data
                  | inl _ => init !! name
                  end
              | None => init !! name
              end)
         ∧ (∀ msg, msg ∈ errs ↔
              ∃ name err, is_Some (m !! name) ∧ get name = inl err
                          ∧ msg = "getting " ++ kind ++ " `" ++ name ++ "`: "
                                  ++ err))).
    - split; [done|]. intros msg. split.
      + intros Hin. by apply elem_of_nil in Hin.
      + intros (name & err & [? Hn] & _). by rewrite lookup_empty in Hn.
    - intros name x m' [storage errs] Hname [Hl He]. unfold f.
      destruct (get name) as [err|data] eqn:Hget.
      + split.
        * intros n. rewrite Hl. destruct (decide (n = name)) as [->|Hne].
          -- by rewrite lookup_insert_eq, Hname, Hget.
          -- by rewrite lookup_insert_ne.
        * intros msg. rewrite elem_of_app, He, list_elem_of_singleton. split.
          -- intros [(n & e & Hn & Hg & ->)| ->].
             ++ exists n, e. split; [|done].
                apply lookup_insert_is_Some'. by right.
             ++ exists name, err. split; [|done].
                rewrite lookup_insert_eq. by eexists.
          -- intros (n & e & Hn & Hg & ->).
             destruct (decide (n = name)) as [->|Hne].
             ++ right. congruence.
             ++ left. exists n, e. by rewrite lookup_insert_ne in Hn.
      + split.
        * intros n. destruct (decide (n = name)) as [->|Hne].
          -- by rewrite !lookup_insert_eq, Hget.
          -- rewrite !lookup_insert_ne by done. apply Hl.
        * intros msg. rewrite He. split.
          -- intros (n & e & Hn & Hg & ->). exists n, e. split; [|done].
             apply lookup_insert_is_Some'. by right.
          -- intros (n & e & Hn & Hg & ->).
             destruct (decide (n = name)) as [->|Hne]; [congruence|].
             exists n, e. by rewrite lookup_insert_ne in Hn. }
  specialize (Hgen names names).
  destruct (map_fold f (names, []) names) as [storage errs].
  destruct Hgen as [Hl He]. split; [|done].
  intros name. rewrite Hl. by destruct (names !! name), (get name).
Qed.

(** What [getEnvDependencies] holds for a container: the data of every
    object that a variable or an [envFrom] of the container names, or
    the nil map when the object could not be read; and one report per
    object that could not be read. *)
Lemma getEnvDependencies_spec (container : Container) :
  let deps := getEnvDependencies container in
  let read (get : string → string + gmap string string) name :=
    match get name with inr data => data | inl _ => ∅ end in
  (∀ name, is_Some (configMaps deps !! name) →
           configMaps deps !! name = Some (read GetConfigMap name))
  ∧ (∀ name, is_Some (secrets deps !! name) →
             secrets deps !! name = Some (read GetSecret name))
  ∧ (∀ envFrom, envFrom ∈ EnvFrom container →
       match ConfigMapRef envFrom, SecretRef envFrom with
       | Some ref, _ => is_Some (configMaps deps !! es_Name ref)
       | None, Some ref => is_Some (secrets deps !! es_Name ref)
       | None, None => True
       end)
  ∧ (∀ env valueFrom, env ∈ Env container → ValueFrom env = Some valueFrom →
       match ConfigMapKeyRef valueFrom, SecretKeyRef valueFrom with
       | Some ref, _ => is_Some (configMaps deps !! ks_Name ref)
       | None, Some ref => is_Some (secrets deps !! ks_Name ref)
       | None, None => True
       end)
  ∧ (∀ name err, is_Some (configMaps deps !! name) →
       GetConfigMap name = inl err →
       "getting configmap `" ++ name ++ "`: " ++ err ∈ errors deps)
  ∧ (∀ name err, is_Some (secrets deps !! name) →
       GetSecret name = inl err →
       "getting secret `" ++ name ++ "`: " ++ err ∈ errors deps).
Proof.
  intros deps read. subst deps. unfold getEnvDependencies.
  set (deps0 := {| configMaps := ∅; secrets := ∅; errors := [] |}).
  destruct (foldl_register_Env (Env container) deps0)
    as (Hc1 & Hs1 & _ & _ & Hrefs1); [done|done|].
  destruct (foldl_register_EnvFrom (EnvFrom container)
              (foldl register_Env deps0 (Env container)) Hc1 Hs1)
    as (Hc2 & Hs2 & Hcm & Hsm & Hrefs2).
  set (deps2 := foldl register_EnvFrom
                  (foldl register_Env deps0 (Env container))
                  (EnvFrom container)) in *.
  pose proof (fetch_spec "configmap" GetConfigMap (configMaps deps2)) as Hf1.
  pose proof (fetch_spec "secret" GetSecret (secrets deps2)) as Hf2.
  destruct (fetch "configmap" GetConfigMap (configMaps deps2)) as [cms errs1].
  destruct (fetch "secret" GetSecret (secrets deps2)) as [secs errs2].
  destruct Hf1 as [Hl1 He1], Hf2 as [Hl2 He2]. cbn [configMaps secrets errors].
  assert (∀ name, is_Some (cms !! name) ↔ is_Some (configMaps deps2 !! name))
    as Hdom1.
  { intros name. rewrite Hl1. destruct (configMaps deps2 !! name); [|done].
    split; by eexists. }
  assert (∀ name, is_Some (secs !! name) ↔ is_Some (secrets deps2 !! name))
    as Hdom2.
  { intros name. rewrite Hl2. destruct (secrets deps2 !! name); [|done].
    split; by eexists. }
  repeat split.
  - intros name Hn. apply Hdom1 in Hn as [v Hv]. rewrite Hl1, Hv.
    unfold read. rewrite (Hc2 name v Hv). by destruct (GetConfigMap name).
  - intros name Hn. apply Hdom2 in Hn as [v Hv]. rewrite Hl2, Hv.
    unfold read. rewrite (Hs2 name v Hv). by destruct (GetSecret name).
  - intros envFrom Hin. specialize (Hrefs2 envFrom Hin).
    destruct (ConfigMapRef envFrom); [by apply Hdom1|].
    destruct (SecretRef envFrom); [by apply Hdom2|done].
  - intros env vf Hin Hvf. specialize (Hrefs1 env vf Hin Hvf).
    destruct (ConfigMapKeyRef vf); [by apply Hdom1, Hcm|].
    destruct (SecretKeyRef vf); [by apply Hdom2, Hsm|done].
  - intros name err Hn Hget. apply elem_of_app. left. apply He1.
    exists name, err. by rewrite <- Hdom1.
  - intros name err Hn Hget. apply elem_of_app. right. apply He2.
    exists name, err. by rewrite <- Hdom2.
Qed.

End EnvDependencies.

Section EnvValues.
Import Env.
Context `{EnvHelpers}.

(** X17.  Inside [getEnv] the answer "not optional and not found" of
    [getEnvFromSource] and of [getValueFromRef] is never given: every
    object that an [envFrom] or a variable of the container names has
    been put in the storage by [getEnvDependencies].  An object that
    could not be read is reported by [getEnvDependencies] and shows as
    an empty section, or an empty value, optional or not. *)
Theorem unread_object_shows_empty (container : Container) (pod : Pod) :
  let deps := getEnvDependencies container in
  let read (get : string → string + gmap string string) name :=
    match get name with inr data => data | inl _ => ∅ end in
  (∀ envFrom output, envFrom ∈ EnvFrom container →
     getEnv_EnvFrom deps output envFrom
     = match ConfigMapRef envFrom, SecretRef envFrom with
       | Some ref, _ =>
           <["configmap " ++ es_Name ref :=
               kmap (String.append (Prefix envFrom))
                 (read GetConfigMap (es_Name ref))]> output
       | None, Some ref =>
           <["secret " ++ es_Name ref :=
               kmap (String.append (Prefix envFrom))
                 (read GetSecret (es_Name ref))]> output
       | None, None => <["" := ∅]> output
       end
     ∧ ∀ ref err, ConfigMapRef envFrom = Some ref →
         GetConfigMap (es_Name ref) = inl err →
         "getting configmap `" ++ es_Name ref ++ "`: " ++ err ∈ errors deps)
  ∧ (∀ env valueFrom, env ∈ Env container → ValueFrom env = Some valueFrom →
       getValueFrom pod env (configMaps deps) (secrets deps)
       = match ConfigMapKeyRef valueFrom, SecretKeyRef valueFrom with
         | Some ref, _ =>
             Some (default "" (read GetConfigMap (ks_Name ref) !! ks_Key ref))
         | None, Some ref =>
             Some (default "" (read GetSecret (ks_Name ref) !! ks_Key ref))
         | None, None =>
             match FieldRef valueFrom, ResourceFieldRef valueFrom with
             | Some fieldPath, _ => Some (getEnvFieldRef pod fieldPath)
             | None, Some resource =>
                 Some (getEnvResourceRef (Containers pod) resource)
             | None, None => Some ""
             end
         end).
Proof.
  intros deps read.
  destruct (getEnvDependencies_spec container)
    as (Hcm & Hsec & HenvFrom & Henv & Herr & _).
  fold deps in Hcm, Hsec, HenvFrom, Henv, Herr. fold read in Hcm, Hsec.
  split.
  - intros envFrom output Hin. specialize (HenvFrom envFrom Hin).
    unfold getEnv_EnvFrom. split.
    + destruct (ConfigMapRef envFrom) as [ref|].
      { unfold getEnvFromSource. rewrite (Hcm _ HenvFrom).
        rewrite bool_decide_eq_true_2 by eauto.
        cbn [negb andb default]. by rewrite prefix_fold_kmap. }
      destruct (SecretRef envFrom) as [ref|]; [|done].
      unfold getEnvFromSource. rewrite (Hsec _ HenvFrom).
      rewrite bool_decide_eq_true_2 by eauto.
      cbn [negb andb default]. by rewrite prefix_fold_kmap.
    + intros ref err Href Hget. rewrite Href in HenvFrom. by apply Herr.
  - intros env vf Hin Hvf. specialize (Henv env vf Hin Hvf).
    unfold getValueFrom. rewrite Hvf.
    destruct (ConfigMapKeyRef vf) as [ref|].
    { unfold getValueFromRef. rewrite (Hcm _ Henv).
      by rewrite bool_decide_eq_true_2 by eauto. }
    destruct (SecretKeyRef vf) as [ref|].
    { unfold getValueFromRef. rewrite (Hsec _ Henv).
      by rewrite bool_decide_eq_true_2 by eauto. }
    by destruct (FieldRef vf), (ResourceFieldRef vf).
Qed.

Lemma getInlineEnv_None (pod : Pod) (env : EnvVar)
    (cms secs : gmap string (gmap string string)) :
  getInlineEnv pod env cms secs = None ↔ Value env = "" ∧ ValueFrom env = None.
Proof.
  unfold getInlineEnv, getValueFrom. split.
  - case_bool_decide as Hlen; [done|]. intros Hv. split.
    + destruct (Value env); [done|]. cbn in Hlen. lia.
    + destruct (ValueFrom env) as [vf|]; [|done]. by repeat case_match.
  - intros [-> ->]. by rewrite bool_decide_eq_false_2 by (cbn; lia).
Qed.

Lemma foldl_getEnv_Env_None (pod : Pod) (deps : Dependencies)
    (envs : list EnvVar) (inline : option (gmap string string)) :
  foldl (getEnv_Env pod deps) inline envs = None
  ↔ inline = None ∨ ∃ env, env ∈ envs ∧ Value env = "" ∧ ValueFrom env = None.
Proof.
  revert inline. induction envs as [|env envs IH]; intros inline; cbn [foldl].
  - split; [by left|]. intros [|(env & Hin & _)]; [done|].
    by apply elem_of_nil in Hin.
  - rewrite IH. unfold getEnv_Env at 1. split.
    + intros [Hnone|(e & Hin & He)].
      * destruct inline as [inline|]; [|by left]. right.
        destruct (getInlineEnv _ _ _ _) eqn:Hg; [done|].
        apply getInlineEnv_None in Hg. exists env. split; [|done].
        apply list_elem_of_here.
      * right. exists e. split; [|done]. by apply list_elem_of_further.
    + intros [->|(e & Hin & He)]; [by left|].
      apply elem_of_cons in Hin as [->|Hin].
      * left. destruct inline; [|done].
        apply (getInlineEnv_None pod env (configMaps deps) (secrets deps)) in He.
        by rewrite He.
      * right. by exists e.
Qed.

(** X18.  [getEnv] panics exactly when the container declares a variable
    with an empty value and no [valueFrom], whatever else the container
    and the cluster hold: [getValueFrom] reads the nil [ValueFrom]. *)
Theorem getEnv_panics_on_empty_variable (container : Container) (pod : Pod) :
  (getEnv container pod).2 = None
  ↔ ∃ env, env ∈ Env container ∧ Value env = "" ∧ ValueFrom env = None.
Proof.
  unfold getEnv. cbn [snd].
  pose proof (foldl_getEnv_Env_None pod (getEnvDependencies container)
                (Env container) (Some ∅)) as Hfold.
  case_bool_decide as Hlen.
  - destruct (foldl _ _ (Env container)) as [inline|].
    + split; [done|]. intros Hex.
      destruct Hfold as [_ Hfold]. by specialize (Hfold (or_intror Hex)).
    + split; [|done]. intros _. destruct Hfold as [Hfold _].
      by destruct (Hfold eq_refl).
  - split; [done|]. intros (env & Hin & _).
    destruct (Env container); [by apply elem_of_nil in Hin|]. cbn in Hlen. lia.
Qed.

Lemma range_Containers_spec (name : string) (containers : list Container)
    (container : Container) :
  range_Containers name containers container
  = match find (λ c, String.eqb name (Env.Name c)) containers with
    | Some c => c
    | None => default container (last containers)
    end.
Proof.
  revert container.
  induction containers as [|c containers IH]; intros container; [done|].
  cbn [range_Containers find].
  destruct (String.eqb name (Env.Name c)); [done|].
  rewrite IH. destruct (find _ containers); [done|].
  rewrite last_cons. by destruct (last containers).
Qed.

(** X19.  [getEnvResourceRef] reads the resources of the first container
    of the pod that has the name asked for.  When no container has that
    name, as when the reference names no container, it reads those of
    the last container of the pod, and the zero quantities only when the
    pod has no container. *)
Theorem getEnvResourceRef_container (containers : list Container)
    (resource : ResourceFieldSelector) :
  let chosen :=
    match find (λ c, String.eqb (ContainerName resource) (Env.Name c))
            containers with
    | Some c => c
    | None => default zero_Container (last containers)
    end in
  getEnvResourceRef containers resource = getEnvResourceRef [chosen] resource
  ∧ range_Containers (ContainerName resource) containers zero_Container = chosen.
Proof.
  intros chosen. split; [|apply range_Containers_spec].
  unfold getEnvResourceRef. rewrite range_Containers_spec. fold chosen.
  cbn [range_Containers]. by destruct (String.eqb _ (Env.Name chosen)).
Qed.

End EnvValues.

Lemma unread_object_shows_empty_witness :
  let deps := Env.getEnvDependencies (EnvFixture.container []) in
  Env.getEnv_EnvFrom deps ∅ EnvFixture.missing
  = <["configmap missing" := kmap (String.append "") ∅]> ∅
  ∧ "getting configmap `missing`: not found" ∈ Env.errors deps.
Proof.
  intros deps.
  destruct (unread_object_shows_empty (EnvFixture.container []) Env.zero_Pod)
    as [HenvFrom _].
  destruct (HenvFrom EnvFixture.missing ∅) as [Hsection Hreport].
  { apply list_elem_of_further, list_elem_of_here. }
  split; [exact Hsection|].
  apply (Hreport {| Env.es_Name := "missing"; Env.es_Optional := Some false |}
           "not found"); reflexivity.
Defined.

Lemma getEnv_panics_on_empty_variable_witness :
  (Env.getEnv (EnvFixture.container [EnvFixture.debug]) Env.zero_Pod).2 = None.
Proof.
  apply getEnv_panics_on_empty_variable.
  exists EnvFixture.debug. split; [apply list_elem_of_here|]. split; reflexivity.
Defined.
